(** * OpenIntel: the retrieval subsystem of [src/index.js]

    A shallow embedding of the [OpenIntel] class (entry store, optional
    vector index, embedding gateway, keyword / semantic / hybrid search,
    reindex and the trade journal), followed by the properties of the
    specification that are settled against it, and by further properties
    of the code: of the statistics, tag and export listings, of the body
    of [_embed], and of the argument handling of [src/cli.js].

    Conventions of the embedding.
    - SQL tables are lists of rows in rowid order; the statements the code
      prepares are transcribed one by one ([LIKE], [ORDER BY], [LIMIT],
      [LEFT JOIN ... IS NULL], [INSERT], [UPDATE]). The handle sets no
      pragma that changes [LIKE], so [LIKE] has the engine's default
      behaviour.
    - Strings are sequences of 8-bit characters.
    - JavaScript numbers that carry scores and distances are exact
      rationals ([Q]): sums, products and comparisons are exact, rounding
      is not represented; integers (ids, limits, cents) are [Z].
    - A thrown exception is the [Throw] branch of [completion]; [await] is
      sequencing, since every call runs to completion before the next.
    - [datetime('now')] is an argument [now] of the calls that stamp a
      row; the embedding provider is a function of the request number, so
      that it may answer the same request differently over time. *)

From Stdlib Require Import String Ascii List ZArith QArith Bool Arith Lia.
From Stdlib Require Import Sorting.Sorted Sorting.Permutation Lqa.
From Stdlib Require Import DecimalString DecimalPos.
From Equations Require Import Equations.
Import ListNotations.

Local Close Scope Q_scope.
Local Open Scope list_scope.
Local Open Scope string_scope.

(* ===================================================================== *)
(** ** Text: what the storage engine and the JS runtime do to strings    *)
(* ===================================================================== *)

Module Text.

(** ASCII lower-casing, the folding [LIKE] applies to both operands. *)
Definition to_lower (c : ascii) : ascii :=
  let n := nat_of_ascii c in
  if (65 <=? n)%nat && (n <=? 90)%nat then ascii_of_nat (n + 32) else c.

Fixpoint fold_case (s : string) : string :=
  match s with
  | EmptyString => EmptyString
  | String c s' => String (to_lower c) (fold_case s')
  end.

Definition is_wildcard (c : ascii) : bool :=
  Ascii.eqb c "%" || Ascii.eqb c "_".

Fixpoint has_wildcard (s : string) : bool :=
  match s with
  | EmptyString => false
  | String c s' => is_wildcard c || has_wildcard s'
  end.

(** [x LIKE pat] of the storage engine, without an ESCAPE clause: [%]
    matches any run of characters, [_] exactly one, and any other
    character matches itself up to ASCII case. *)
Fixpoint like (pat s : string) : bool :=
  match pat with
  | EmptyString => match s with EmptyString => true | String _ _ => false end
  | String p pat' =>
      if Ascii.eqb p "%" then
        (fix skip (s : string) : bool :=
           like pat' s ||
           match s with
           | EmptyString => false
           | String _ s' => skip s'
           end) s
      else
        match s with
        | EmptyString => false
        | String c s' =>
            (if Ascii.eqb p "_" then true
             else Ascii.eqb (to_lower p) (to_lower c)) && like pat' s'
        end
  end.

(** A NULL column never satisfies [LIKE]. *)
Definition like_opt (pat : string) (col : option string) : bool :=
  match col with
  | None => false
  | Some s => like pat s
  end.

(** Case-sensitive prefix and substring tests: the reading the
    specification gives to "contains". *)
Fixpoint starts_with (t s : string) : bool :=
  match t with
  | EmptyString => true
  | String a t' =>
      match s with
      | EmptyString => false
      | String b s' => Ascii.eqb a b && starts_with t' s'
      end
  end.

Fixpoint contains (t s : string) : bool :=
  starts_with t s ||
  match s with
  | EmptyString => false
  | String _ s' => contains t s'
  end.

Definition contains_opt (t : string) (col : option string) : bool :=
  match col with
  | None => false
  | Some s => contains t s
  end.

(** Substring test up to ASCII case. *)
Definition contains_nocase (t s : string) : bool :=
  contains (fold_case t) (fold_case s).

Definition contains_nocase_opt (t : string) (col : option string) : bool :=
  match col with
  | None => false
  | Some s => contains_nocase t s
  end.


(** [String.prototype.trim]: white space of the 8-bit range. *)
Definition is_space (c : ascii) : bool :=
  let n := nat_of_ascii c in
  ((9 <=? n)%nat && (n <=? 13)%nat) || (n =? 32)%nat || (n =? 160)%nat.

Fixpoint trim_start (s : string) : string :=
  match s with
  | EmptyString => EmptyString
  | String c s' => if is_space c then trim_start s' else s
  end.

Fixpoint trim_end (s : string) : string :=
  match s with
  | EmptyString => EmptyString
  | String c s' =>
      match trim_end s' with
      | EmptyString => if is_space c then EmptyString else String c EmptyString
      | r => String c r
      end
  end.

Definition trim (s : string) : string := trim_end (trim_start s).

(** [JSON.stringify] on a string and on an array of strings. *)
Definition hex_digit (n : nat) : ascii :=
  ascii_of_nat (if (n <? 10)%nat then 48 + n else 87 + n).

Definition dquote : ascii := ascii_of_nat 34.

Definition json_escape_char (c : ascii) : string :=
  let n := nat_of_ascii c in
  if (n =? 34)%nat then String "\" (String dquote "")
  else if (n =? 92)%nat then "\\"
  else if (n =? 8)%nat then "\b"
  else if (n =? 9)%nat then "\t"
  else if (n =? 10)%nat then "\n"
  else if (n =? 12)%nat then "\f"
  else if (n =? 13)%nat then "\r"
  else if (n <? 32)%nat then
    "\u00" ++ String (hex_digit (n / 16)) (String (hex_digit (n mod 16)) "")
  else String c "".

Fixpoint json_escape (s : string) : string :=
  match s with
  | EmptyString => EmptyString
  | String c s' => json_escape_char c ++ json_escape s'
  end.

Definition json_quote (s : string) : string :=
  String dquote (json_escape s ++ String dquote "").

Definition stringify_array (l : list string) : string :=
  "[" ++ String.concat "," (map json_quote l) ++ "]".

End Text.

(* ===================================================================== *)
(** ** JSON text: [JSON.parse] on arrays of strings                        *)
(* ===================================================================== *)

(** [JSON.parse] on the texts the [tags] column holds: an array of
    strings, as [JSON.stringify] writes it for [add]. The parser reads the
    text once, character by character. [None] stands for every other
    text: one that is not JSON (a [SyntaxError]), JSON that is not an
    array of strings, or a string with a [\u] escape beyond the 8-bit
    range of this development's strings. *)
Module Json.

Inductive state : Type :=
| Start                       (* before [[] *)
| Open                        (* after [[]: a string or []] *)
| InString                    (* inside a string *)
| Escape                      (* after a backslash *)
| Unicode (digits : list nat) (* after [\u] and the digits read so far *)
| AfterString                 (* after a string: [,] or []] *)
| AfterComma                  (* after [,]: a string *)
| Closed.                     (* after []] *)

(** JSON white space: space, tab, line feed, carriage return. *)
Definition is_ws (c : ascii) : bool :=
  let n := nat_of_ascii c in
  (n =? 32)%nat || (n =? 9)%nat || (n =? 10)%nat || (n =? 13)%nat.

Definition hex_value (c : ascii) : option nat :=
  let n := nat_of_ascii c in
  if (48 <=? n)%nat && (n <=? 57)%nat then Some (n - 48)
  else if (97 <=? n)%nat && (n <=? 102)%nat then Some (n - 87)
  else if (65 <=? n)%nat && (n <=? 70)%nat then Some (n - 55)
  else None.

(** The character a single-letter escape stands for. *)
Definition unescape (c : ascii) : option ascii :=
  let n := nat_of_ascii c in
  if (n =? 34)%nat then Some c
  else if (n =? 92)%nat then Some c
  else if (n =? 47)%nat then Some c
  else if (n =? 98)%nat then Some (ascii_of_nat 8)
  else if (n =? 102)%nat then Some (ascii_of_nat 12)
  else if (n =? 110)%nat then Some (ascii_of_nat 10)
  else if (n =? 114)%nat then Some (ascii_of_nat 13)
  else if (n =? 116)%nat then Some (ascii_of_nat 9)
  else None.

Definition snoc (s : string) (c : ascii) : string :=
  (s ++ String c EmptyString)%string.

(** [cur]: the string being read; [out]: the strings read so far. *)
Fixpoint parse_from (s : string) (st : state) (cur : string)
    (out : list string) : option (list string) :=
  match s with
  | EmptyString =>
      match st with
      | Closed => Some out
      | _ => None
      end
  | String c s' =>
      let n := nat_of_ascii c in
      match st with
      | Start =>
          if is_ws c then parse_from s' Start cur out
          else if (n =? 91)%nat then parse_from s' Open cur out
          else None
      | Open =>
          if is_ws c then parse_from s' Open cur out
          else if (n =? 93)%nat then parse_from s' Closed cur out
          else if (n =? 34)%nat then parse_from s' InString EmptyString out
          else None
      | AfterComma =>
          if is_ws c then parse_from s' AfterComma cur out
          else if (n =? 34)%nat then parse_from s' InString EmptyString out
          else None
      | InString =>
          if (n =? 34)%nat then
            parse_from s' AfterString EmptyString (out ++ [cur])
          else if (n =? 92)%nat then parse_from s' Escape cur out
          else if (n <? 32)%nat then None
          else parse_from s' InString (snoc cur c) out
      | Escape =>
          if (n =? 117)%nat then parse_from s' (Unicode []) cur out
          else
            match unescape c with
            | Some c' => parse_from s' InString (snoc cur c') out
            | None => None
            end
      | Unicode digits =>
          match hex_value c with
          | None => None
          | Some d =>
              match digits with
              | [d1; d2; d3] =>
                  let code := ((d1 * 16 + d2) * 16 + d3) * 16 + d in
                  if (code <? 256)%nat then
                    parse_from s' InString (snoc cur (ascii_of_nat code)) out
                  else None
              | _ => parse_from s' (Unicode (digits ++ [d])) cur out
              end
          end
      | AfterString =>
          if is_ws c then parse_from s' AfterString cur out
          else if (n =? 44)%nat then parse_from s' AfterComma cur out
          else if (n =? 93)%nat then parse_from s' Closed cur out
          else None
      | Closed =>
          if is_ws c then parse_from s' Closed cur out else None
      end
  end.

Definition parse_strings (text : string) : option (list string) :=
  parse_from text Start EmptyString [].

End Json.

(* ===================================================================== *)
(** ** The JavaScript runtime: exceptions, arrays, [Map] and [Set]        *)
(* ===================================================================== *)

Module Js.

(** An exception object: the constructor's name and the message. Every
    [throw new Error(msg)] of the source builds [Error msg]. *)
Record error : Type := mk_error { name : string; message : string }.

Definition Error (msg : string) : error :=
  {| name := "Error"; message := msg |}.

Definition SqliteError (msg : string) : error :=
  {| name := "SqliteError"; message := msg |}.

Inductive completion (A : Type) : Type :=
| Return (a : A)
| Throw (e : error).
Arguments Return {A} a.
Arguments Throw {A} e.

(** Truthiness of an optional string: [undefined], [null] and the empty
    string are falsy. *)
Definition truthy (s : option string) : option string :=
  match s with
  | Some EmptyString => None
  | other => other
  end.

Section StableSort.
Context {A : Type}.
(** [keep a b = true]: [a] may stay in front of [b]. *)
Variable keep : A -> A -> bool.

Fixpoint insert (x : A) (l : list A) : list A :=
  match l with
  | [] => [x]
  | y :: l' => if keep x y then x :: l else y :: insert x l'
  end.

Fixpoint stable_sort (l : list A) : list A :=
  match l with
  | [] => []
  | x :: l' => insert x (stable_sort l')
  end.
End StableSort.

(** [arr.sort(cmp)]: stable, [a] stays in front of [b] unless
    [cmp(a, b) > 0]. *)
Definition sort {A} (cmp : A -> A -> Q) (l : list A) : list A :=
  stable_sort (fun a b => Qle_bool (cmp a b) 0%Q) l.

(** [arr.slice(0, n)]; a negative [n] counts from the end. *)
Definition slice0 {A} (n : Z) (l : list A) : list A :=
  if (n <? 0)%Z then firstn (length l - Z.to_nat (- n)) l
  else firstn (Z.to_nat n) l.

(** [arr.slice(i, j)] for indices within range. *)
Definition slice {A} (i j : nat) (l : list A) : list A :=
  firstn (j - i) (skipn i l).

(** [Map] with integer keys: entries in insertion order;
    setting a present key keeps its position. *)
Definition Map (V : Type) : Type := list (Z * V).

Fixpoint Map_set {V} (k : Z) (v : V) (m : Map V) : Map V :=
  match m with
  | [] => [(k, v)]
  | (k', v') :: m' =>
      if (k =? k')%Z then (k, v) :: m' else (k', v') :: Map_set k v m'
  end.

Definition Map_of {V} (entries : list (Z * V)) : Map V :=
  fold_left (fun m kv => Map_set (fst kv) (snd kv) m) entries [].

Fixpoint Map_get {V} (k : Z) (m : Map V) : option V :=
  match m with
  | [] => None
  | (k', v) :: m' => if (k =? k')%Z then Some v else Map_get k m'
  end.

Definition Map_has {V} (k : Z) (m : Map V) : bool :=
  match Map_get k m with Some _ => true | None => false end.

Definition Map_keys {V} (m : Map V) : list Z := map fst m.

(** [new Set(iterable)]: first occurrences, in order. *)
Definition Set_add (k : Z) (s : list Z) : list Z :=
  if existsb (Z.eqb k) s then s else s ++ [k].

Definition Set_of (l : list Z) : list Z :=
  fold_left (fun s k => Set_add k s) l [].

End Js.

(** An object used as a table of counters, [{}] with string keys:
    own properties in creation order. *)
Module Obj.
Local Open Scope list_scope.

Definition t : Type := list (string * nat).

Fixpoint get (k : string) (o : t) : option nat :=
  match o with
  | [] => None
  | (k', v) :: o' => if String.eqb k k' then Some v else get k o'
  end.

Fixpoint set (k : string) (v : nat) (o : t) : t :=
  match o with
  | [] => [(k, v)]
  | (k', v') :: o' =>
      if String.eqb k k' then (k, v) :: o' else (k', v') :: set k v o'
  end.

(** The names [Object.prototype] defines: reading one of them from [{}]
    gives the inherited member, not [undefined]. *)
Definition prototype_names : list string :=
  ["constructor"; "__defineGetter__"; "__defineSetter__"; "hasOwnProperty";
   "__lookupGetter__"; "__lookupSetter__"; "isPrototypeOf";
   "propertyIsEnumerable"; "toString"; "valueOf"; "__proto__";
   "toLocaleString"].

Definition inherited (k : string) : bool :=
  existsb (String.eqb k) prototype_names.

Definition is_digit (c : ascii) : bool :=
  let n := nat_of_ascii c in (48 <=? n)%nat && (n <=? 57)%nat.

Fixpoint decimal (s : string) (acc : N) : option N :=
  match s with
  | EmptyString => Some acc
  | String c s' =>
      if is_digit c then
        decimal s' (acc * 10 + N.of_nat (nat_of_ascii c - 48))%N
      else None
  end.

(** An array index: the canonical decimal text of an integer up to
    [2^32 - 2]. *)
Definition array_index (k : string) : option N :=
  match k with
  | EmptyString => None
  | String c rest =>
      if (nat_of_ascii c =? 48)%nat && negb (String.eqb rest EmptyString)
      then None
      else
        match decimal k 0%N with
        | Some n => if (n <=? 4294967294)%N then Some n else None
        | None => None
        end
  end.

(** [Object.entries]: array indices first, in ascending numeric order,
    then the other keys in creation order. *)
Definition entries (o : t) : list (string * nat) :=
  Js.stable_sort
    (fun a b =>
       match array_index (fst a), array_index (fst b) with
       | Some x, Some y => (x <=? y)%N
       | _, _ => true
       end)
    (filter (fun e => match array_index (fst e) with
                      | Some _ => true
                      | None => false
                      end) o)
  ++ filter (fun e => match array_index (fst e) with
                      | Some _ => false
                      | None => true
                      end) o.

End Obj.

(* ===================================================================== *)
(** ** The storage engine: tables and the clauses the code relies on      *)
(* ===================================================================== *)

(** Table [intel]. [tags] and [metadata] hold JSON text. *)
Module Intel.
Record row : Type := mk {
  id : Z;
  category : string;
  title : string;
  body : option string;
  source : option string;
  tags : string;
  confidence : Q;
  actionable : Z;
  metadata : string;
  created_at : string;
  expires_at : option string
}.
End Intel.

Definition vector : Type := list Q.

(** Virtual table [intel_vec]. *)
Module Vec.
Record row : Type := mk { intel_id : Z; embedding : vector }.
End Vec.

(** Table [trades]. *)
Module Trade.
Record row : Type := mk {
  id : Z;
  ticker : string;
  series_ticker : option string;
  direction : string;
  contracts : Z;
  entry_price : Q;
  exit_price : option Q;
  thesis : option string;
  outcome : option string;
  pnl_cents : option Z;
  placed_at : string;
  resolved_at : option string;
  metadata : string
}.
End Trade.

Module Sql.

(** [LIMIT n]: a negative [n] means no limit. *)
Definition limit {A} (n : Z) (rows : list A) : list A :=
  if (n <? 0)%Z then rows else firstn (Z.to_nat n) rows.

(** [ORDER BY key DESC] on a text column. Rows with equal keys come out
    in descending rowid order (a backward scan of the column's index);
    no property below depends on that choice. *)
Definition order_by_desc {A} (key : A -> string) (rows : list A) : list A :=
  Js.stable_sort (fun a b => String.leb (key b) (key a)) (rev rows).

(** [ORDER BY key] on a numeric column, ties in rowid order. *)
Definition order_by_asc_num {A} (key : A -> Q) (rows : list A) : list A :=
  Js.stable_sort (fun a b => Qle_bool (key a) (key b)) rows.

(** The rowid an AUTOINCREMENT table gives to the next row: one more than
    the largest rowid the table has ever held. *)
Definition next_rowid (ids : list Z) (seq : Z) : Z :=
  (fold_right Z.max seq ids + 1)%Z.

(** [WHERE id IN (...)]. *)
Definition id_in (ids : list Z) (i : Z) : bool := existsb (Z.eqb i) ids.

(** [ORDER BY key ASC] on a text column, rows with equal keys in rowid
    order (a forward scan of the column's index). *)
Definition order_by_asc {A} (key : A -> string) (rows : list A) : list A :=
  Js.stable_sort (fun a b => String.leb (key a) (key b)) rows.

(** [ORDER BY count DESC] on an integer column. The order among equal
    counts is the engine's choice; no property below depends on it. *)
Definition order_by_count_desc {A} (count : A -> nat) (rows : list A)
  : list A :=
  Js.stable_sort (fun a b => (count b <=? count a)%nat) rows.

(** [MAX] of a text column over a group. *)
Definition text_max (a b : string) : string :=
  if String.leb a b then b else a.

(** [SUM] of an integer column: [NULL] over no row at all. *)
Definition sum (values : list Z) : option Z :=
  match values with
  | [] => None
  | _ => Some (fold_right Z.add 0%Z values)
  end.

(** The largest [k] a nearest-neighbour scan of a [vec0] table accepts. *)
Definition knn_k_max : Z := 4096.

End Sql.

Record database : Type := mk_database {
  intel : list Intel.row;
  intel_seq : Z;
  intel_vec : list Vec.row;
  trades : list Trade.row;
  trades_seq : Z
}.

(* ===================================================================== *)
(** ** class OpenIntel                                                    *)
(* ===================================================================== *)

Module OpenIntel.
Import Js.
Local Open Scope list_scope.

Inductive input_type : Type := Document | Query.

(** The embedding configuration. [respond n texts mode] is what the
    configured provider (remote service or [embedFn]) answers to the
    [n]-th request issued through this handle: vectors, or a failure. *)
Record embedding : Type := mk_embedding {
  provider : string;
  respond : nat -> list string -> input_type -> completion (list vector)
}.

(** An open handle. [_vecLoaded] is settled by [_init] and never changes;
    [vec_distance] is the metric of the loaded vector extension;
    [requests] counts the gateway requests issued so far. *)
Record t : Type := mk {
  embeddingConfig : option embedding;
  dimensions : nat;
  _vecLoaded : bool;
  vec_distance : vector -> vector -> Q;
  db : database;
  requests : nat
}.

Definition with_db (d : database) (this : t) : t :=
  {| embeddingConfig := embeddingConfig this;
     dimensions := dimensions this;
     _vecLoaded := _vecLoaded this;
     vec_distance := vec_distance this;
     db := d;
     requests := requests this |}.

Definition with_requests (n : nat) (this : t) : t :=
  {| embeddingConfig := embeddingConfig this;
     dimensions := dimensions this;
     _vecLoaded := _vecLoaded this;
     vec_distance := vec_distance this;
     db := db this;
     requests := n |}.

Definition with_intel_vec (v : list Vec.row) (d : database) : database :=
  {| intel := intel d; intel_seq := intel_seq d; intel_vec := v;
     trades := trades d; trades_seq := trades_seq d |}.

Definition is_configured (this : t) : bool :=
  match embeddingConfig this with Some _ => true | None => false end.

(** The tables right after [_init] on a fresh file. *)
Definition empty_database : database :=
  {| intel := []; intel_seq := 0; intel_vec := [];
     trades := []; trades_seq := 0 |}.

(** *** Embedding *)

Definition _embed (this : t) (texts : list string) (inputType : input_type)
  : completion (list vector) * t :=
  match embeddingConfig this with
  | None => (Throw (Error "No embedding provider configured"), this)
  | Some cfg =>
      (respond cfg (requests this) texts inputType,
       with_requests (S (requests this)) this)
  end.

(** [_float32Buffer(arr)]; an [undefined] argument gives the empty
    buffer. Rounding to 32-bit floats is not represented. *)
Definition _float32Buffer (arr : option vector) : vector :=
  match arr with
  | Some v => v
  | None => []
  end.

(** *** Statements on [intel_vec] *)

Definition vec_has (id : Z) (tbl : list Vec.row) : bool :=
  existsb (fun r => (Vec.intel_id r =? id)%Z) tbl.

(** [INSERT [OR REPLACE] INTO intel_vec (intel_id, embedding) VALUES (?, ?)]:
    refused when the buffer has not the table's dimension, or (plain
    INSERT) when the key is taken. *)
Definition vec_insert (dims : nat) (or_replace : bool) (id : Z) (v : vector)
    (tbl : list Vec.row) : completion (list Vec.row) :=
  if negb (length v =? dims)%nat then
    Throw (SqliteError "Dimension mismatch for inserted vector")
  else if vec_has id tbl then
    if or_replace then
      Return (filter (fun r => negb (Vec.intel_id r =? id)%Z) tbl
              ++ [Vec.mk id v])
    else Throw (SqliteError "UNIQUE constraint failed on intel_vec primary key")
  else Return (tbl ++ [Vec.mk id v]).

(** [SELECT intel_id, distance FROM intel_vec
     WHERE embedding MATCH ? ORDER BY distance LIMIT ?]: the [LIMIT] is
     the [k] of the index's nearest-neighbour scan. The index refuses a
     query vector that has not the table's dimension, a negative [k] and
     a [k] above [Sql.knn_k_max] (the messages are abridged); rows at the
     same distance are answered latest-inserted first. *)
Definition vec_nearest (this : t) (q : vector) (k : Z)
  : completion (list (Z * Q)) :=
  if negb (length q =? dimensions this)%nat then
    Throw (SqliteError "Dimension mismatch for query vector")
  else if (k <? 0)%Z then
    Throw (SqliteError
             "k value in knn queries must be greater than or equal to 0.")
  else if (Sql.knn_k_max <? k)%Z then
    Throw (SqliteError "k value in knn query too large")
  else
    Return (firstn (Z.to_nat k)
              (Sql.order_by_asc_num snd
                 (rev (map (fun r => (Vec.intel_id r,
                                      vec_distance this q (Vec.embedding r)))
                           (intel_vec (db this)))))).

(** *** Intel operations *)

Module Data.
Record t : Type := mk {
  title : option string;
  body : option string;
  source : option string;
  tags : option (list string);
  confidence : option Q;
  actionable : bool;
  metadata : option string;
  expires_at : option string
}.
End Data.

Definition or_empty (s : option string) : string :=
  match truthy s with Some x => x | None => "" end.

(** The text [add] sends to the gateway. *)
Definition add_text (title : string) (body : option string) : string :=
  Text.trim (title ++ ". " ++ or_empty body)%string.

(** The row [add] inserts: the [VALUES] of its [INSERT INTO intel], with
    the column defaults. *)
Definition inserted_row (id : Z) (category title : string) (data : Data.t)
    (now : string) : Intel.row :=
  {| Intel.id := id;
     Intel.category := category;
     Intel.title := title;
     Intel.body := truthy (Data.body data);
     Intel.source := truthy (Data.source data);
     Intel.tags :=
       Text.stringify_array
         (match Data.tags data with Some l => l | None => [] end);
     Intel.confidence :=
       match Data.confidence data with Some c => c | None => (5 # 10)%Q end;
     Intel.actionable := if Data.actionable data then 1%Z else 0%Z;
     Intel.metadata :=
       match Data.metadata data with Some m => m | None => "{}" end;
     Intel.created_at := now;
     Intel.expires_at := truthy (Data.expires_at data) |}.

Definition add (this : t) (category : string) (data : Data.t) (now : string)
  : completion Z * t :=
  match truthy (Data.title data) with
  | None => (Throw (Error "title is required"), this)
  | Some title =>
      let d := db this in
      let id := Sql.next_rowid (map Intel.id (intel d)) (intel_seq d) in
      let r := inserted_row id category title data now in
      let this1 :=
        with_db {| intel := intel d ++ [r]; intel_seq := id;
                   intel_vec := intel_vec d;
                   trades := trades d; trades_seq := trades_seq d |} this in
      if is_configured this1 && _vecLoaded this1 then
        let text := add_text title (Data.body data) in
        match _embed this1 [text] Document with
        | (Return vectors, this2) =>
            match vec_insert (dimensions this2) false id
                    (_float32Buffer (hd_error vectors))
                    (intel_vec (db this2)) with
            | Return v' => (Return id, with_db (with_intel_vec v' (db this2)) this2)
            | Throw _ => (Return id, this2)
            end
        | (Throw _, this2) => (Return id, this2)
        end
      else (Return id, this1)
  end.

Module Options.
Record t : Type := mk {
  limit : option Z;
  since : option string;
  tag : option string
}.
End Options.

(** The pattern of the tag filter: the tag between double quotes,
    between two [%]. *)
Definition tag_pattern (tag : string) : string :=
  ("%" ++ String Text.dquote (tag ++ String Text.dquote "%"))%string.

Definition query (this : t) (category : string) (options : Options.t)
  : list Intel.row :=
  let limit := match Options.limit options with Some n => n | None => 20%Z end in
  let keep (r : Intel.row) : bool :=
    (match truthy (Some category) with
     | Some c => if String.eqb c "all" then true
                 else String.eqb (Intel.category r) c
     | None => true
     end)
    && (match truthy (Options.since options) with
        | Some since => String.leb since (Intel.created_at r)
        | None => true
        end)
    && (match truthy (Options.tag options) with
        | Some tag => Text.like (tag_pattern tag) (Intel.tags r)
        | None => true
        end) in
  Sql.limit limit
    (Sql.order_by_desc Intel.created_at (filter keep (intel (db this)))).

Definition search (this : t) (text : string) (limit : Z) : list Intel.row :=
  let pattern := ("%" ++ text ++ "%")%string in
  Sql.limit limit
    (Sql.order_by_desc Intel.created_at
       (filter (fun r => Text.like pattern (Intel.title r)
                         || Text.like_opt pattern (Intel.body r)
                         || Text.like_opt pattern (Intel.source r))
               (intel (db this)))).

(** [1 / (1 + distance)], for the non-negative distances the index
    reports. *)
Definition similarity_of (distance : Q) : Q := (1 / (1 + distance))%Q.

Definition semantic (this : t) (queryText : string) (limit : Z)
  : completion (list (Intel.row * Q)) * t :=
  if negb (is_configured this) then
    (Throw (Error "No embedding provider configured"), this)
  else if negb (_vecLoaded this) then
    (Throw (Error "sqlite-vec not loaded — semantic search unavailable"), this)
  else
    match _embed this [queryText] Query with
    | (Throw e, this1) => (Throw e, this1)
    | (Return vectors, this1) =>
        match vec_nearest this1 (_float32Buffer (hd_error vectors)) limit with
        | Throw e => (Throw e, this1)
        | Return [] => (Return [], this1)
        | Return vecResults =>
            let ids := map fst vecResults in
            let distMap := Map_of vecResults in
            let rows :=
              filter (fun r => Sql.id_in ids (Intel.id r)) (intel (db this1)) in
            let rows :=
              map (fun r =>
                     (r, match Map_get (Intel.id r) distMap with
                         | Some distance => similarity_of distance
                         | None => 0%Q (* not a key: NaN, never the case *)
                         end)) rows in
            (Return (sort (fun a b => (snd b - snd a)%Q) rows), this1)
        end
    end.

(** The keyword pool of [think]. The engine refuses a [LIKE] pattern
    longer than 50000 bytes; the definition is for patterns within that
    bound. *)
Definition think_keyword (this : t) (queryText : string) (limit : Z)
  : Map Q :=
  let pattern := ("%" ++ queryText ++ "%")%string in
  let kwRows :=
    Sql.limit (limit * 2)
      (filter (fun r => Text.like pattern (Intel.title r)
                        || Text.like_opt pattern (Intel.body r))
              (intel (db this))) in
  Map_of (map (fun r => (Intel.id r, (3 # 10)%Q)) kwRows).

(** The semantic pool of [think]: empty on any failure. *)
Definition think_semantic (this : t) (queryText : string) (limit : Z)
  : Map Q * t :=
  if is_configured this && _vecLoaded this then
    match _embed this [queryText] Query with
    | (Return vectors, this1) =>
        match vec_nearest this1 (_float32Buffer (hd_error vectors))
                (limit * 2) with
        | Return vecResults =>
            (Map_of (map (fun r => (fst r, similarity_of (snd r))) vecResults),
             this1)
        | Throw _ => ([], this1)
        end
    | (Throw _, this1) => ([], this1)
    end
  else ([], this).

(** The fused, sorted scores of [think]. *)
Definition think_scored (kwSet vecScores : Map Q) : list (Z * Q) :=
  let allIds := Set_of (Map_keys kwSet ++ Map_keys vecScores) in
  let scored :=
    map (fun id =>
           let kwScore := if Map_has id kwSet then (3 # 10)%Q else 0%Q in
           let vecScore :=
             match Map_get id vecScores with Some v => v | None => 0%Q end in
           (id, ((7 # 10) * vecScore + kwScore)%Q)) allIds in
  sort (fun a b => (snd b - snd a)%Q) scored.

Definition think (this : t) (queryText : string) (limit : Z)
  : completion (list (Intel.row * Q)) * t :=
  let kwSet := think_keyword this queryText limit in
  let (vecScores, this1) := think_semantic this queryText limit in
  let scored := think_scored kwSet vecScores in
  let topIds := map fst (slice0 limit scored) in
  let scoreMap := Map_of scored in
  match topIds with
  | [] => (Return [], this1)
  | _ =>
      let rows :=
        filter (fun r => Sql.id_in topIds (Intel.id r)) (intel (db this1)) in
      let rows :=
        map (fun r =>
               (r, match Map_get (Intel.id r) scoreMap with
                   | Some score => score
                   | None => 0%Q (* not a key: undefined, never the case *)
                   end)) rows in
      (Return (sort (fun a b => (snd b - snd a)%Q) rows), this1)
  end.

(** *** Reindex *)

Record reindex_result : Type := mk_reindex { embedded : nat; total : nat }.

Definition batchSize : nat := 128.

(** [LEFT JOIN intel_vec v ON i.id = v.intel_id WHERE v.intel_id IS NULL]. *)
Definition missing_embeddings (d : database) : list Intel.row :=
  filter (fun i => negb (vec_has (Intel.id i) (intel_vec d))) (intel d).

(** The text [reindex] sends to the gateway for a row. *)
Definition reindex_text (r : Intel.row) : string :=
  Text.trim (Intel.title r ++ ". " ++ or_empty (Intel.body r))%string.

(** The body of the transaction: [batch.forEach((entry, j) => insert.run(...))],
    stopping at the first statement that fails. *)
Fixpoint insert_batch (dims : nat) (batch : list Intel.row) (j : nat)
    (vectors : list vector) (tbl : list Vec.row) : completion (list Vec.row) :=
  match batch with
  | [] => Return tbl
  | entry :: rest =>
      match vec_insert dims true (Intel.id entry)
              (_float32Buffer (nth_error vectors j)) tbl with
      | Return tbl' => insert_batch dims rest (S j) vectors tbl'
      | Throw e => Throw e
      end
  end.

(** One turn of the loop: the batch's gateway request and its
    transaction. Gives the number of entries embedded by this batch; on a
    failure the table is as it was before the batch. *)
Definition reindex_batch (this : t) (batch : list Intel.row) : nat * t :=
  let texts := map reindex_text batch in
  match _embed this texts Document with
  | (Return vectors, this1) =>
      match insert_batch (dimensions this1) batch 0 vectors
              (intel_vec (db this1)) with
      | Return tbl' =>
          (length batch, with_db (with_intel_vec tbl' (db this1)) this1)
      | Throw _ => (0, this1)
      end
  | (Throw _, this1) => (0, this1)
  end.

(** [for (let i = 0; i < missing.length; i += batchSize)]. *)
Equations? reindex_loop (missing : list Intel.row) (i : nat) (this : t)
    (embedded : nat) : nat * t by wf (length missing - i) lt :=
  reindex_loop missing i this embedded with lt_dec i (length missing) => {
    | left _ =>
        reindex_loop missing (i + batchSize)
          (snd (reindex_batch this (slice i (i + batchSize) missing)))
          (embedded
           + fst (reindex_batch this (slice i (i + batchSize) missing)));
    | right _ => (embedded, this) }.
Proof. unfold batchSize. lia. Qed.

Definition reindex (this : t) : completion reindex_result * t :=
  if negb (is_configured this) then
    (Throw (Error "No embedding provider configured"), this)
  else if negb (_vecLoaded this) then
    (Throw (Error "sqlite-vec not loaded"), this)
  else
    let missing := missing_embeddings (db this) in
    match missing with
    | [] => (Return {| embedded := 0; total := 0 |}, this)
    | _ =>
        let (embedded, this1) := reindex_loop missing 0 this 0 in
        (Return {| embedded := embedded; total := length missing |}, this1)
    end.

(** [stats().vectored]. *)
Definition vectored (this : t) : nat :=
  if _vecLoaded this then length (intel_vec (db this)) else 0.

(** *** Trade operations *)

Module TradeData.
Record t : Type := mk {
  ticker : string;
  series_ticker : option string;
  direction : string;
  contracts : Z;
  entry_price : Q;
  thesis : option string;
  metadata : option string
}.
End TradeData.

Definition with_trades (l : list Trade.row) (seq : Z) (d : database)
  : database :=
  {| intel := intel d; intel_seq := intel_seq d; intel_vec := intel_vec d;
     trades := l; trades_seq := seq |}.

Definition addTrade (this : t) (data : TradeData.t) (now : string) : Z * t :=
  let d := db this in
  let id := Sql.next_rowid (map Trade.id (trades d)) (trades_seq d) in
  let r :=
    {| Trade.id := id;
       Trade.ticker := TradeData.ticker data;
       Trade.series_ticker := truthy (TradeData.series_ticker data);
       Trade.direction := TradeData.direction data;
       Trade.contracts := TradeData.contracts data;
       Trade.entry_price := TradeData.entry_price data;
       Trade.exit_price := None;
       Trade.thesis := truthy (TradeData.thesis data);
       Trade.outcome := None;
       Trade.pnl_cents := None;
       Trade.placed_at := now;
       Trade.resolved_at := None;
       Trade.metadata :=
         match TradeData.metadata data with Some m => m | None => "{}" end |} in
  (id, with_db (with_trades (trades d ++ [r]) id d) this).

(** [UPDATE trades SET outcome = ?, pnl_cents = ?,
     resolved_at = datetime('now') WHERE id = ?]. *)
Definition resolve_row (id : Z) (outcome : string) (pnl_cents : Z)
    (now : string) (r : Trade.row) : Trade.row :=
  if (Trade.id r =? id)%Z then
    {| Trade.id := Trade.id r;
       Trade.ticker := Trade.ticker r;
       Trade.series_ticker := Trade.series_ticker r;
       Trade.direction := Trade.direction r;
       Trade.contracts := Trade.contracts r;
       Trade.entry_price := Trade.entry_price r;
       Trade.exit_price := Trade.exit_price r;
       Trade.thesis := Trade.thesis r;
       Trade.outcome := Some outcome;
       Trade.pnl_cents := Some pnl_cents;
       Trade.placed_at := Trade.placed_at r;
       Trade.resolved_at := Some now;
       Trade.metadata := Trade.metadata r |}
  else r.

Definition resolveTrade (this : t) (id : Z) (outcome : string)
    (pnl_cents : Z) (now : string) : t :=
  let d := db this in
  with_db
    (with_trades (map (resolve_row id outcome pnl_cents now) (trades d))
       (trades_seq d) d)
    this.

(** [trades({limit, since, resolved})]. *)
Definition list_trades (this : t) (limit : Z) (since : option string)
    (resolved : option bool) : list Trade.row :=
  let keep (r : Trade.row) : bool :=
    (match truthy since with
     | Some s => String.leb s (Trade.placed_at r)
     | None => true
     end)
    && (match resolved, Trade.outcome r with
        | Some true, None => false
        | Some false, Some _ => false
        | _, _ => true
        end) in
  Sql.limit limit
    (Sql.order_by_desc Trade.placed_at (filter keep (trades (db this)))).

(** *** Statistics *)

(** A row of [SELECT category, COUNT( * ) as count, MAX(created_at) as
    latest FROM intel GROUP BY category]. *)
Module CategoryStat.
Record t : Type := mk { category : string; count : nat; latest : string }.
End CategoryStat.

Module TradeStats.
Record t : Type := mk {
  total : nat;
  resolved : option Z;
  total_pnl_cents : option Z
}.
End TradeStats.

Module Stats.
Record t : Type := mk {
  total : nat;
  vectored : nat;
  actionable : nat;
  vecEnabled : bool;
  categories : list CategoryStat.t;
  trades : TradeStats.t
}.
End Stats.

(** The group of a category. *)
Definition category_group (rows : list Intel.row) (c : string)
  : list Intel.row :=
  filter (fun r => String.eqb (Intel.category r) c) rows.

(** [GROUP BY category ORDER BY count DESC]: one row per category that
    occurs. *)
Definition stats_categories (rows : list Intel.row)
  : list CategoryStat.t :=
  Sql.order_by_count_desc CategoryStat.count
    (map (fun c =>
            let group := category_group rows c in
            CategoryStat.mk c (length group)
              (fold_right Sql.text_max "" (map Intel.created_at group)))
         (nodup string_dec (map Intel.category rows))).

Definition stats_trades (rows : list Trade.row) : TradeStats.t :=
  TradeStats.mk (length rows)
    (Sql.sum (map (fun r => match Trade.outcome r with
                            | Some _ => 1%Z
                            | None => 0%Z
                            end) rows))
    (Sql.sum (map (fun r => match Trade.pnl_cents r with
                            | Some p => p
                            | None => 0%Z
                            end) rows)).

Definition stats (this : t) : Stats.t :=
  let d := db this in
  Stats.mk (length (intel d))
    (vectored this)
    (length (filter (fun r => (Intel.actionable r =? 1)%Z) (intel d)))
    (_vecLoaded this)
    (stats_categories (intel d))
    (stats_trades (trades d)).

(** *** Export *)

Module ExportOptions.
Record t : Type := mk { since : option string; category : option string }.
End ExportOptions.

Definition export (this : t) (options : ExportOptions.t) : list Intel.row :=
  let keep (r : Intel.row) : bool :=
    (match truthy (ExportOptions.since options) with
     | Some since => String.leb since (Intel.created_at r)
     | None => true
     end)
    && (match truthy (ExportOptions.category options) with
        | Some c => String.eqb (Intel.category r) c
        | None => true
        end) in
  Sql.order_by_asc Intel.created_at (filter keep (intel (db this))).


(** *** Tags *)

Module TagCount.
Record t : Type := mk { tag : string; count : nat }.
End TagCount.

(** [rows.forEach(r => JSON.parse(r.tags)...)]: the tags of the rows, in
    order. *)
Fixpoint parsed_tags (rows : list Intel.row) : option (list string) :=
  match rows with
  | [] => Some []
  | r :: rows' =>
      match Json.parse_strings (Intel.tags r), parsed_tags rows' with
      | Some l, Some rest => Some (l ++ rest)
      | _, _ => None
      end
  end.

(** [tagCounts[t] = (tagCounts[t] || 0) + 1], for a [t] that
    [Object.prototype] does not define. *)
Definition count_tag (tagCounts : Obj.t) (t : string) : Obj.t :=
  Obj.set t
    (match Obj.get t tagCounts with Some n => n | None => 0 end + 1)
    tagCounts.

(** [tags(category)]. [None] stands for the two cases this model does
    not follow: a row whose [tags] text [Json.parse_strings] does not
    read, and a tag that is the name of a member of [Object.prototype],
    whose counter starts from the inherited member. *)
Definition tags (this : t) (category : option string)
  : option (list TagCount.t) :=
  let rows :=
    match truthy category with
    | Some c =>
        filter (fun r => String.eqb (Intel.category r) c) (intel (db this))
    | None => intel (db this)
    end in
  match parsed_tags rows with
  | None => None
  | Some all =>
      if existsb Obj.inherited all then None
      else
        let tagCounts := fold_left count_tag all [] in
        Some (map (fun e => TagCount.mk (fst e) (snd e))
                (sort (fun a b =>
                         (inject_Z (Z.of_nat (snd b))
                          - inject_Z (Z.of_nat (snd a)))%Q)
                   (Obj.entries tagCounts)))
  end.

End OpenIntel.

(* ===================================================================== *)
(** ** The embedding gateway: the body of [_embed]                         *)
(* ===================================================================== *)

Module Gateway.
Import Js.
Local Open Scope list_scope.

(** [this.embeddingConfig], when there is one. *)
Record config : Type := mk_config {
  provider : option string;
  apiKey : option string;
  apiUrl : option string;
  model : option string;
  embedFn :
    option (list string -> OpenIntel.input_type -> completion (list vector))
}.

(** The [POST] request [fetch] receives: its URL, its [Authorization]
    header and its body. *)
Record request : Type := mk_request {
  url : string;
  authorization : string;
  body : string
}.

(** The members of the response's JSON object that [parse] reads:
    [data.data.map(d => d.embedding)] and [data.embeddings]. *)
Record payload : Type := mk_payload {
  data : option (list vector);
  embeddings : option (list vector)
}.

(** A response, by the two ways its body is read. *)
Record response : Type := mk_response {
  status : Z;
  text : completion string;
  json : completion payload
}.

(** [res.ok]. *)
Definition ok (res : response) : bool :=
  (200 <=? status res)%Z && (status res <=? 299)%Z.

Definition TypeError (msg : string) : error :=
  {| name := "TypeError"; message := msg |}.

(** [`${value}`] for a string that may be [undefined]. *)
Definition interpolate (s : option string) : string :=
  match s with
  | Some x => x
  | None => "undefined"
  end.

Definition or_default (s : option string) (default : string) : string :=
  match truthy s with
  | Some x => x
  | None => default
  end.

Definition mode (inputType : OpenIntel.input_type) : string :=
  match inputType with
  | OpenIntel.Document => "document"
  | OpenIntel.Query => "query"
  end.

(** An entry of the [providers] table. *)
Record entry : Type := mk_entry {
  entry_url : string;
  entry_body : list string -> OpenIntel.input_type -> string;
  entry_parse : payload -> completion (option (list vector))
}.

(** [JSON.stringify] of an object whose members are given as texts. *)
Definition member (key value : string) : string :=
  (Text.json_quote key ++ ":" ++ value)%string.

Definition object (members : list string) : string :=
  ("{" ++ String.concat "," members ++ "}")%string.

Definition parse_data (p : payload) : completion (option (list vector)) :=
  match data p with
  | Some l => Return (Some l)
  | None =>
      Throw (TypeError "Cannot read properties of undefined (reading 'map')")
  end.

Definition voyage (cfg : config) : entry :=
  let m := or_default (model cfg) "voyage-3-lite" in
  {| entry_url := or_default (apiUrl cfg) "https://api.voyageai.com/v1/embeddings";
     entry_body := fun texts inputType =>
       object [member "model" (Text.json_quote m);
               member "input" (Text.stringify_array texts);
               member "input_type" (Text.json_quote (mode inputType))];
     entry_parse := parse_data |}.

Definition openai (cfg : config) : entry :=
  let m := or_default (model cfg) "text-embedding-3-small" in
  {| entry_url := or_default (apiUrl cfg) "https://api.openai.com/v1/embeddings";
     entry_body := fun texts _ =>
       object [member "model" (Text.json_quote m);
               member "input" (Text.stringify_array texts)];
     entry_parse := parse_data |}.

Definition cohere (cfg : config) : entry :=
  let m := or_default (model cfg) "embed-english-v3.0" in
  {| entry_url := or_default (apiUrl cfg) "https://api.cohere.ai/v1/embed";
     entry_body := fun texts inputType =>
       object [member "model" (Text.json_quote m);
               member "texts" (Text.stringify_array texts);
               member "input_type"
                 (Text.json_quote
                    (match inputType with
                     | OpenIntel.Query => "search_query"
                     | OpenIntel.Document => "search_document"
                     end))];
     entry_parse := fun p => Return (embeddings p) |}.

(** [providers[provider]]: one of the three entries, a member inherited
    from [Object.prototype], or [undefined]. *)
Inductive lookup : Type :=
| Entry (e : entry)
| Inherited
| Undefined.

Definition providers (cfg : config) : lookup :=
  let name := interpolate (provider cfg) in
  if String.eqb name "voyage" then Entry (voyage cfg)
  else if String.eqb name "openai" then Entry (openai cfg)
  else if String.eqb name "cohere" then Entry (cohere cfg)
  else if Obj.inherited name then Inherited
  else Undefined.

(** [provider === 'custom' && embedFn]. *)
Definition custom (cfg : config)
  : option (list string -> OpenIntel.input_type -> completion (list vector)) :=
  match provider cfg with
  | Some name => if String.eqb name "custom" then embedFn cfg else None
  | None => None
  end.

(** [_embed(texts, inputType)] on a handle with a configuration, given
    what [fetch] answers: the value or the exception, and the requests
    sent. A value of [None] is [undefined]. *)
Definition _embed (cfg : config) (fetch : request -> completion response)
    (texts : list string) (inputType : OpenIntel.input_type)
  : completion (option (list vector)) * list request :=
  match custom cfg with
  | Some f =>
      (match f texts inputType with
       | Return l => Return (Some l)
       | Throw e => Throw e
       end, [])
  | None =>
      match providers cfg with
      | Undefined =>
          (Throw (Error ("Unknown embedding provider: "
                         ++ interpolate (provider cfg)
                         ++ ". Use 'voyage', 'openai', 'cohere', or 'custom'.")),
           [])
      | Inherited => (Throw (TypeError "prov.body is not a function"), [])
      | Entry prov =>
          let req :=
            {| url := entry_url prov;
               authorization := "Bearer " ++ interpolate (apiKey cfg);
               body := entry_body prov texts inputType |} in
          (match fetch req with
           | Throw e => Throw e
           | Return res =>
               if negb (ok res) then
                 match text res with
                 | Return t =>
                     Throw (Error ("Embedding API "
                                   ++ NilZero.string_of_int
                                        (Z.to_int (status res))
                                   ++ ": " ++ t))
                 | Throw e => Throw e
                 end
               else
                 match json res with
                 | Return p => entry_parse prov p
                 | Throw e => Throw e
                 end
           end, [req])
      end
  end.

(** The provider as the handle sees it: each caller takes the result
    apart at once ([const [vector] = ...], [vectors[j]]), which throws a
    [TypeError] on [undefined]; the message is that of the destructuring
    in [semantic], the one caller that lets the exception through. *)
Definition respond_of (cfg : config)
    (fetch : nat -> request -> completion response)
  : OpenIntel.embedding :=
  {| OpenIntel.provider := interpolate (provider cfg);
     OpenIntel.respond := fun n texts inputType =>
       match fst (_embed cfg (fetch n) texts inputType) with
       | Return (Some l) => Return l
       | Return None =>
           Throw (TypeError
                    ("undefined is not iterable "
                     ++ "(cannot read property Symbol(Symbol.iterator))"))
       | Throw e => Throw e
       end |}.

End Gateway.

(* ===================================================================== *)
(** ** The command line                                                    *)
(* ===================================================================== *)

Module Cli.
Import Js OpenIntel.
Local Open Scope list_scope.

(** The value of a flag: [args[i + 1] || true]. *)
Inductive flag : Type :=
| Value (s : string)
| Present.

(** The [flags] object: its own properties. *)
Definition flags : Type := list (string * flag).

Fixpoint flag_get (key : string) (f : flags) : option flag :=
  match f with
  | [] => None
  | (k, v) :: f' => if String.eqb key k then Some v else flag_get key f'
  end.

Fixpoint flag_set (key : string) (v : flag) (f : flags) : flags :=
  match f with
  | [] => [(key, v)]
  | (k, v') :: f' =>
      if String.eqb key k then (k, v) :: f' else (k, v') :: flag_set key v f'
  end.

(** [flags[key] = value]; assigning a string or [true] to [__proto__]
    leaves the object as it is. *)
Definition assign (key : string) (v : flag) (f : flags) : flags :=
  if String.eqb key "__proto__" then f else flag_set key v f.

(** [s.slice(n)]. *)
Fixpoint drop (n : nat) (s : string) : string :=
  match n, s with
  | S n', String _ s' => drop n' s'
  | _, _ => s
  end.

Definition or_true (arg : string) : flag :=
  match arg with
  | EmptyString => Present
  | _ => Value arg
  end.

(** The loop of [parseFlags]: an argument that starts with [--] takes the
    next argument with it. *)
Fixpoint parseFlags_from (args : list string) (f : flags) : flags :=
  match args with
  | [] => f
  | a :: rest =>
      if Text.starts_with "--" a then
        match rest with
        | [] => assign (drop 2 a) Present f
        | v :: rest' => parseFlags_from rest' (assign (drop 2 a) (or_true v) f)
        end
      else parseFlags_from rest f
  end.

Definition parseFlags (args : list string) : flags := parseFlags_from args [].

(** The value of a digit in the given radix. *)
Definition digit_value (radix : Z) (c : ascii) : option Z :=
  let n := Z.of_nat (nat_of_ascii c) in
  let v :=
    if (48 <=? n)%Z && (n <=? 57)%Z then Some (n - 48)%Z
    else if (97 <=? n)%Z && (n <=? 122)%Z then Some (n - 87)%Z
    else if (65 <=? n)%Z && (n <=? 90)%Z then Some (n - 55)%Z
    else None in
  match v with
  | Some d => if (d <? radix)%Z then Some d else None
  | None => None
  end.

(** The digits up to the first character that is not one; [None] when
    there is no digit at all. *)
Fixpoint digits (radix : Z) (s : string) (acc : Z) (seen : bool)
  : option Z :=
  match s with
  | EmptyString => if seen then Some acc else None
  | String c s' =>
      match digit_value radix c with
      | Some d => digits radix s' (acc * radix + d)%Z true
      | None => if seen then Some acc else None
      end
  end.

(** The digits of [parseInt] after the sign: [0x] or [0X] announces
    hexadecimal digits. *)
Definition unsigned (s : string) : option Z :=
  if Text.starts_with "0x" s || Text.starts_with "0X" s
  then digits 16 (drop 2 s) 0%Z false
  else digits 10 s 0%Z false.

(** [parseInt(s)] without a radix: leading white space, a sign, then
    the digits. [None] is [NaN]. The result is the integer the digits
    denote, which is what JavaScript gives up to 2^53 in magnitude;
    beyond, JavaScript gives the nearest double, which this definition
    does not represent. *)
Definition parseInt (s : string) : option Z :=
  match Text.trim_start s with
  | EmptyString => None
  | String c s' =>
      if Ascii.eqb c "-" then option_map Z.opp (unsigned s')
      else if Ascii.eqb c "+" then unsigned s'
      else unsigned (String c s')
  end.

(** The text [parseInt] sees for a flag: [String(value)]. *)
Definition to_text (v : option flag) : string :=
  match v with
  | Some (Value s) => s
  | Some Present => "true"
  | None => "undefined"
  end.

(** [parseInt(value) || fallback]. *)
Definition int_or (v : option flag) (fallback : Z) : Z :=
  match parseInt (to_text v) with
  | Some n => if (n =? 0)%Z then fallback else n
  | None => fallback
  end.

(** What a command does before it exits: print its results, or print
    its usage line and exit with status 1. *)
Inductive outcome (A : Type) : Type :=
| Printed (results : A)
| Usage (line : string).
Arguments Printed {A} results.
Arguments Usage {A} line.

(** [case 'search']; [args] is [process.argv.slice(2)]. *)
Definition search_command (this : t) (args : list string)
  : outcome (list Intel.row) :=
  let f := parseFlags (skipn 2 args) in
  match truthy (nth_error args 1) with
  | None => Usage "Usage: openintel search <text>"
  | Some text =>
      Printed (search this text (int_or (flag_get "limit" f) 10))
  end.

End Cli.

(* ===================================================================== *)
(** ** Sessions: the calls a caller can issue on a handle                  *)
(* ===================================================================== *)

Module Session.
Import OpenIntel.

Inductive call : Type :=
| Call_add (category : string) (data : Data.t) (now : string)
| Call_query (category : string) (options : Options.t)
| Call_search (text : string) (limit : Z)
| Call_semantic (queryText : string) (limit : Z)
| Call_think (queryText : string) (limit : Z)
| Call_reindex
| Call_addTrade (data : TradeData.t) (now : string)
| Call_resolveTrade (id : Z) (outcome : string) (pnl_cents : Z) (now : string)
| Call_trades (limit : Z) (since : option string) (resolved : option bool).

(** The handle after a call. *)
Definition run (c : call) (this : t) : t :=
  match c with
  | Call_add category data now => snd (add this category data now)
  | Call_query _ _ => this
  | Call_search _ _ => this
  | Call_semantic queryText limit => snd (semantic this queryText limit)
  | Call_think queryText limit => snd (think this queryText limit)
  | Call_reindex => snd (reindex this)
  | Call_addTrade data now => snd (addTrade this data now)
  | Call_resolveTrade id outcome pnl_cents now =>
      resolveTrade this id outcome pnl_cents now
  | Call_trades _ _ _ => this
  end.

(** Whether the call is a [resolveTrade] on trade [id]. *)
Definition resolves (c : call) (id : Z) : bool :=
  match c with
  | Call_resolveTrade id' _ _ _ => (id' =? id)%Z
  | _ => false
  end.

(** The row of trade [id], if any. *)
Definition trade_by_id (this : t) (id : Z) : option Trade.row :=
  find (fun r => (Trade.id r =? id)%Z) (trades (db this)).

End Session.

(* ===================================================================== *)
(** ** Well-formed tables                                                  *)
(* ===================================================================== *)

Module Invariant.
Local Open Scope list_scope.

Fixpoint distinct (l : list Z) : bool :=
  match l with
  | [] => true
  | x :: l' => negb (existsb (Z.eqb x) l') && distinct l'
  end.

(** The constraints of the schema: [id] is the primary key of [intel],
    [intel_id] the primary key of [intel_vec], and a vector belongs to a
    stored entry. *)
Definition store_ok (d : database) : bool :=
  distinct (map Intel.id (intel d))
  && distinct (map Vec.intel_id (intel_vec d))
  && forallb (fun v => Sql.id_in (map Intel.id (intel d)) (Vec.intel_id v))
       (intel_vec d).

(** The same constraints as a proposition. *)
Definition well_formed (d : database) : Prop :=
  NoDup (map Intel.id (intel d))
  /\ NoDup (map Vec.intel_id (intel_vec d))
  /\ (forall v, In v (intel_vec d) ->
                In (Vec.intel_id v) (map Intel.id (intel d))).

(** The ids [1 .. n]. *)
Definition upto (n : nat) : list Z := map Z.of_nat (seq 1 n).

(** Rowids are handed out in sequence: entries are numbered [1 .. n] in
    insertion order and the sequence counter is [n]. *)
Definition numbered (d : database) : Prop :=
  map Intel.id (intel d) = upto (length (intel d))
  /\ intel_seq d = Z.of_nat (length (intel d))
  /\ map Trade.id (trades d) = upto (length (trades d))
  /\ trades_seq d = Z.of_nat (length (trades d)).

End Invariant.

(* ===================================================================== *)
(** ** Expiry dates                                                        *)
(* ===================================================================== *)

(** The same tables with other values in the [expires_at] column. *)
Module Expiry.
Import OpenIntel.

Definition with_expiry (f : Intel.row -> option string) (r : Intel.row)
  : Intel.row :=
  {| Intel.id := Intel.id r;
     Intel.category := Intel.category r;
     Intel.title := Intel.title r;
     Intel.body := Intel.body r;
     Intel.source := Intel.source r;
     Intel.tags := Intel.tags r;
     Intel.confidence := Intel.confidence r;
     Intel.actionable := Intel.actionable r;
     Intel.metadata := Intel.metadata r;
     Intel.created_at := Intel.created_at r;
     Intel.expires_at := f r |}.

Definition reschedule (f : Intel.row -> option string) (this : t) : t :=
  with_db
    {| intel := map (with_expiry f) (intel (db this));
       intel_seq := intel_seq (db this);
       intel_vec := intel_vec (db this);
       trades := trades (db this);
       trades_seq := trades_seq (db this) |}
    this.

End Expiry.

(* ===================================================================== *)
(** ** The specification's vocabulary                                      *)
(* ===================================================================== *)

Module Spec.
Local Open Scope list_scope.

(** "title OR body OR source contains text (case-sensitive substring)". *)
Definition mentions (text : string) (r : Intel.row) : bool :=
  Text.contains text (Intel.title r)
  || Text.contains_opt text (Intel.body r)
  || Text.contains_opt text (Intel.source r).

(** The same, up to ASCII letter case. *)
Definition mentions_nocase (text : string) (r : Intel.row) : bool :=
  Text.contains_nocase text (Intel.title r)
  || Text.contains_nocase_opt text (Intel.body r)
  || Text.contains_nocase_opt text (Intel.source r).

(** "substring match on title/body". *)
Definition mentions_title_body (text : string) (r : Intel.row) : bool :=
  Text.contains text (Intel.title r)
  || Text.contains_opt text (Intel.body r).

(** Two characters that [LIKE] does not tell apart: the same character,
    or an upper-case ASCII letter (codes 65 to 90) and its lower-case
    form, 32 codes above. *)
Definition same_letter (a c : ascii) : Prop :=
  a = c
  \/ ((65 <= nat_of_ascii a <= 90)%nat
      /\ nat_of_ascii c = (nat_of_ascii a + 32)%nat)
  \/ ((65 <= nat_of_ascii c <= 90)%nat
      /\ nat_of_ascii a = (nat_of_ascii c + 32)%nat).

(** [LIKE] as the engine documents it: a percent sign in the pattern
    stands for any run of zero or more characters of the text, an
    underscore for exactly one character, and any other character for
    itself or, for an ASCII letter, its form in the other case. *)
Inductive Matches : string -> string -> Prop :=
| Matches_end : Matches "" ""
| Matches_percent pat run rest :
    Matches pat rest -> Matches (String "%" pat) (run ++ rest)
| Matches_underscore pat c rest :
    Matches pat rest -> Matches (String "_" pat) (String c rest)
| Matches_letter a pat c rest :
    a <> "%"%char -> a <> "_"%char -> same_letter a c ->
    Matches pat rest -> Matches (String a pat) (String c rest).

(** [LIKE] on a nullable column: NULL matches nothing. *)
Definition Matches_opt (pat : string) (col : option string) : Prop :=
  exists s, col = Some s /\ Matches pat s.

(** A tag as an element of the serialized list: between double quotes. *)
Definition quoted (tag : string) : string :=
  String Text.dquote (tag ++ String Text.dquote "").

(** "nearest ... by distance": distances never decrease along the
    index's answer. *)
Definition nearest_first (a b : Z * Q) : Prop := (snd a <= snd b)%Q.

(** "newest first": no entry comes before one with a later
    [created_at]. *)
Definition newest_first (a b : Intel.row) : Prop :=
  String.leb (Intel.created_at b) (Intel.created_at a) = true.

(** "semanticScore": the score of the id in the semantic pool, 0 when it
    is not there. *)
Definition semantic_score (sem : Js.Map Q) (id : Z) : Q :=
  match Js.Map_get id sem with Some v => v | None => 0%Q end.

(** "keywordWeight is 0.3 if present in the keyword pool, else 0". *)
Definition keyword_weight (kw : Js.Map Q) (id : Z) : Q :=
  if Js.Map_has id kw then (3 # 10)%Q else 0%Q.

(** "0.7 x semanticScore + keywordWeight". *)
Definition fused (kw sem : Js.Map Q) (id : Z) : Q :=
  ((7 # 10) * semantic_score sem id + keyword_weight kw id)%Q.

(** "sorted descending by similarity", "by descending final score": what
    the comparator [(a, b) => b.score - a.score] achieves. *)
Definition by_score_desc {A} (a b : A * Q) : Prop := (snd b <= snd a)%Q.

(** The rows of the vector index, each with its distance to the query
    vector. *)
Definition scanned (this : OpenIntel.t) (q : vector) : list (Z * Q) :=
  map (fun r => (Vec.intel_id r,
                 OpenIntel.vec_distance this q (Vec.embedding r)))
    (intel_vec (OpenIntel.db this)).

(** The rows behind the keyword pool of [think]. *)
Definition keyword_rows (this : OpenIntel.t) (queryText : string)
    (limit : Z) : list Intel.row :=
  Sql.limit (limit * 2)
    (filter (fun r =>
               Text.like ("%" ++ queryText ++ "%")%string (Intel.title r)
               || Text.like_opt ("%" ++ queryText ++ "%")%string
                    (Intel.body r))
            (intel (OpenIntel.db this))).

(** "the union of both pools". *)
Definition pool_ids (kw sem : Js.Map Q) : list Z :=
  Js.Set_of (Js.Map_keys kw ++ Js.Map_keys sem).

(** The id of a returned entry. *)
Definition row_id (row : Intel.row * Q) : Z := Intel.id (fst row).

(** "fetch entries, attach the score, re-sort the fetched batch once more
    by score": the tail of [think], for given scores and top ids. *)
Definition fetch_scored (entries : list Intel.row) (scored : list (Z * Q))
    (topIds : list Z) : list (Intel.row * Q) :=
  Js.sort (fun a b => (snd b - snd a)%Q)
    (map (fun r =>
            (r, match Js.Map_get (Intel.id r) (Js.Map_of scored) with
                | Some score => score
                | None => 0%Q
                end))
         (filter (fun r => Sql.id_in topIds (Intel.id r)) entries)).

(** "fixed-size batches": consecutive chunks of [n] rows, the last one
    possibly shorter. [fuel] bounds the number of chunks. *)
Fixpoint chunks_fuel {A} (fuel n : nat) (l : list A) : list (list A) :=
  match fuel, l with
  | O, _ => []
  | _, [] => []
  | S fuel', _ => firstn n l :: chunks_fuel fuel' n (skipn n l)
  end.

Definition chunks {A} (n : nat) (l : list A) : list (list A) :=
  chunks_fuel (length l) n l.

(** "call the gateway once per batch ... processing continues with the
    next batch": the batches are handled one after the other, each by
    [reindex_batch], and the embedded counts add up. *)
Definition run_batches_from (embedded : nat) (this : OpenIntel.t)
    (batches : list (list Intel.row)) : nat * OpenIntel.t :=
  fold_left
    (fun acc batch =>
       (fst acc + fst (OpenIntel.reindex_batch (snd acc) batch),
        snd (OpenIntel.reindex_batch (snd acc) batch)))
    batches (embedded, this).

Definition run_batches (this : OpenIntel.t)
    (batches : list (list Intel.row)) : nat * OpenIntel.t :=
  run_batches_from 0 this batches.

End Spec.

(* ===================================================================== *)
(** ** Concrete handles used by the examples                               *)
(* ===================================================================== *)

Module Examples.
Import OpenIntel Js.
Local Open Scope list_scope.

(** A custom provider that embeds every text as the same unit vector. *)
Definition unit_provider : embedding :=
  {| provider := "custom";
     respond := fun _ texts _ => Return (map (fun _ => [1%Q; 0%Q]) texts) |}.

(** A custom provider that embeds a text as (its length, 1). *)
Definition length_provider : embedding :=
  {| provider := "custom";
     respond := fun _ texts _ =>
       Return (map (fun text => [inject_Z (Z.of_nat (String.length text));
                                 1%Q]) texts) |}.

(** A remote provider that is down. *)
Definition down_provider : embedding :=
  {| provider := "voyage";
     respond := fun _ _ _ => Throw (Error "Embedding API 503: unavailable") |}.

Definition squared_distance (a b : vector) : Q :=
  fold_right Qplus 0%Q
    (map (fun p => ((fst p - snd p) * (fst p - snd p))%Q) (combine a b)).

Definition fresh (cfg : option embedding) (vec : bool) : t :=
  {| embeddingConfig := cfg; dimensions := 2; _vecLoaded := vec;
     vec_distance := squared_distance; db := empty_database;
     requests := 0 |}.

Definition signal : Data.t :=
  Data.mk (Some "Test signal") (Some "AAPL looking strong") None
    (Some ["AAPL"; "earnings"]) None false None None.

Definition digest : Data.t :=
  Data.mk (Some "Morning Brew digest") (Some "Fed rate cut expected") None
    (Some ["fed"; "macro"]) None false None None.

Definition two_entries (cfg : option embedding) (vec : bool) : t :=
  snd (add (snd (add (fresh cfg vec) "market" signal "2024-03-01 09:00:00"))
         "newsletter" digest "2024-03-01 09:00:05").

(** No provider, no vector extension: keyword search only. *)
Definition keyword_store : t := two_entries None false.

(** Provider and extension present; both entries carry a vector. *)
Definition vector_store : t := two_entries (Some length_provider) true.

(** Extension present but the provider is down: no entry has a vector. *)
Definition unembedded_store : t := two_entries (Some down_provider) true.

(** A remote provider that fails its first two requests and answers
    from the third on. *)
Definition recovering_provider : embedding :=
  {| provider := "openai";
     respond := fun n texts _ =>
       if (n <? 2)%nat then Throw (Error "Embedding API 429: rate limited")
       else Return (map (fun _ => [0%Q; 1%Q]) texts) |}.

(** Both entries were added while the provider was failing. *)
Definition recovering_store : t :=
  two_entries (Some recovering_provider) true.

(** Provider configured, but the vector extension could not be loaded. *)
Definition no_extension_store : t := two_entries (Some unit_provider) false.

Definition long_aapl : TradeData.t :=
  TradeData.mk "AAPL" None "long" 100 (371 # 2) (Some "Earnings momentum") None.

Definition one_trade : t :=
  snd (addTrade keyword_store long_aapl "2024-03-01 10:00:00").

End Examples.

(** Further handles, for the properties beyond the specification. *)
Module MoreExamples.
Import OpenIntel Js.
Local Open Scope list_scope.

(** The keyword-only store with a third entry whose title has a [%]. *)
Definition cpi_store : t :=
  snd (add Examples.keyword_store "macro"
         (Data.mk (Some "CPI up 3% in May") None None None None false
            None None)
         "2024-03-01 09:30:00").

End MoreExamples.

(** Configurations for the gateway. *)
Module GatewayExamples.
Import Js.

(** [provider: 'custom'] without an [embedFn]. *)
Definition custom_without_function : Gateway.config :=
  Gateway.mk_config (Some "custom") None None None None.

Definition voyage_with_key : Gateway.config :=
  Gateway.mk_config (Some "voyage") (Some "secret") None None None.

(** A service that answers every request with [503]. *)
Definition unavailable (req : Gateway.request)
  : completion Gateway.response :=
  Return (Gateway.mk_response 503 (Return "Service Unavailable")
            (Throw (Error "Unexpected token S in JSON at position 0"))).

End GatewayExamples.

(* ===================================================================== *)
(** ** Properties of the text layer                                        *)
(* ===================================================================== *)

Module TextFacts.
Import Text.

Lemma like_percent_unfold pat s :
  like (String "%" pat) s =
  like pat s || match s with
                | EmptyString => false
                | String _ s' => like (String "%" pat) s'
                end.
Proof. destruct s; reflexivity. Qed.

Lemma like_percent_all s : like "%" s = true.
Proof.
  induction s as [|c s IH]; [reflexivity|].
  rewrite like_percent_unfold, IH. apply orb_true_r.
Qed.

Lemma like_literal_prefix t s :
  has_wildcard t = false ->
  like (t ++ "%") s = starts_with (fold_case t) (fold_case s).
Proof.
  revert s. induction t as [|a t IH]; intros s Hw.
  - simpl. apply like_percent_all.
  - simpl in Hw. apply orb_false_iff in Hw as [Ha Ht].
    unfold is_wildcard in Ha. apply orb_false_iff in Ha as [Ha1 Ha2].
    change (String a t ++ "%") with (String a (t ++ "%")).
    cbn [like]. rewrite Ha1, Ha2.
    destruct s as [|c s]; [reflexivity|].
    simpl. rewrite IH by assumption. reflexivity.
Qed.

(** Without wildcards in the text, [LIKE '%text%'] is containment up to
    ASCII case. *)
Lemma like_contains_nocase t s :
  has_wildcard t = false ->
  like ("%" ++ t ++ "%") s = contains_nocase t s.
Proof.
  intros Hw. unfold contains_nocase.
  change ("%" ++ t ++ "%") with (String "%" (t ++ "%")).
  induction s as [|c s IH].
  - rewrite like_percent_unfold, like_literal_prefix by assumption.
    simpl. destruct (starts_with (fold_case t) ""); reflexivity.
  - rewrite like_percent_unfold, like_literal_prefix by assumption.
    rewrite IH. reflexivity.
Qed.



(** The binary collation of text columns is transitive. *)
Lemma string_leb_trans (a b c : string) :
  String.leb a b = true -> String.leb b c = true -> String.leb a c = true.
Proof.
  unfold String.leb. revert b c.
  induction a as [|x a IH]; intros [|y b] [|z c]; simpl;
    try reflexivity; try discriminate.
  unfold Ascii.compare.
  destruct (N.compare_spec (N_of_ascii x) (N_of_ascii y)) as [Exy|Exy|Exy];
    destruct (N.compare_spec (N_of_ascii y) (N_of_ascii z)) as [Eyz|Eyz|Eyz];
    destruct (N.compare_spec (N_of_ascii x) (N_of_ascii z)) as [Exz|Exz|Exz];
    try reflexivity; try discriminate; try lia.
  apply IH.
Qed.

End TextFacts.

(* ===================================================================== *)
(** ** Properties of the runtime and storage layers                       *)
(* ===================================================================== *)

Module RuntimeFacts.
Import Js Spec.
Local Open Scope list_scope.

Section StableSortFacts.
Context {A : Type} (keep : A -> A -> bool).
Let R (a b : A) : Prop := keep a b = true.

Lemma insert_perm x l : Permutation (insert keep x l) (x :: l).
Proof.
  induction l as [|y l IH]; simpl; [reflexivity|].
  destruct (keep x y); [reflexivity|].
  rewrite IH. apply perm_swap.
Qed.

Lemma stable_sort_perm l : Permutation (stable_sort keep l) l.
Proof.
  induction l as [|x l IH]; simpl; [reflexivity|].
  rewrite insert_perm, IH. reflexivity.
Qed.

Lemma stable_sort_In x l : In x (stable_sort keep l) <-> In x l.
Proof.
  split; apply Permutation_in;
    [apply stable_sort_perm | symmetry; apply stable_sort_perm].
Qed.

Lemma stable_sort_length l : length (stable_sort keep l) = length l.
Proof. apply Permutation_length, stable_sort_perm. Qed.

Hypothesis keep_total : forall a b, keep a b = false -> keep b a = true.

Lemma insert_sorted x l : Sorted R l -> Sorted R (insert keep x l).
Proof.
  induction l as [|y l IH]; intros Hs; simpl.
  - repeat constructor.
  - destruct (keep x y) eqn:E.
    + constructor; [assumption|]. constructor. exact E.
    + inversion Hs as [|? ? Hs' Hd]; subst.
      constructor; [apply IH; assumption|].
      destruct l as [|z l]; simpl.
      * constructor. apply keep_total, E.
      * destruct (keep x z); constructor.
        -- apply keep_total, E.
        -- inversion Hd; assumption.
Qed.

Lemma stable_sort_sorted l : Sorted R (stable_sort keep l).
Proof.
  induction l as [|x l IH]; simpl; [constructor|].
  apply insert_sorted, IH.
Qed.
End StableSortFacts.

Lemma Sorted_impl {A} (R1 R2 : A -> A -> Prop) l :
  (forall a b, R1 a b -> R2 a b) -> Sorted R1 l -> Sorted R2 l.
Proof.
  intros Himp. induction 1 as [|x l Hs IH Hd]; constructor; [exact IH|].
  destruct Hd; constructor. apply Himp. assumption.
Qed.

Lemma sort_desc_perm {A} (l : list (A * Q)) :
  Permutation (sort (fun a b => (snd b - snd a)%Q) l) l.
Proof. apply stable_sort_perm. Qed.

Lemma sort_desc_sorted {A} (l : list (A * Q)) :
  StronglySorted by_score_desc (sort (fun a b => (snd b - snd a)%Q) l).
Proof.
  apply Sorted_StronglySorted.
  - intros a b c Hab Hbc. unfold by_score_desc in *.
    eapply Qle_trans; eassumption.
  - unfold sort.
    eapply Sorted_impl;
      [| apply stable_sort_sorted with
           (keep := fun a b : A * Q => Qle_bool (snd b - snd a) 0)].
    + intros a b H. apply Qle_bool_iff in H. unfold by_score_desc. lra.
    + intros a b H.
      apply Qle_bool_iff. destruct (Qle_bool (snd b - snd a) 0) eqn:E;
        [discriminate|].
      assert (~ (snd b - snd a <= 0)%Q) as Hn
        by (intro Hc; apply Qle_bool_iff in Hc; congruence).
      lra.
Qed.

(** **** [Map] and [Set] *)

Lemma Map_get_set {V} k k' (v : V) m :
  Map_get k (Map_set k' v m)
  = if (k =? k')%Z then Some v else Map_get k m.
Proof.
  induction m as [|[k0 v0] m IH]; simpl.
  - reflexivity.
  - destruct (k' =? k0)%Z eqn:E0; simpl.
    + apply Z.eqb_eq in E0. subst k0.
      destruct (k =? k')%Z; reflexivity.
    + rewrite IH. destruct (k =? k0)%Z eqn:E1; [|reflexivity].
      apply Z.eqb_eq in E1. subst k0.
      destruct (k =? k')%Z eqn:E2; [|reflexivity].
      apply Z.eqb_eq in E2. subst k'. rewrite Z.eqb_refl in E0. discriminate.
Qed.

Lemma Map_has_set {V} k k' (v : V) m :
  Map_has k (Map_set k' v m) = (k =? k')%Z || Map_has k m.
Proof.
  unfold Map_has. rewrite Map_get_set. destruct (k =? k')%Z; reflexivity.
Qed.

Lemma Map_keys_set {V} k (v : V) m :
  Map_keys (Map_set k v m)
  = if Map_has k m then Map_keys m else Map_keys m ++ [k].
Proof.
  unfold Map_has, Map_keys. induction m as [|[k0 v0] m IH]; simpl.
  - reflexivity.
  - destruct (k =? k0)%Z eqn:E; simpl.
    + apply Z.eqb_eq in E. subst. reflexivity.
    + rewrite IH. destruct (Map_get k m); reflexivity.
Qed.

Lemma Map_has_keys {V} k (m : Map V) :
  Map_has k m = true <-> In k (Map_keys m).
Proof.
  unfold Map_has, Map_keys. induction m as [|[k0 v0] m IH]; simpl.
  - split; [discriminate | intros []].
  - destruct (k =? k0)%Z eqn:E.
    + apply Z.eqb_eq in E. subst. split; auto.
    + rewrite IH. apply Z.eqb_neq in E. split; [auto|].
      intros [H|H]; [congruence | exact H].
Qed.

Lemma Map_keys_nodup_set {V} k (v : V) m :
  NoDup (Map_keys m) -> NoDup (Map_keys (Map_set k v m)).
Proof.
  intros Hnd. rewrite Map_keys_set.
  destruct (Map_has k m) eqn:E; [exact Hnd|].
  apply NoDup_app; [exact Hnd | repeat constructor; intros [] |].
  intros x Hx [<-|[]]. apply Map_has_keys in Hx. congruence.
Qed.

Section MapOf.
Context {V : Type}.

Let step (m : Map V) (kv : Z * V) : Map V := Map_set (fst kv) (snd kv) m.

Lemma Map_fold_get k (l : list (Z * V)) m d :
  Map_get k (fold_left step l m) = Some d ->
  In (k, d) l \/ Map_get k m = Some d.
Proof.
  revert m. induction l as [|[k0 v0] l IH]; intros m H; simpl in *.
  - right. exact H.
  - apply IH in H as [H|H]; [left; right; exact H|].
    unfold step in H. cbn [fst snd] in H. rewrite Map_get_set in H.
    destruct (k =? k0)%Z eqn:E; [|right; exact H].
    apply Z.eqb_eq in E. subst. injection H as <-. left. left. reflexivity.
Qed.

Lemma Map_fold_has k (l : list (Z * V)) m :
  Map_has k (fold_left step l m) = true
  <-> In k (map fst l) \/ Map_has k m = true.
Proof.
  revert m. induction l as [|[k0 v0] l IH]; intros m; simpl.
  - split; [auto | intros [[]|H]; exact H].
  - rewrite IH. unfold step. cbn [fst snd].
    rewrite Map_has_set, orb_true_iff, Z.eqb_eq.
    split.
    + intros [H|[H|H]]; auto.
    + intros [[H|H]|H]; auto.
Qed.

Lemma Map_fold_nodup (l : list (Z * V)) m :
  NoDup (Map_keys m) -> NoDup (Map_keys (fold_left step l m)).
Proof.
  revert m. induction l as [|[k0 v0] l IH]; intros m H; simpl.
  - exact H.
  - apply IH. apply Map_keys_nodup_set, H.
Qed.

Lemma Map_fold_length (l : list (Z * V)) m :
  length (fold_left step l m) <= length m + length l.
Proof.
  revert m. induction l as [|[k0 v0] l IH]; intros m; simpl.
  - lia.
  - specialize (IH (step m (k0, v0))).
    assert (length (step m (k0, v0)) <= S (length m)).
    { unfold step. cbn [fst snd]. clear.
      induction m as [|[k1 v1] m IHm]; simpl; [lia|].
      destruct (k0 =? k1)%Z; simpl; lia. }
    lia.
Qed.
End MapOf.

Lemma Map_of_get {V} k (l : list (Z * V)) d :
  Map_get k (Map_of l) = Some d -> In (k, d) l.
Proof.
  intros H. apply Map_fold_get in H as [H|H]; [exact H | discriminate].
Qed.

Lemma Map_of_has {V} k (l : list (Z * V)) :
  Map_has k (Map_of l) = true <-> In k (map fst l).
Proof.
  unfold Map_of. rewrite Map_fold_has. split; [|auto].
  intros [H|H]; [exact H | discriminate].
Qed.

Lemma Map_of_keys {V} k (l : list (Z * V)) :
  In k (Map_keys (Map_of l)) <-> In k (map fst l).
Proof. rewrite <- Map_has_keys. apply Map_of_has. Qed.

Lemma Map_of_nodup {V} (l : list (Z * V)) : NoDup (Map_keys (Map_of l)).
Proof. apply Map_fold_nodup. constructor. Qed.

Lemma Map_of_length {V} (l : list (Z * V)) :
  length (Map_of l) <= length l.
Proof. apply (Map_fold_length l []). Qed.

Lemma Map_of_defined {V} k (l : list (Z * V)) :
  In k (map fst l) -> exists d, Map_get k (Map_of l) = Some d /\ In (k, d) l.
Proof.
  intros H. apply Map_of_has in H. unfold Map_has in H.
  destruct (Map_get k (Map_of l)) as [d|] eqn:E; [|discriminate].
  exists d. split; [reflexivity | apply Map_of_get, E].
Qed.

Lemma Set_fold_In k l s :
  In k (fold_left (fun s k => Set_add k s) l s) <-> In k l \/ In k s.
Proof.
  revert s. induction l as [|x l IH]; intros s; simpl.
  - split; [auto | intros [[]|H]; exact H].
  - rewrite IH. unfold Set_add.
    destruct (existsb (Z.eqb x) s) eqn:E.
    + apply existsb_exists in E as (y & Hy & Exy).
      apply Z.eqb_eq in Exy. subst y.
      split; [intros [H|H]; auto | intros [[<-|H]|H]; auto].
    + rewrite in_app_iff. simpl.
      split; [intros [H|[H|[<-|[]]]]; auto | intros [[<-|H]|H]; auto].
Qed.

Lemma Set_fold_nodup l s :
  NoDup s -> NoDup (fold_left (fun s k => Set_add k s) l s).
Proof.
  revert s. induction l as [|x l IH]; intros s H; simpl; [exact H|].
  apply IH. unfold Set_add.
  destruct (existsb (Z.eqb x) s) eqn:E; [exact H|].
  apply NoDup_app; [exact H | repeat constructor; intros [] |].
  intros y Hy [<-|[]].
  assert (existsb (Z.eqb x) s = true)
    by (apply existsb_exists; exists x; split;
        [exact Hy | apply Z.eqb_refl]).
  congruence.
Qed.

Lemma Set_of_In k l : In k (Set_of l) <-> In k l.
Proof.
  unfold Set_of. rewrite Set_fold_In. split; [intros [H|[]]; exact H | auto].
Qed.

Lemma Set_of_nodup l : NoDup (Set_of l).
Proof. apply Set_fold_nodup. constructor. Qed.

End RuntimeFacts.

(* ===================================================================== *)
(** ** Keyword search                                                      *)
(* ===================================================================== *)

Module SearchFacts.
Import OpenIntel Js Spec.
Local Open Scope list_scope.

Lemma limit_nonneg {A} (n : Z) (l : list A) :
  (0 <= n)%Z -> Sql.limit n l = firstn (Z.to_nat n) l.
Proof.
  intros H. unfold Sql.limit.
  destruct (n <? 0)%Z eqn:E; [apply Z.ltb_lt in E; lia | reflexivity].
Qed.

Lemma like_opt_contains_nocase text col :
  Text.has_wildcard text = false ->
  Text.like_opt ("%" ++ text ++ "%")%string col
  = Text.contains_nocase_opt text col.
Proof.
  intros H. destruct col; simpl; [|reflexivity].
  apply TextFacts.like_contains_nocase, H.
Qed.

Lemma order_by_desc_perm {A} (key : A -> string) rows :
  Permutation (Sql.order_by_desc key rows) rows.
Proof.
  unfold Sql.order_by_desc.
  rewrite RuntimeFacts.stable_sort_perm. symmetry. apply Permutation_rev.
Qed.

Lemma order_by_desc_sorted {A} (key : A -> string) rows :
  StronglySorted (fun a b => String.leb (key b) (key a) = true)
    (Sql.order_by_desc key rows).
Proof.
  apply Sorted_StronglySorted.
  - intros a b c Hab Hbc. eapply TextFacts.string_leb_trans; eassumption.
  - unfold Sql.order_by_desc.
    apply RuntimeFacts.stable_sort_sorted
      with (keep := fun a b => String.leb (key b) (key a)).
    intros a b H.
    destruct (String.leb_total (key b) (key a)) as [E|E]; congruence.
Qed.

Lemma string_app_assoc (a b c : string) :
  ((a ++ b) ++ c = a ++ (b ++ c))%string.
Proof. induction a as [|x a IH]; simpl; [|rewrite IH]; reflexivity. Qed.

Lemma has_wildcard_app a b :
  Text.has_wildcard (a ++ b)%string
  = Text.has_wildcard a || Text.has_wildcard b.
Proof.
  induction a as [|x a IH]; simpl; [reflexivity|].
  rewrite IH. apply orb_assoc.
Qed.

Lemma tag_pattern_quoted tag :
  tag_pattern tag = ("%" ++ Spec.quoted tag ++ "%")%string.
Proof.
  unfold tag_pattern, Spec.quoted. simpl. do 2 f_equal.
  rewrite string_app_assoc. reflexivity.
Qed.

Lemma quoted_no_wildcard tag :
  Text.has_wildcard tag = false ->
  Text.has_wildcard (Spec.quoted tag) = false.
Proof.
  intros H. unfold Spec.quoted.
  change (String Text.dquote (tag ++ String Text.dquote ""))%string
    with (String Text.dquote "" ++ tag ++ String Text.dquote "")%string.
  rewrite !has_wildcard_app, H. reflexivity.
Qed.

Lemma order_by_asc_num_perm {A} (key : A -> Q) rows :
  Permutation (Sql.order_by_asc_num key rows) rows.
Proof. apply RuntimeFacts.stable_sort_perm. Qed.

Lemma order_by_asc_num_sorted {A} (key : A -> Q) rows :
  StronglySorted (fun a b => (key a <= key b)%Q)
    (Sql.order_by_asc_num key rows).
Proof.
  apply Sorted_StronglySorted;
    [intros a b c Hab Hbc; eapply Qle_trans; eassumption|].
  unfold Sql.order_by_asc_num.
  eapply RuntimeFacts.Sorted_impl;
    [| apply RuntimeFacts.stable_sort_sorted
         with (keep := fun a b => Qle_bool (key a) (key b))].
  - intros a b H. apply Qle_bool_iff, H.
  - intros a b H. apply Qle_bool_iff.
    destruct (Qle_bool (key a) (key b)) eqn:E; [discriminate|].
    assert (~ (key a <= key b)%Q) as Hn
      by (intro Hc; apply Qle_bool_iff in Hc; congruence).
    lra.
Qed.

Lemma vec_nearest_ok this q k :
  length q = dimensions this -> (0 <= k <= Sql.knn_k_max)%Z ->
  vec_nearest this q k
  = Js.Return (firstn (Z.to_nat k)
                 (Sql.order_by_asc_num snd (rev (scanned this q)))).
Proof.
  intros Hlen Hk. unfold vec_nearest. rewrite Hlen, Nat.eqb_refl. cbn [negb].
  destruct (k <? 0)%Z eqn:E1; [apply Z.ltb_lt in E1; lia|].
  destruct (Sql.knn_k_max <? k)%Z eqn:E2; [apply Z.ltb_lt in E2; lia|].
  reflexivity.
Qed.

(** What the index answers, when it answers. *)
Lemma vec_nearest_returns this q k l :
  vec_nearest this q k = Js.Return l ->
  length q = dimensions this /\ (0 <= k <= Sql.knn_k_max)%Z
  /\ l = firstn (Z.to_nat k)
           (Sql.order_by_asc_num snd (rev (scanned this q))).
Proof.
  unfold vec_nearest.
  destruct (length q =? dimensions this)%nat eqn:E0; [|discriminate].
  cbn [negb].
  destruct (k <? 0)%Z eqn:E1; [discriminate|].
  destruct (Sql.knn_k_max <? k)%Z eqn:E2; [discriminate|].
  intros [= <-]. apply Nat.eqb_eq in E0.
  apply Z.ltb_ge in E1. apply Z.ltb_ge in E2. repeat split; assumption.
Qed.

(** The index refuses a [k] above its bound. *)
Lemma vec_nearest_too_many this q k :
  (Sql.knn_k_max < k)%Z -> exists e, vec_nearest this q k = Js.Throw e.
Proof.
  intros Hk. unfold vec_nearest.
  destruct (negb _); [eexists; reflexivity|].
  destruct (k <? 0)%Z; [eexists; reflexivity|].
  destruct (Sql.knn_k_max <? k)%Z eqn:E2; [eexists; reflexivity|].
  apply Z.ltb_ge in E2. lia.
Qed.

(** The index refuses a query vector of another dimension. *)
Lemma vec_nearest_mismatch this q k :
  length q <> dimensions this -> exists e, vec_nearest this q k = Js.Throw e.
Proof.
  intros Hq. unfold vec_nearest.
  destruct (length q =? dimensions this)%nat eqn:E0.
  - apply Nat.eqb_eq in E0. contradiction.
  - eexists; reflexivity.
Qed.

(** The three refusals of the index. *)
Lemma vec_nearest_refuses this q k :
  length q <> dimensions this \/ (k < 0)%Z \/ (Sql.knn_k_max < k)%Z ->
  exists msg, vec_nearest this q k = Js.Throw (Js.SqliteError msg).
Proof.
  intros H. unfold vec_nearest.
  destruct (length q =? dimensions this)%nat eqn:E0; cbn [negb];
    [|eexists; reflexivity].
  destruct (k <? 0)%Z eqn:E1; [eexists; reflexivity|].
  destruct (Sql.knn_k_max <? k)%Z eqn:E2; [eexists; reflexivity|].
  apply Nat.eqb_eq in E0. apply Z.ltb_ge in E1. apply Z.ltb_ge in E2.
  destruct H as [H|[H|H]]; [contradiction | lia | lia].
Qed.

Lemma vec_nearest_length this q k l :
  vec_nearest this q k = Js.Return l -> (Z.of_nat (length l) <= k)%Z.
Proof.
  intros H. apply vec_nearest_returns in H as (_ & Hk & ->).
  rewrite length_firstn. lia.
Qed.

Lemma id_in_In ids i : Sql.id_in ids i = true <-> In i ids.
Proof.
  unfold Sql.id_in. rewrite existsb_exists. split.
  - intros (x & Hx & E). apply Z.eqb_eq in E. subst. exact Hx.
  - intros H. exists i. split; [exact H | apply Z.eqb_refl].
Qed.

End SearchFacts.

(* ===================================================================== *)
(** ** Reindex                                                             *)
(* ===================================================================== *)

Module ReindexFacts.
Import OpenIntel Js.
Local Open Scope list_scope.

Lemma reindex_loop_unfold missing i this e :
  reindex_loop missing i this e =
  if lt_dec i (length missing) then
    reindex_loop missing (i + batchSize)
      (snd (reindex_batch this (slice i (i + batchSize) missing)))
      (e + fst (reindex_batch this (slice i (i + batchSize) missing)))
  else (e, this).
Proof.
  rewrite reindex_loop_equation_1.
  destruct (lt_dec i (length missing)); reflexivity.
Qed.

(** What a batch preserves, the loop preserves. *)
Lemma reindex_loop_preserves (Inv : t -> Prop) :
  (forall this batch, Inv this -> Inv (snd (reindex_batch this batch))) ->
  forall missing i this e,
    Inv this -> Inv (snd (reindex_loop missing i this e)).
Proof.
  intros Hstep missing i this e.
  funelim (reindex_loop missing i this e); intros Hinv.
  - match goal with IH : forall Inv : t -> Prop, _ |- _ => apply IH end;
      [exact Hstep | apply Hstep, Hinv].
  - exact Hinv.
Qed.

(** A batch touches nothing but [intel_vec] and the request counter. *)
Lemma reindex_batch_frame this batch :
  let this' := snd (reindex_batch this batch) in
  embeddingConfig this' = embeddingConfig this
  /\ dimensions this' = dimensions this
  /\ _vecLoaded this' = _vecLoaded this
  /\ intel (db this') = intel (db this)
  /\ trades (db this') = trades (db this).
Proof.
  unfold reindex_batch, _embed.
  destruct (embeddingConfig this) as [cfg|] eqn:Ecfg; simpl.
  - destruct (respond cfg (requests this) (map reindex_text batch) Document)
      as [vectors|e]; simpl.
    + destruct (insert_batch _ _ _ _ _); simpl; repeat split; auto.
    + repeat split; auto.
  - repeat split; auto.
Qed.

Lemma reindex_loop_frame missing i this e :
  let this' := snd (reindex_loop missing i this e) in
  embeddingConfig this' = embeddingConfig this
  /\ dimensions this' = dimensions this
  /\ _vecLoaded this' = _vecLoaded this
  /\ intel (db this') = intel (db this)
  /\ trades (db this') = trades (db this).
Proof.
  apply (reindex_loop_preserves
           (fun s => embeddingConfig s = embeddingConfig this
                     /\ dimensions s = dimensions this
                     /\ _vecLoaded s = _vecLoaded this
                     /\ intel (db s) = intel (db this)
                     /\ trades (db s) = trades (db this))).
  - intros s batch (H1 & H2 & H3 & H4 & H5).
    destruct (reindex_batch_frame s batch) as (F1 & F2 & F3 & F4 & F5).
    repeat split; congruence.
  - repeat split; reflexivity.
Qed.

Lemma reindex_frame this :
  let this' := snd (reindex this) in
  embeddingConfig this' = embeddingConfig this
  /\ dimensions this' = dimensions this
  /\ _vecLoaded this' = _vecLoaded this
  /\ intel (db this') = intel (db this)
  /\ trades (db this') = trades (db this).
Proof.
  unfold reindex.
  destruct (negb (is_configured this)); [simpl; repeat split|].
  destruct (negb (_vecLoaded this)); [simpl; repeat split|].
  destruct (missing_embeddings (db this)) as [|r missing] eqn:E;
    [simpl; repeat split|].
  pose proof (reindex_loop_frame (r :: missing) 0 this 0) as H.
  destruct (reindex_loop (r :: missing) 0 this 0) as [n this1].
  exact H.
Qed.

Lemma filter_none {A} (f : A -> bool) l :
  (forall x, In x l -> f x = false) -> filter f l = [].
Proof.
  induction l as [|a l IH]; intros H; [reflexivity|].
  simpl. rewrite (H a) by (left; reflexivity).
  apply IH. intros x Hx. apply H. right. exact Hx.
Qed.

(** **** Chunks *)

Lemma chunks_fuel_enough {A} n (l : list A) f1 f2 :
  0 < n -> length l <= f1 -> length l <= f2 ->
  Spec.chunks_fuel f1 n l = Spec.chunks_fuel f2 n l.
Proof.
  intros Hn. revert f2 l.
  induction f1 as [|f1 IH]; intros f2 l H1 H2.
  - destruct l; [|simpl in H1; lia]. destruct f2; reflexivity.
  - destruct l as [|a l]; [destruct f2; reflexivity|].
    destruct f2 as [|f2]; [simpl in H2; lia|].
    cbn [Spec.chunks_fuel]. f_equal.
    pose proof (length_skipn n (a :: l)) as Hs. simpl length in *.
    apply IH; lia.
Qed.

Lemma chunks_cons {A} n (l : list A) :
  0 < n -> l <> [] ->
  Spec.chunks n l = firstn n l :: Spec.chunks n (skipn n l).
Proof.
  intros Hn Hl. unfold Spec.chunks.
  destruct l as [|a l]; [congruence|].
  cbn [length Spec.chunks_fuel]. f_equal.
  pose proof (length_skipn n (a :: l)) as Hs. simpl length in *.
  apply chunks_fuel_enough; lia.
Qed.

Lemma concat_chunks_fuel {A} n f (l : list A) :
  0 < n -> length l <= f -> concat (Spec.chunks_fuel f n l) = l.
Proof.
  intros Hn. revert l. induction f as [|f IH]; intros l Hl.
  - destruct l; [reflexivity | simpl in Hl; lia].
  - destruct l as [|a l]; [reflexivity|].
    cbn [Spec.chunks_fuel concat].
    pose proof (length_skipn n (a :: l)) as Hs. simpl length in *.
    rewrite IH by lia. apply firstn_skipn.
Qed.

Lemma concat_chunks {A} n (l : list A) :
  0 < n -> concat (Spec.chunks n l) = l.
Proof. intros Hn. apply concat_chunks_fuel; [exact Hn | lia]. Qed.

Lemma chunks_fuel_sizes {A} n f (l : list A) :
  0 < n ->
  Forall (fun b => 0 < length b <= n) (Spec.chunks_fuel f n l).
Proof.
  intros Hn. revert l. induction f as [|f IH]; intros l; [constructor|].
  destruct l as [|a l]; [constructor|].
  cbn [Spec.chunks_fuel]. constructor; [|apply IH].
  rewrite length_firstn. simpl length. lia.
Qed.

Lemma chunks_sizes {A} n (l : list A) :
  0 < n -> Forall (fun b => 0 < length b <= n) (Spec.chunks n l).
Proof. intros Hn. apply chunks_fuel_sizes, Hn. Qed.

(** **** The loop runs the batches in order *)

Lemma reindex_loop_chunks missing i this e :
  reindex_loop missing i this e
  = Spec.run_batches_from e this (Spec.chunks batchSize (skipn i missing)).
Proof.
  funelim (reindex_loop missing i this e).
  - match goal with
    | IH : _ = Spec.run_batches_from _ _ _ |- _ => rewrite IH
    end.
    rewrite (chunks_cons batchSize (skipn i missing));
      [| unfold batchSize; lia
       | intros Hnil; apply (f_equal (@length _)) in Hnil;
         rewrite length_skipn in Hnil; simpl in Hnil; lia].
    unfold Spec.run_batches_from. cbn [fold_left fst snd].
    unfold slice. replace (i + batchSize - i) with batchSize by lia.
    rewrite skipn_skipn. rewrite (Nat.add_comm batchSize i). reflexivity.
  - rewrite skipn_all2 by lia. reflexivity.
Qed.

(** **** Inserts *)

Lemma vec_has_app id l1 l2 :
  vec_has id (l1 ++ l2) = vec_has id l1 || vec_has id l2.
Proof. apply existsb_app. Qed.

Lemma vec_has_filter_other k id tbl :
  k <> id ->
  vec_has k (filter (fun r => negb (Vec.intel_id r =? id)%Z) tbl)
  = vec_has k tbl.
Proof.
  intros Hne. induction tbl as [|r tbl IH]; [reflexivity|].
  simpl. destruct (Vec.intel_id r =? id)%Z eqn:E; simpl.
  - rewrite IH. apply Z.eqb_eq in E.
    destruct (Vec.intel_id r =? k)%Z eqn:E2; [|reflexivity].
    apply Z.eqb_eq in E2. congruence.
  - rewrite IH. reflexivity.
Qed.

Lemma vec_insert_replace_has dims id v tbl tbl' :
  vec_insert dims true id v tbl = Return tbl' ->
  vec_has id tbl' = true
  /\ forall k, vec_has k tbl = true -> vec_has k tbl' = true.
Proof.
  unfold vec_insert.
  destruct (negb (length v =? dims)%nat); [discriminate|].
  destruct (vec_has id tbl) eqn:Ehas; intros [= <-].
  - split.
    + rewrite vec_has_app. simpl. rewrite Z.eqb_refl.
      apply orb_true_iff. right. reflexivity.
    + intros k Hk. rewrite vec_has_app.
      destruct (Z.eq_dec k id) as [->|Hne].
      * simpl. rewrite Z.eqb_refl. apply orb_true_iff. right. reflexivity.
      * rewrite vec_has_filter_other by assumption. rewrite Hk. reflexivity.
  - split.
    + rewrite vec_has_app. simpl. rewrite Z.eqb_refl.
      apply orb_true_iff. right. reflexivity.
    + intros k Hk. rewrite vec_has_app, Hk. reflexivity.
Qed.

Lemma insert_batch_has dims batch j vectors tbl tbl' :
  insert_batch dims batch j vectors tbl = Return tbl' ->
  (forall k, vec_has k tbl = true -> vec_has k tbl' = true)
  /\ (forall r, In r batch -> vec_has (Intel.id r) tbl' = true).
Proof.
  revert j tbl. induction batch as [|entry rest IH]; intros j tbl.
  - intros [= <-]. split; [trivial | intros r []].
  - cbn [insert_batch].
    destruct (vec_insert dims true (Intel.id entry) _ tbl) as [tbl1|e] eqn:E;
      [|discriminate].
    intros Hrest. apply vec_insert_replace_has in E as [Hid Hmono].
    apply IH in Hrest as [Hmono' Hall]. split.
    + intros k Hk. apply Hmono', Hmono, Hk.
    + intros r [<-|Hin]; [apply Hmono', Hid | apply Hall, Hin].
Qed.

(** **** One batch: a single request, all or nothing *)

Lemma reindex_batch_requests this batch :
  is_configured this = true ->
  requests (snd (reindex_batch this batch)) = S (requests this).
Proof.
  unfold is_configured, reindex_batch, _embed.
  destruct (embeddingConfig this) as [cfg|]; [intros _ | discriminate].
  destruct (respond cfg _ _ _); [|reflexivity].
  cbn [fst snd dimensions db with_requests].
  destruct (insert_batch _ _ _ _ _); reflexivity.
Qed.

Lemma reindex_batch_atomic this batch :
  let n := fst (reindex_batch this batch) in
  let this' := snd (reindex_batch this batch) in
  (n = length batch
   /\ (forall r, In r batch ->
                 vec_has (Intel.id r) (intel_vec (db this')) = true)
   /\ (forall k, vec_has k (intel_vec (db this)) = true ->
                 vec_has k (intel_vec (db this')) = true))
  \/ (n = 0 /\ db this' = db this).
Proof.
  unfold reindex_batch, _embed.
  destruct (embeddingConfig this) as [cfg|]; [|right; split; reflexivity].
  destruct (respond cfg _ _ _); [|right; split; reflexivity].
  cbn [fst snd dimensions db with_requests].
  destruct (insert_batch _ _ _ _ _) as [tbl'|e] eqn:E;
    [|right; split; reflexivity].
  left. apply insert_batch_has in E as [Hmono Hall].
  split; [reflexivity|]. split; assumption.
Qed.

Lemma reindex_batch_gateway_failure this batch cfg e :
  embeddingConfig this = Some cfg ->
  respond cfg (requests this) (map reindex_text batch) Document = Throw e ->
  fst (reindex_batch this batch) = 0
  /\ db (snd (reindex_batch this batch)) = db this.
Proof.
  intros Hcfg Hresp. unfold reindex_batch, _embed.
  rewrite Hcfg, Hresp. split; reflexivity.
Qed.

Lemma reindex_batch_mono this batch k :
  vec_has k (intel_vec (db this)) = true ->
  vec_has k (intel_vec (db (snd (reindex_batch this batch)))) = true.
Proof.
  intros Hk.
  destruct (reindex_batch_atomic this batch) as [(_ & _ & Hm)|[_ Hdb]].
  - apply Hm, Hk.
  - rewrite Hdb. exact Hk.
Qed.

Lemma reindex_batch_count this batch :
  fst (reindex_batch this batch) <= length batch.
Proof.
  destruct (reindex_batch_atomic this batch) as [(-> & _)|[-> _]]; lia.
Qed.

(** **** All the batches *)

Lemma run_batches_from_cons e this batch rest :
  Spec.run_batches_from e this (batch :: rest)
  = Spec.run_batches_from (e + fst (reindex_batch this batch))
      (snd (reindex_batch this batch)) rest.
Proof. reflexivity. Qed.

Lemma run_batches_bound batches e this :
  fst (Spec.run_batches_from e this batches)
  <= e + length (concat batches).
Proof.
  revert e this. induction batches as [|b rest IH]; intros e this.
  - simpl. lia.
  - rewrite run_batches_from_cons. cbn [concat]. rewrite length_app.
    pose proof (IH (e + fst (reindex_batch this b))
                  (snd (reindex_batch this b))).
    pose proof (reindex_batch_count this b). lia.
Qed.

Lemma run_batches_mono batches e this k :
  vec_has k (intel_vec (db this)) = true ->
  vec_has k (intel_vec (db (snd (Spec.run_batches_from e this batches))))
  = true.
Proof.
  revert e this. induction batches as [|b rest IH]; intros e this Hk.
  - exact Hk.
  - rewrite run_batches_from_cons. apply IH, reindex_batch_mono, Hk.
Qed.

(** If the count says every entry was embedded, every entry has a
    vector. *)
Lemma run_batches_complete batches e this :
  Forall (fun b => 0 < length b) batches ->
  fst (Spec.run_batches_from e this batches)
  = e + length (concat batches) ->
  forall r, In r (concat batches) ->
    vec_has (Intel.id r)
      (intel_vec (db (snd (Spec.run_batches_from e this batches)))) = true.
Proof.
  revert e this. induction batches as [|b rest IH]; intros e this Hne Hcount r.
  - intros [].
  - inversion Hne as [|? ? Hb Hrest]; subst.
    rewrite run_batches_from_cons in *. cbn [concat] in *.
    rewrite length_app in Hcount.
    pose proof (run_batches_bound rest (e + fst (reindex_batch this b))
                  (snd (reindex_batch this b))) as Hbound.
    destruct (reindex_batch_atomic this b) as [(Hn & Hall & _)|[Hn _]];
      cbv zeta in *; [|lia].
    intros Hin. apply in_app_or in Hin as [Hin|Hin].
    + apply run_batches_mono, Hall, Hin.
    + apply IH; [assumption | lia | assumption].
Qed.

End ReindexFacts.

(* ===================================================================== *)
(** ** The trade journal                                                   *)
(* ===================================================================== *)

Module TradeFacts.
Import OpenIntel Js Session.
Local Open Scope list_scope.

Lemma add_trades this category data now :
  trades (db (snd (add this category data now))) = trades (db this).
Proof.
  unfold add. destruct (truthy (Data.title data)); [|reflexivity].
  match goal with |- context [if ?c then _ else _] => destruct c end;
    [|reflexivity].
  unfold _embed. cbn [embeddingConfig with_db].
  destruct (embeddingConfig this) as [cfg|]; [|reflexivity].
  destruct (respond cfg _ _ _); [|reflexivity].
  cbn [fst snd db with_requests].
  destruct (vec_insert _ _ _ _ _); reflexivity.
Qed.

Lemma semantic_db this queryText limit :
  db (snd (semantic this queryText limit)) = db this.
Proof.
  unfold semantic.
  destruct (negb (is_configured this)); [reflexivity|].
  destruct (negb (_vecLoaded this)); [reflexivity|].
  unfold _embed. destruct (embeddingConfig this) as [cfg|]; [|reflexivity].
  destruct (respond cfg _ _ _); [|reflexivity].
  destruct (vec_nearest _ _ _) as [[|p l]|]; reflexivity.
Qed.

Lemma think_semantic_db this queryText limit :
  db (snd (think_semantic this queryText limit)) = db this.
Proof.
  unfold think_semantic.
  destruct (is_configured this && _vecLoaded this); [|reflexivity].
  unfold _embed. destruct (embeddingConfig this) as [cfg|]; [|reflexivity].
  destruct (respond cfg _ _ _); [|reflexivity].
  destruct (vec_nearest _ _ _); reflexivity.
Qed.

Lemma think_db this queryText limit :
  db (snd (think this queryText limit)) = db this.
Proof.
  unfold think.
  pose proof (think_semantic_db this queryText limit) as H.
  destruct (think_semantic this queryText limit) as [vecScores this1].
  simpl in H.
  destruct (map fst _); simpl; exact H.
Qed.

Lemma resolve_row_id id outcome pnl now r :
  Trade.id (resolve_row id outcome pnl now r) = Trade.id r.
Proof. unfold resolve_row. destruct (Trade.id r =? id)%Z; reflexivity. Qed.

Lemma find_resolve_other id id' outcome pnl now l :
  id' <> id ->
  find (fun r => (Trade.id r =? id)%Z)
    (map (resolve_row id' outcome pnl now) l)
  = find (fun r => (Trade.id r =? id)%Z) l.
Proof.
  intros Hne. induction l as [|r l IH]; [reflexivity|].
  simpl. rewrite resolve_row_id.
  destruct (Trade.id r =? id)%Z eqn:E2; [|exact IH].
  f_equal. unfold resolve_row.
  destruct (Trade.id r =? id')%Z eqn:E1; [|reflexivity].
  apply Z.eqb_eq in E1, E2. congruence.
Qed.

Lemma find_resolve_same id outcome pnl now l r :
  find (fun r => (Trade.id r =? id)%Z) l = Some r ->
  find (fun r => (Trade.id r =? id)%Z)
    (map (resolve_row id outcome pnl now) l)
  = Some (resolve_row id outcome pnl now r).
Proof.
  induction l as [|x l IH]; [discriminate|].
  simpl. rewrite resolve_row_id. destruct (Trade.id x =? id)%Z eqn:E.
  - intros [= ->]. reflexivity.
  - exact IH.
Qed.

Lemma find_app_some {A} (f : A -> bool) l1 l2 r :
  find f l1 = Some r -> find f (l1 ++ l2) = Some r.
Proof.
  induction l1 as [|x l1 IH]; [discriminate|].
  simpl. destruct (f x); [trivial | exact IH].
Qed.

End TradeFacts.

(* ===================================================================== *)
(** ** Hybrid search                                                       *)
(* ===================================================================== *)

Module ThinkFacts.
Import OpenIntel Js Invariant Spec.
Local Open Scope list_scope.

Lemma distinct_NoDup l : distinct l = true <-> NoDup l.
Proof.
  induction l as [|x l IH]; simpl.
  - split; [constructor | reflexivity].
  - rewrite andb_true_iff, negb_true_iff, IH. split.
    + intros [Hx Hl]. constructor; [|exact Hl].
      intros Hin.
      assert (existsb (Z.eqb x) l = true)
        by (apply existsb_exists; exists x; split;
            [exact Hin | apply Z.eqb_refl]).
      congruence.
    + intros H. inversion H as [|? ? Hx Hl]; subst. split; [|exact Hl].
      apply not_true_is_false. intros Ht.
      apply existsb_exists in Ht as (y & Hy & E).
      apply Z.eqb_eq in E. subst. contradiction.
Qed.

Lemma store_ok_spec d :
  store_ok d = true ->
  NoDup (map Intel.id (intel d))
  /\ NoDup (map Vec.intel_id (intel_vec d))
  /\ (forall v, In v (intel_vec d) ->
                In (Vec.intel_id v) (map Intel.id (intel d))).
Proof.
  unfold store_ok. rewrite !andb_true_iff, !distinct_NoDup, forallb_forall.
  intros [[H1 H2] H3]. split; [exact H1|]. split; [exact H2|].
  intros v Hv. apply SearchFacts.id_in_In, H3, Hv.
Qed.

Lemma StronglySorted_app_inv {A} (R : A -> A -> Prop) l1 l2 a b :
  StronglySorted R (l1 ++ l2) -> In a l1 -> In b l2 -> R a b.
Proof.
  induction l1 as [|x l1 IH]; intros Hs Ha Hb; [destruct Ha|].
  simpl in Hs. inversion Hs as [|? ? Hs' Hall]; subst.
  destruct Ha as [<-|Ha].
  - rewrite Forall_forall in Hall. apply Hall, in_or_app. right. exact Hb.
  - apply IH; assumption.
Qed.

Lemma NoDup_map_filter {A B} (f : A -> B) (p : A -> bool) l :
  NoDup (map f l) -> NoDup (map f (filter p l)).
Proof.
  induction l as [|x l IH]; simpl; intros H; [constructor|].
  inversion H as [|? ? Hx Hl]; subst.
  destruct (p x); simpl; [|apply IH, Hl].
  constructor; [|apply IH, Hl].
  intros Hin. apply Hx. apply in_map_iff in Hin as (y & Hy & Hin).
  apply in_map_iff. exists y. split; [exact Hy|].
  apply filter_In in Hin. apply Hin.
Qed.

Lemma In_firstn {A} n (l : list A) x : In x (firstn n l) -> In x l.
Proof.
  intros H. rewrite <- (firstn_skipn n l). apply in_or_app. left. exact H.
Qed.

Lemma NoDup_firstn {A} n (l : list A) : NoDup l -> NoDup (firstn n l).
Proof.
  intros H. rewrite <- (firstn_skipn n l) in H.
  apply NoDup_app_remove_r in H. exact H.
Qed.

Lemma slice0_nonneg {A} (n : Z) (l : list A) :
  (0 <= n)%Z -> slice0 n l = firstn (Z.to_nat n) l.
Proof.
  intros H. unfold slice0.
  destruct (n <? 0)%Z eqn:E; [apply Z.ltb_lt in E; lia | reflexivity].
Qed.

(** The ids of the index's answer are ids of stored vectors. *)
Lemma vec_nearest_ids this q k nearest id :
  vec_nearest this q k = Return nearest ->
  In id (map fst nearest) ->
  In id (map Vec.intel_id (intel_vec (db this))).
Proof.
  intros H Hin. apply SearchFacts.vec_nearest_returns in H as (_ & _ & ->).
  apply in_map_iff in Hin as ([i d] & <- & Hin).
  apply In_firstn in Hin.
  apply (Permutation_in _ (SearchFacts.order_by_asc_num_perm _ _)) in Hin.
  apply in_rev in Hin.
  apply in_map_iff in Hin as (v & [= <- _] & Hv).
  cbn [fst]. apply in_map. exact Hv.
Qed.

(** **** The keyword pool *)

Lemma think_keyword_keys this queryText limit id :
  In id (Map_keys (think_keyword this queryText limit))
  <-> In id (map Intel.id (keyword_rows this queryText limit)).
Proof.
  unfold think_keyword. fold (keyword_rows this queryText limit).
  rewrite RuntimeFacts.Map_of_keys, map_map. reflexivity.
Qed.

Lemma think_keyword_weight this queryText limit id w :
  Map_get id (think_keyword this queryText limit) = Some w ->
  w = (3 # 10)%Q.
Proof.
  intros H. apply RuntimeFacts.Map_of_get in H.
  apply in_map_iff in H as (r & [= _ <-] & _). reflexivity.
Qed.

Lemma think_keyword_stored this queryText limit id :
  In id (Map_keys (think_keyword this queryText limit)) ->
  In id (map Intel.id (intel (db this))).
Proof.
  rewrite think_keyword_keys. unfold keyword_rows, Sql.limit.
  intros H. apply in_map_iff in H as (r & <- & Hr). apply in_map.
  destruct (limit * 2 <? 0)%Z; [|apply In_firstn in Hr];
    apply filter_In in Hr; apply Hr.
Qed.

(** **** The semantic pool *)

Lemma think_semantic_cases this queryText limit :
  fst (think_semantic this queryText limit) = []
  \/ exists cfg vectors nearest,
       embeddingConfig this = Some cfg
       /\ _vecLoaded this = true
       /\ respond cfg (requests this) [queryText] Query = Return vectors
       /\ vec_nearest this (_float32Buffer (hd_error vectors)) (limit * 2)
          = Return nearest
       /\ fst (think_semantic this queryText limit)
          = Map_of (map (fun r => (fst r, similarity_of (snd r))) nearest).
Proof.
  unfold think_semantic, is_configured, _embed.
  destruct (embeddingConfig this) as [cfg|] eqn:Ecfg; [|left; reflexivity].
  destruct (_vecLoaded this) eqn:Evec; [|left; reflexivity].
  cbn [andb].
  destruct (respond cfg (requests this) [queryText] Query)
    as [vectors|e] eqn:Eresp; [|left; reflexivity].
  destruct (vec_nearest (with_requests (S (requests this)) this)
              (_float32Buffer (hd_error vectors)) (limit * 2))
    as [nearest|e] eqn:Enear; [|left; reflexivity].
  right. exists cfg, vectors, nearest. repeat split; assumption.
Qed.

Lemma think_semantic_stored this queryText limit id :
  In id (Map_keys (fst (think_semantic this queryText limit))) ->
  In id (map Vec.intel_id (intel_vec (db this))).
Proof.
  destruct (think_semantic_cases this queryText limit)
    as [->|(cfg & vectors & nearest & _ & _ & _ & Hnear & ->)];
    [intros []|].
  rewrite RuntimeFacts.Map_of_keys, map_map. cbn [fst].
  apply (vec_nearest_ids _ _ _ _ _ Hnear).
Qed.

(** **** Fusion *)

Lemma pool_ids_In kw sem id :
  In id (pool_ids kw sem) <-> In id (Map_keys kw) \/ In id (Map_keys sem).
Proof. unfold pool_ids. rewrite RuntimeFacts.Set_of_In. apply in_app_iff. Qed.

Lemma think_scored_perm kw sem :
  Permutation (think_scored kw sem)
    (map (fun id => (id, Spec.fused kw sem id)) (pool_ids kw sem)).
Proof. unfold think_scored. apply RuntimeFacts.sort_desc_perm. Qed.

Lemma think_scored_In kw sem id s :
  In (id, s) (think_scored kw sem)
  <-> In id (pool_ids kw sem) /\ s = Spec.fused kw sem id.
Proof.
  split.
  - intros H. apply (Permutation_in _ (think_scored_perm kw sem)) in H.
    apply in_map_iff in H as (i & [= -> <-] & Hi). split; [exact Hi|].
    reflexivity.
  - intros [Hi ->].
    apply (Permutation_in _ (Permutation_sym (think_scored_perm kw sem))).
    apply in_map_iff. exists id. split; [reflexivity | exact Hi].
Qed.

Lemma think_scored_ids kw sem :
  Permutation (map fst (think_scored kw sem)) (pool_ids kw sem).
Proof.
  rewrite (Permutation_map fst (think_scored_perm kw sem)).
  rewrite map_map. cbn [fst]. rewrite map_id. reflexivity.
Qed.

Lemma think_scored_nodup kw sem : NoDup (map fst (think_scored kw sem)).
Proof.
  apply (Permutation_NoDup (Permutation_sym (think_scored_ids kw sem))).
  apply RuntimeFacts.Set_of_nodup.
Qed.

Lemma think_scored_length kw sem :
  length (think_scored kw sem) = length (pool_ids kw sem).
Proof.
  rewrite <- (length_map fst).
  apply Permutation_length, think_scored_ids.
Qed.

Lemma think_scored_sorted kw sem :
  StronglySorted Spec.by_score_desc (think_scored kw sem).
Proof. apply RuntimeFacts.sort_desc_sorted. Qed.

(** **** Fetching and ranking the top ids *)

Lemma fetch_scored_nil entries scored : fetch_scored entries scored [] = [].
Proof.
  unfold fetch_scored. rewrite ReindexFacts.filter_none; [reflexivity|].
  intros x _. reflexivity.
Qed.

Lemma fetch_scored_In entries scored topIds r s :
  In (r, s) (fetch_scored entries scored topIds)
  <-> In r entries /\ In (Intel.id r) topIds
      /\ s = match Map_get (Intel.id r) (Map_of scored) with
             | Some score => score
             | None => 0%Q
             end.
Proof.
  unfold fetch_scored. split.
  - intros H. apply (Permutation_in _ (RuntimeFacts.sort_desc_perm _)) in H.
    apply in_map_iff in H as (r0 & [= -> <-] & Hr).
    apply filter_In in Hr as [Hr Hid]. apply SearchFacts.id_in_In in Hid.
    repeat split; assumption.
  - intros (Hr & Hid & ->).
    apply (Permutation_in _ (Permutation_sym (RuntimeFacts.sort_desc_perm _))).
    apply in_map_iff. exists r. split; [reflexivity|].
    apply filter_In. split; [exact Hr | apply SearchFacts.id_in_In, Hid].
Qed.

Lemma fetch_scored_ids entries scored topIds :
  Permutation (map row_id (fetch_scored entries scored topIds))
    (map Intel.id
       (filter (fun r => Sql.id_in topIds (Intel.id r)) entries)).
Proof.
  unfold fetch_scored.
  rewrite (Permutation_map row_id (RuntimeFacts.sort_desc_perm _)).
  rewrite map_map. reflexivity.
Qed.

(** [think] fetches and ranks the top ids of the fused scores. *)
Lemma think_eq this queryText limit :
  let kw := think_keyword this queryText limit in
  let sem := fst (think_semantic this queryText limit) in
  let scored := think_scored kw sem in
  think this queryText limit
  = (Return (fetch_scored (intel (db this)) scored
               (map fst (slice0 limit scored))),
     snd (think_semantic this queryText limit)).
Proof.
  cbv zeta. unfold think.
  pose proof (TradeFacts.think_semantic_db this queryText limit) as Hdb.
  destruct (think_semantic this queryText limit) as [sem this1].
  cbn [fst snd] in *. rewrite Hdb.
  destruct (map fst (slice0 limit _)) eqn:Etop; [|reflexivity].
  rewrite fetch_scored_nil. reflexivity.
Qed.

Section FetchRanked.
Variables (entries : list Intel.row) (scored : list (Z * Q)) (n : nat).
Variable f : Z -> Q.
Hypothesis entries_nodup : NoDup (map Intel.id entries).
Hypothesis scored_nodup : NoDup (map fst scored).
Hypothesis scored_sorted : StronglySorted Spec.by_score_desc scored.
Hypothesis scored_by_f : forall id s, In (id, s) scored -> s = f id.
Hypothesis scored_stored :
  forall id, In id (map fst scored) -> In id (map Intel.id entries).

Let topIds := map fst (firstn n scored).
Let rows := fetch_scored entries scored topIds.

Lemma top_ids_fetched id :
  In id (map row_id rows) <-> In id topIds.
Proof.
  unfold rows. split.
  - intros H. apply (Permutation_in _ (fetch_scored_ids _ _ _)) in H.
    apply in_map_iff in H as (r & <- & Hr).
    apply filter_In in Hr as [_ Hid]. apply SearchFacts.id_in_In, Hid.
  - intros H.
    apply (Permutation_in _ (Permutation_sym (fetch_scored_ids _ _ _))).
    assert (In id (map fst scored)) as Hs
      by (unfold topIds in H; rewrite <- firstn_map in H;
          apply In_firstn in H; exact H).
    apply scored_stored in Hs. apply in_map_iff in Hs as (r & <- & Hr).
    apply in_map. apply filter_In.
    split; [exact Hr | apply SearchFacts.id_in_In, H].
Qed.

Lemma fetched_score r s :
  In (r, s) rows ->
  In r entries /\ In (Intel.id r, s) (firstn n scored) /\ s = f (Intel.id r).
Proof.
  unfold rows. intros H. apply fetch_scored_In in H as (Hr & Hid & Hs).
  split; [exact Hr|].
  unfold topIds in Hid. apply in_map_iff in Hid as ([i s'] & Hi & Htop).
  cbn [fst] in Hi. subst i.
  assert (In (Intel.id r) (map fst scored)) as Hkey
    by (apply in_map_iff; exists (Intel.id r, s'); split;
        [reflexivity | apply In_firstn in Htop; exact Htop]).
  apply RuntimeFacts.Map_of_defined in Hkey as (d & Hget & Hd).
  rewrite Hget in Hs. subst s.
  assert (d = s').
  { apply In_firstn in Htop.
    rewrite (scored_by_f _ _ Hd), (scored_by_f _ _ Htop). reflexivity. }
  subst d. split; [exact Htop | apply scored_by_f, Hd].
Qed.

Lemma fetched_nodup : NoDup (map row_id rows).
Proof.
  unfold rows.
  apply (Permutation_NoDup (Permutation_sym (fetch_scored_ids _ _ _))).
  apply NoDup_map_filter, entries_nodup.
Qed.

Lemma fetched_length : length rows = Nat.min n (length scored).
Proof.
  rewrite <- (length_map row_id).
  rewrite <- length_firstn, <- (length_map fst (firstn n scored)).
  apply Permutation_length, NoDup_Permutation.
  - apply fetched_nodup.
  - rewrite <- firstn_map. apply NoDup_firstn, scored_nodup.
  - apply top_ids_fetched.
Qed.

Lemma fetched_are_top id r s :
  In id (map fst scored) ->
  ~ In id (map row_id rows) ->
  In (r, s) rows ->
  (f id <= s)%Q.
Proof.
  intros Hid Hout Hrow.
  apply fetched_score in Hrow as (_ & Htop & _).
  apply in_map_iff in Hid as ([i s0] & Hi & Hin). cbn [fst] in Hi. subst i.
  assert (Hf := scored_by_f _ _ Hin). subst s0.
  rewrite <- (firstn_skipn n scored) in Hin, scored_sorted.
  apply in_app_or in Hin as [Hin|Hin].
  - exfalso. apply Hout, top_ids_fetched. unfold topIds.
    apply in_map_iff. exists (id, f id). split; [reflexivity | exact Hin].
  - apply (StronglySorted_app_inv _ _ _ _ _ scored_sorted Htop Hin).
Qed.
End FetchRanked.

End ThinkFacts.

(* ===================================================================== *)
(** ** The tables stay well formed                                         *)
(* ===================================================================== *)

Module InvariantFacts.
Import OpenIntel Js Invariant Session.
Local Open Scope list_scope.

Lemma store_ok_iff d : store_ok d = true <-> well_formed d.
Proof.
  unfold store_ok, well_formed.
  rewrite !andb_true_iff, !ThinkFacts.distinct_NoDup, forallb_forall.
  split.
  - intros [[H1 H2] H3]. repeat split; try assumption.
    intros v Hv. apply SearchFacts.id_in_In, H3, Hv.
  - intros (H1 & H2 & H3). repeat split; try assumption.
    intros v Hv. apply SearchFacts.id_in_In, H3, Hv.
Qed.

Lemma next_rowid_fresh ids seq x :
  In x ids -> (x < Sql.next_rowid ids seq)%Z.
Proof.
  unfold Sql.next_rowid. induction ids as [|y ids IH]; [intros []|].
  simpl. intros [->|H]; [lia|]. specialize (IH H). lia.
Qed.

Lemma vec_has_In id tbl :
  vec_has id tbl = true <-> In id (map Vec.intel_id tbl).
Proof.
  unfold vec_has. rewrite existsb_exists, in_map_iff. split.
  - intros (v & Hv & E). apply Z.eqb_eq in E. exists v. split; assumption.
  - intros (v & E & Hv). exists v. split; [exact Hv | apply Z.eqb_eq, E].
Qed.

(** A successful insert adds one row under a key that is not, or no
    longer, in the table. *)
Lemma vec_insert_shape dims or_replace id v tbl tbl' :
  vec_insert dims or_replace id v tbl = Return tbl' ->
  NoDup (map Vec.intel_id tbl) ->
  NoDup (map Vec.intel_id tbl')
  /\ (forall w, In w tbl' -> In w tbl \/ Vec.intel_id w = id).
Proof.
  unfold vec_insert. destruct (negb _); [discriminate|].
  destruct (vec_has id tbl) eqn:Ehas.
  - destruct or_replace; [|discriminate]. intros [= <-] Hnd. split.
    + rewrite map_app. apply NoDup_app.
      * apply ThinkFacts.NoDup_map_filter, Hnd.
      * repeat constructor. intros [].
      * intros x Hx [<-|[]]. apply in_map_iff in Hx as (w & Hw & Hin).
        apply filter_In in Hin as [_ Hne].
        apply negb_true_iff, Z.eqb_neq in Hne. contradiction.
    + intros w Hw. apply in_app_or in Hw as [Hw|[<-|[]]].
      * left. apply filter_In in Hw. apply Hw.
      * right. reflexivity.
  - intros [= <-] Hnd. split.
    + rewrite map_app. apply NoDup_app; [exact Hnd | |].
      * repeat constructor. intros [].
      * intros x Hx [<-|[]]. apply vec_has_In in Hx.
        cbn [Vec.intel_id] in Hx. congruence.
    + intros w Hw. apply in_app_or in Hw as [Hw|[<-|[]]];
        [left; exact Hw | right; reflexivity].
Qed.

Lemma insert_batch_shape dims batch j vectors tbl tbl' :
  insert_batch dims batch j vectors tbl = Return tbl' ->
  NoDup (map Vec.intel_id tbl) ->
  NoDup (map Vec.intel_id tbl')
  /\ (forall w, In w tbl' ->
                In w tbl \/ In (Vec.intel_id w) (map Intel.id batch)).
Proof.
  revert j tbl. induction batch as [|entry rest IH]; intros j tbl.
  - intros [= <-] Hnd. split; [exact Hnd | auto].
  - cbn [insert_batch].
    destruct (vec_insert dims true (Intel.id entry) _ tbl) as [tbl1|e] eqn:E;
      [|discriminate].
    intros Hrest Hnd. apply vec_insert_shape in E as [Hnd1 Hin1]; [|exact Hnd].
    apply IH in Hrest as [Hnd' Hin']; [|exact Hnd1].
    split; [exact Hnd'|]. intros w Hw.
    apply Hin' in Hw as [Hw|Hw].
    + apply Hin1 in Hw as [Hw|Hw]; [left; exact Hw|].
      right. left. symmetry. exact Hw.
    + right. right. exact Hw.
Qed.

Lemma add_well_formed this category data now :
  well_formed (db this) ->
  well_formed (db (snd (add this category data now))).
Proof.
  intros (Hintel & Hvec & Hsub). unfold add.
  destruct (truthy (Data.title data)) as [title|];
    [|repeat split; assumption].
  set (id := Sql.next_rowid (map Intel.id (intel (db this)))
               (intel_seq (db this))).
  set (r := inserted_row id category title data now).
  assert (Hintel' : NoDup (map Intel.id (intel (db this) ++ [r]))).
  { rewrite map_app. apply NoDup_app; [exact Hintel | |].
    - repeat constructor. intros [].
    - intros x Hx [<-|[]]. apply next_rowid_fresh with (seq := intel_seq (db this)) in Hx.
      fold id in Hx. cbn in Hx. lia. }
  assert (Hsub' : forall v, In v (intel_vec (db this)) ->
                    In (Vec.intel_id v) (map Intel.id (intel (db this) ++ [r]))).
  { intros v Hv. rewrite map_app. apply in_or_app. left. apply Hsub, Hv. }
  match goal with |- context [if ?c then _ else _] => destruct c end;
    [|repeat split; assumption].
  unfold _embed. cbn [embeddingConfig with_db].
  destruct (embeddingConfig this) as [cfg|]; [|repeat split; assumption].
  destruct (respond cfg _ _ _); [|repeat split; assumption].
  cbn [fst snd db with_requests dimensions intel_vec].
  destruct (vec_insert _ _ _ _ _) as [tbl'|e] eqn:E;
    [|repeat split; assumption].
  apply vec_insert_shape in E as [Hnd' Hin']; [|exact Hvec].
  split; [exact Hintel'|]. split; [exact Hnd'|].
  intros w Hw.
  cbn [snd db with_db with_intel_vec intel intel_vec with_requests] in *.
  apply Hin' in Hw as [Hw|Hw]; [apply Hsub', Hw|].
  rewrite Hw, map_app. apply in_or_app. right. left. reflexivity.
Qed.

Lemma reindex_batch_well_formed this batch :
  (forall r, In r batch -> In r (intel (db this))) ->
  well_formed (db this) ->
  well_formed (db (snd (reindex_batch this batch))).
Proof.
  intros Hbatch (Hintel & Hvec & Hsub). unfold reindex_batch, _embed.
  destruct (embeddingConfig this) as [cfg|]; [|repeat split; assumption].
  destruct (respond cfg _ _ _); [|repeat split; assumption].
  cbn [fst snd db with_requests dimensions].
  destruct (insert_batch _ _ _ _ _) as [tbl'|e] eqn:E;
    [|repeat split; assumption].
  apply insert_batch_shape in E as [Hnd' Hin']; [|exact Hvec].
  split; [exact Hintel|]. split; [exact Hnd'|].
  intros w Hw.
  cbn [snd db with_db with_intel_vec intel intel_vec with_requests] in *.
  apply Hin' in Hw as [Hw|Hw]; [apply Hsub, Hw|].
  apply in_map_iff in Hw as (r & <- & Hr). apply in_map, Hbatch, Hr.
Qed.

Lemma run_batches_well_formed entries batches e this :
  Forall (fun b => forall r, In r b -> In r entries) batches ->
  intel (db this) = entries ->
  well_formed (db this) ->
  well_formed (db (snd (Spec.run_batches_from e this batches))).
Proof.
  revert e this. induction batches as [|b rest IH]; intros e this Hall He Hwf.
  - exact Hwf.
  - inversion Hall as [|? ? Hb Hrest]; subst.
    rewrite ReindexFacts.run_batches_from_cons. apply IH; [exact Hrest | |].
    + destruct (ReindexFacts.reindex_batch_frame this b)
        as (_ & _ & _ & Hi & _). exact Hi.
    + apply reindex_batch_well_formed; assumption.
Qed.

Lemma reindex_well_formed this :
  well_formed (db this) -> well_formed (db (snd (reindex this))).
Proof.
  intros Hwf. unfold reindex.
  destruct (negb (is_configured this)); [exact Hwf|].
  destruct (negb (_vecLoaded this)); [exact Hwf|].
  destruct (missing_embeddings (db this)) as [|r rest] eqn:Emiss;
    [exact Hwf|].
  rewrite ReindexFacts.reindex_loop_chunks. cbn [skipn].
  destruct (Spec.run_batches_from 0 this (Spec.chunks batchSize (r :: rest)))
    as [n s] eqn:Efold.
  change s with (snd (n, s)). rewrite <- Efold.
  apply (run_batches_well_formed (intel (db this)));
    [| reflexivity | exact Hwf].
  apply Forall_forall. intros b Hb x Hx.
  assert (In x (r :: rest)) as Hin.
  { rewrite <- (ReindexFacts.concat_chunks batchSize (r :: rest))
      by (unfold batchSize; lia).
    apply in_concat. exists b. split; assumption. }
  rewrite <- Emiss in Hin. unfold missing_embeddings in Hin.
  apply filter_In in Hin. apply Hin.
Qed.

(** Every call keeps the tables well formed. *)
Lemma run_well_formed c this :
  well_formed (db this) -> well_formed (db (run c this)).
Proof.
  intros Hwf. destruct c; cbn [run]; try exact Hwf.
  - apply add_well_formed, Hwf.
  - rewrite TradeFacts.semantic_db. exact Hwf.
  - rewrite TradeFacts.think_db. exact Hwf.
  - apply reindex_well_formed, Hwf.
Qed.

(** The tables of a handle opened on a fresh file and driven through any
    sequence of calls satisfy [store_ok]. *)
Theorem store_ok_reachable (cs : list call) (this : t) :
  db this = empty_database ->
  store_ok (db (fold_left (fun s c => run c s) cs this)) = true.
Proof.
  intros Hfresh. apply store_ok_iff.
  assert (Hwf : well_formed (db this)).
  { rewrite Hfresh. repeat split; try constructor. intros v []. }
  clear Hfresh. revert this Hwf.
  induction cs as [|c cs IH]; intros this Hwf; [exact Hwf|].
  simpl. apply IH, run_well_formed, Hwf.
Qed.

End InvariantFacts.

(* ===================================================================== *)
(** ** The pattern language of LIKE                                        *)
(* ===================================================================== *)

Module LikeFacts.
Import Text OpenIntel.
Local Open Scope string_scope.

Lemma upper_spec n :
  (65 <=? n)%nat && (n <=? 90)%nat = true <-> (65 <= n <= 90)%nat.
Proof. rewrite andb_true_iff, !Nat.leb_le. reflexivity. Qed.

Lemma not_upper_spec n :
  (65 <=? n)%nat && (n <=? 90)%nat = false <-> ~ (65 <= n <= 90)%nat.
Proof. rewrite <- upper_spec. symmetry. apply not_true_iff_false. Qed.

Lemma to_lower_same_letter a c :
  to_lower a = to_lower c <-> Spec.same_letter a c.
Proof.
  unfold to_lower, Spec.same_letter.
  pose proof (nat_ascii_bounded a) as Ba.
  pose proof (nat_ascii_bounded c) as Bc.
  destruct ((65 <=? nat_of_ascii a)%nat && (nat_of_ascii a <=? 90)%nat)
    eqn:Ea;
    destruct ((65 <=? nat_of_ascii c)%nat && (nat_of_ascii c <=? 90)%nat)
      eqn:Ec;
    try rewrite upper_spec in Ea; try rewrite not_upper_spec in Ea;
    try rewrite upper_spec in Ec; try rewrite not_upper_spec in Ec.
  - split.
    + intros H. apply (f_equal nat_of_ascii) in H.
      rewrite !nat_ascii_embedding in H by lia.
      left. rewrite <- (ascii_nat_embedding a), <- (ascii_nat_embedding c).
      f_equal. lia.
    + intros [->|[[_ H]|[_ H]]]; [reflexivity | lia | lia].
  - split.
    + intros H. right. left. split; [lia|].
      rewrite <- H. rewrite nat_ascii_embedding by lia. reflexivity.
    + intros [->|[[_ H]|[H _]]]; [lia | | lia].
      rewrite <- H. apply ascii_nat_embedding.
  - split.
    + intros H. right. right. split; [lia|].
      rewrite H. rewrite nat_ascii_embedding by lia. reflexivity.
    + intros [->|[[H _]|[_ H]]]; [lia | lia |].
      rewrite <- H. symmetry. apply ascii_nat_embedding.
  - split.
    + intros H. left. exact H.
    + intros [->|[[H _]|[H _]]]; [reflexivity | lia | lia].
Qed.

Lemma like_percent pat s :
  like (String "%" pat) s = true
  <-> exists run rest, s = run ++ rest /\ like pat rest = true.
Proof.
  rewrite TextFacts.like_percent_unfold.
  induction s as [|c s IH].
  - cbn. rewrite orb_false_r. split.
    + intros H. exists "", "". split; [reflexivity | exact H].
    + intros (run & rest & E & H).
      destruct run; [|discriminate]. cbn in E. subst rest. exact H.
  - cbn. rewrite orb_true_iff. split.
    + intros [H|H].
      * exists "", (String c s). split; [reflexivity | exact H].
      * change (like (String "%" pat) s = true) in H.
        rewrite TextFacts.like_percent_unfold in H.
        apply IH in H as (run & rest & -> & H).
        exists (String c run), rest. split; [reflexivity | exact H].
    + intros (run & rest & E & H). destruct run as [|c' run].
      * cbn in E. subst rest. left. exact H.
      * cbn in E. injection E as -> ->. right.
        change (like (String "%" pat) (run ++ rest) = true).
        rewrite TextFacts.like_percent_unfold. apply IH.
        exists run, rest. split; [reflexivity | exact H].
Qed.

(** The [LIKE] of the model accepts exactly the texts of the pattern's
    language. *)
Lemma like_Matches pat s : like pat s = true <-> Spec.Matches pat s.
Proof.
  split.
  - revert s. induction pat as [|p pat IH]; intros s H.
    + destruct s; [constructor | discriminate].
    + destruct (Ascii.eqb p "%") eqn:Ep.
      * apply Ascii.eqb_eq in Ep. subst p.
        apply like_percent in H as (run & rest & -> & H).
        constructor. apply IH, H.
      * cbn [like] in H. rewrite Ep in H.
        destruct s as [|c s]; [discriminate|].
        apply andb_true_iff in H as [Hc H].
        destruct (Ascii.eqb p "_") eqn:Eu.
        -- apply Ascii.eqb_eq in Eu. subst p. constructor. apply IH, H.
        -- apply Ascii.eqb_neq in Ep. apply Ascii.eqb_neq in Eu.
           apply Ascii.eqb_eq in Hc.
           constructor; [exact Ep | exact Eu | | apply IH, H].
           apply to_lower_same_letter, Hc.
  - induction 1 as [|pat run rest _ IH|pat c rest _ IH
                    |a pat c rest Hp Hu Hc _ IH].
    + reflexivity.
    + apply like_percent. exists run, rest. split; [reflexivity | exact IH].
    + cbn [like]. cbn [Ascii.eqb Bool.eqb]. exact IH.
    + cbn [like]. apply Ascii.eqb_neq in Hp. apply Ascii.eqb_neq in Hu.
      rewrite Hp, Hu, IH.
      apply to_lower_same_letter in Hc. rewrite Hc, Ascii.eqb_refl.
      reflexivity.
Qed.

Lemma like_opt_Matches pat col :
  like_opt pat col = true <-> Spec.Matches_opt pat col.
Proof.
  unfold like_opt, Spec.Matches_opt. destruct col as [s|].
  - rewrite like_Matches. split.
    + intros H. exists s. split; [reflexivity | exact H].
    + intros (s' & [= <-] & H). exact H.
  - split; [discriminate | intros (s' & E & _); discriminate].
Qed.

Local Open Scope list_scope.

Lemma limit_subset {A} n (l : list A) x : In x (Sql.limit n l) -> In x l.
Proof.
  unfold Sql.limit. destruct (n <? 0)%Z; [trivial | apply ThinkFacts.In_firstn].
Qed.

Lemma limit_everything {A} n (l : list A) :
  (Z.of_nat (length l) <= n)%Z -> Sql.limit n l = l.
Proof.
  intros H. unfold Sql.limit. destruct (n <? 0)%Z; [reflexivity|].
  apply firstn_all2. lia.
Qed.

Lemma filter_shorter {A} (f : A -> bool) l : length (filter f l) <= length l.
Proof.
  induction l as [|x l IH]; [reflexivity|].
  cbn [filter]. destruct (f x); cbn [length]; lia.
Qed.

(** Which rows the [WHERE] clause of [search] lets through. *)
Lemma search_where text r :
  Text.like ("%" ++ text ++ "%")%string (Intel.title r)
  || Text.like_opt ("%" ++ text ++ "%")%string (Intel.body r)
  || Text.like_opt ("%" ++ text ++ "%")%string (Intel.source r) = true
  <-> Spec.Matches ("%" ++ text ++ "%")%string (Intel.title r)
      \/ Spec.Matches_opt ("%" ++ text ++ "%")%string (Intel.body r)
      \/ Spec.Matches_opt ("%" ++ text ++ "%")%string (Intel.source r).
Proof.
  rewrite !orb_true_iff, like_Matches, !like_opt_Matches.
  tauto.
Qed.

(** Which rows the [WHERE] clause of the keyword pool lets through. *)
Lemma keyword_where text r :
  Text.like ("%" ++ text ++ "%")%string (Intel.title r)
  || Text.like_opt ("%" ++ text ++ "%")%string (Intel.body r) = true
  <-> Spec.Matches ("%" ++ text ++ "%")%string (Intel.title r)
      \/ Spec.Matches_opt ("%" ++ text ++ "%")%string (Intel.body r).
Proof.
  rewrite !orb_true_iff, like_Matches, like_opt_Matches.
  tauto.
Qed.

Lemma tag_pattern_written tag :
  tag_pattern tag = ("%" ++ Spec.quoted tag ++ "%")%string.
Proof.
  unfold tag_pattern, Spec.quoted. cbn [append]. f_equal. f_equal.
  induction tag as [|c tag IH]; [reflexivity|].
  cbn [append]. f_equal. exact IH.
Qed.

End LikeFacts.

(* ===================================================================== *)
(** ** Ingestion                                                           *)
(* ===================================================================== *)

Module AddFacts.
Import OpenIntel Js.
Local Open Scope list_scope.

(** What [add] has done when the title is present: the row is appended,
    and the vector table is as before unless the gateway answered and the
    index took the vector. *)
Lemma add_outcome this category data now title :
  truthy (Data.title data) = Some title ->
  let id := Sql.next_rowid (map Intel.id (intel (db this)))
              (intel_seq (db this)) in
  let this' := snd (add this category data now) in
  fst (add this category data now) = Return id
  /\ intel (db this')
     = intel (db this) ++ [inserted_row id category title data now]
  /\ (intel_vec (db this') = intel_vec (db this)
      \/ exists cfg vectors,
           embeddingConfig this = Some cfg
           /\ _vecLoaded this = true
           /\ respond cfg (requests this)
                [add_text title (Data.body data)] Document
              = Return vectors
           /\ vec_insert (dimensions this) false id
                (_float32Buffer (hd_error vectors)) (intel_vec (db this))
              = Return (intel_vec (db this'))).
Proof.
  intros Htitle. cbv zeta. unfold add. rewrite Htitle.
  unfold is_configured, _embed. cbn [embeddingConfig _vecLoaded with_db].
  destruct (embeddingConfig this) as [cfg|] eqn:Ecfg;
    [|repeat split; left; reflexivity].
  destruct (_vecLoaded this) eqn:Evec; cbn [andb];
    [|repeat split; left; reflexivity].
  cbn [requests with_db with_requests dimensions db intel_vec].
  destruct (respond cfg (requests this)
              [add_text title (Data.body data)] Document)
    as [vectors|e] eqn:Eresp; [|repeat split; left; reflexivity].
  destruct (vec_insert (dimensions this) false _ _ (intel_vec (db this)))
    as [v'|e] eqn:Eins; [|repeat split; left; reflexivity].
  split; [reflexivity|]. split; [reflexivity|].
  right. exists cfg, vectors. repeat split; assumption.
Qed.

Lemma vec_insert_mismatch dims or_replace id v tbl :
  length v <> dims ->
  exists e, vec_insert dims or_replace id v tbl = Throw e.
Proof.
  intros H. unfold vec_insert.
  destruct (length v =? dims)%nat eqn:E.
  - apply Nat.eqb_eq in E. contradiction.
  - eexists. reflexivity.
Qed.

End AddFacts.

(* ===================================================================== *)
(** ** Reindex: which vector lands on which entry                          *)
(* ===================================================================== *)

Module BatchFacts.
Import OpenIntel Js.
Local Open Scope list_scope.

Lemma filter_other_ids id tbl :
  vec_has id tbl = false ->
  filter (fun r => negb (Vec.intel_id r =? id)%Z) tbl = tbl.
Proof.
  unfold vec_has. induction tbl as [|r tbl IH]; [reflexivity|].
  cbn [existsb filter]. intros H. apply orb_false_iff in H as [H1 H2].
  rewrite H1. cbn [negb]. rewrite IH by assumption. reflexivity.
Qed.

(** [INSERT OR REPLACE] of a vector of the table's dimension: the rows
    of the id go, the new row is appended. *)
Lemma vec_insert_replaces dims id v tbl :
  length v = dims ->
  vec_insert dims true id v tbl
  = Return (filter (fun r => negb (Vec.intel_id r =? id)%Z) tbl
            ++ [Vec.mk id v]).
Proof.
  intros Hlen. unfold vec_insert. rewrite Hlen, Nat.eqb_refl. cbn [negb].
  destruct (vec_has id tbl) eqn:E; [reflexivity|].
  rewrite filter_other_ids by assumption. reflexivity.
Qed.

Lemma replaced_In id v tbl w :
  In w (filter (fun r => negb (Vec.intel_id r =? id)%Z) tbl ++ [Vec.mk id v])
  <-> (In w tbl /\ Vec.intel_id w <> id) \/ w = Vec.mk id v.
Proof.
  rewrite in_app_iff, filter_In, negb_true_iff, Z.eqb_neq. cbn [In].
  split.
  - intros [H|[H|[]]]; [left; exact H | right; symmetry; exact H].
  - intros [H|H]; [left; exact H | right; left; symmetry; exact H].
Qed.

(** A transaction whose vectors all have the table's dimension goes
    through: entry [i] of the batch gets vector [j + i], and no other row
    of its id remains; rows of ids outside the batch are untouched. *)
Lemma insert_batch_lands dims batch : forall j vectors tbl,
  NoDup (map Intel.id batch) ->
  (forall i, i < length batch ->
             length (_float32Buffer (nth_error vectors (j + i))) = dims) ->
  exists tbl',
    insert_batch dims batch j vectors tbl = Return tbl'
    /\ (forall i r,
           nth_error batch i = Some r ->
           In (Vec.mk (Intel.id r) (_float32Buffer (nth_error vectors (j + i))))
              tbl'
           /\ forall w, In w tbl' -> Vec.intel_id w = Intel.id r ->
                        w = Vec.mk (Intel.id r)
                              (_float32Buffer (nth_error vectors (j + i))))
    /\ (forall w, ~ In (Vec.intel_id w) (map Intel.id batch) ->
                  (In w tbl' <-> In w tbl)).
Proof.
  induction batch as [|entry rest IH]; intros j vectors tbl Hnd Hdims.
  - exists tbl. split; [reflexivity|]. split.
    + intros [|i] r H; discriminate.
    + intros w _. reflexivity.
  - cbn [insert_batch].
    assert (H0 : length (_float32Buffer (nth_error vectors j)) = dims).
    { specialize (Hdims 0). rewrite Nat.add_0_r in Hdims.
      apply Hdims. cbn [length]. lia. }
    rewrite (vec_insert_replaces dims _ _ tbl H0).
    cbn [map] in Hnd. apply NoDup_cons_iff in Hnd as [Hfresh Hnd].
    destruct (IH (S j) vectors
                (filter (fun r => negb (Vec.intel_id r =? Intel.id entry)%Z)
                   tbl
                 ++ [Vec.mk (Intel.id entry)
                       (_float32Buffer (nth_error vectors j))])
                Hnd) as (tbl' & Hrun & Hat & Hout).
    { intros i Hi. replace (S j + i) with (j + S i) by lia.
      apply Hdims. cbn [length]. lia. }
    exists tbl'. split; [exact Hrun|]. split.
    + intros [|i] r Hr.
      * cbn [nth_error] in Hr. injection Hr as <-.
        rewrite Nat.add_0_r.
        assert (Hin : forall w, Vec.intel_id w = Intel.id entry ->
                        (In w tbl'
                         <-> w = Vec.mk (Intel.id entry)
                                   (_float32Buffer (nth_error vectors j)))).
        { intros w Hw. rewrite Hout by (rewrite Hw; exact Hfresh).
          rewrite replaced_In. split.
          - intros [[_ Hne]|H]; [contradiction | exact H].
          - intros H. right. exact H. }
        split.
        -- apply Hin; reflexivity.
        -- intros w Hw Hid. apply Hin; assumption.
      * cbn [nth_error] in Hr. replace (j + S i) with (S j + i) by lia.
        apply Hat, Hr.
    + intros w Hw. cbn [map In] in Hw.
      rewrite Hout by tauto. rewrite replaced_In. split.
      * intros [[H _]|H]; [exact H|].
        subst w. cbn [Vec.intel_id] in Hw. tauto.
      * intros H. left. split; [exact H|]. intros E. apply Hw. left.
        symmetry. exact E.
Qed.

(** A vector of another dimension makes the transaction fail. *)
Lemma insert_batch_refused dims batch : forall j vectors tbl i r,
  nth_error batch i = Some r ->
  length (_float32Buffer (nth_error vectors (j + i))) <> dims ->
  exists e, insert_batch dims batch j vectors tbl = Throw e.
Proof.
  induction batch as [|entry rest IH]; intros j vectors tbl i r Hr Hdim.
  - destruct i; discriminate.
  - cbn [insert_batch]. destruct i as [|i].
    + rewrite Nat.add_0_r in Hdim.
      destruct (AddFacts.vec_insert_mismatch dims true (Intel.id entry)
                  _ tbl Hdim) as [e ->].
      exists e. reflexivity.
    + destruct (vec_insert dims true (Intel.id entry) _ tbl) as [tbl1|e];
        [|exists e; reflexivity].
      cbn [nth_error] in Hr.
      apply (IH (S j) vectors tbl1 i r Hr).
      replace (S j + i) with (j + S i) by lia. exact Hdim.
Qed.

(** One batch whose gateway answer has a vector of the index's dimension
    for each entry. *)
Lemma reindex_batch_lands this batch cfg vectors :
  embeddingConfig this = Some cfg ->
  respond cfg (requests this) (map reindex_text batch) Document
  = Return vectors ->
  NoDup (map Intel.id batch) ->
  (forall j, j < length batch ->
             length (_float32Buffer (nth_error vectors j))
             = dimensions this) ->
  let this' := snd (reindex_batch this batch) in
  fst (reindex_batch this batch) = length batch
  /\ intel (db this') = intel (db this)
  /\ (forall j r,
         nth_error batch j = Some r ->
         In (Vec.mk (Intel.id r) (_float32Buffer (nth_error vectors j)))
            (intel_vec (db this'))
         /\ forall w, In w (intel_vec (db this')) ->
                      Vec.intel_id w = Intel.id r ->
                      Vec.embedding w = _float32Buffer (nth_error vectors j))
  /\ (forall w, ~ In (Vec.intel_id w) (map Intel.id batch) ->
                (In w (intel_vec (db this')) <-> In w (intel_vec (db this)))).
Proof.
  intros Hcfg Hresp Hnd Hdims. cbv zeta.
  destruct (insert_batch_lands (dimensions this) batch 0 vectors
              (intel_vec (db this)) Hnd Hdims)
    as (tbl' & Hrun & Hat & Hout).
  unfold reindex_batch, _embed. rewrite Hcfg, Hresp.
  cbn [fst snd dimensions db with_requests]. rewrite Hrun.
  cbn [fst snd db with_db with_intel_vec intel intel_vec].
  split; [reflexivity|]. split; [reflexivity|]. split; [|exact Hout].
  intros j r Hr. destruct (Hat j r Hr) as [Hin Huniq].
  cbn [Nat.add] in Hin, Huniq. split; [exact Hin|].
  intros w Hw Hid. rewrite (Huniq w Hw Hid). reflexivity.
Qed.

(** One batch whose gateway answer has, for some entry, no vector of the
    index's dimension: nothing is embedded. *)
Lemma reindex_batch_refused this batch cfg vectors j r :
  embeddingConfig this = Some cfg ->
  respond cfg (requests this) (map reindex_text batch) Document
  = Return vectors ->
  nth_error batch j = Some r ->
  length (_float32Buffer (nth_error vectors j)) <> dimensions this ->
  fst (reindex_batch this batch) = 0
  /\ db (snd (reindex_batch this batch)) = db this.
Proof.
  intros Hcfg Hresp Hr Hdim.
  destruct (insert_batch_refused (dimensions this) batch 0 vectors
              (intel_vec (db this)) j r Hr Hdim) as [e He].
  unfold reindex_batch, _embed. rewrite Hcfg, Hresp.
  cbn [fst snd dimensions db with_requests]. rewrite He.
  split; reflexivity.
Qed.

Lemma skipn_nth_error {A} (l : list A) : forall j v,
  nth_error l j = Some v -> skipn j l = v :: skipn (S j) l.
Proof.
  induction l as [|x l IH]; intros [|j] v H; try discriminate.
  - injection H as ->. reflexivity.
  - cbn [nth_error] in H. cbn [skipn]. apply IH, H.
Qed.

(** A transaction on entries that have no vector yet appends their
    vectors in the order of the batch. *)
Lemma insert_batch_appends dims batch : forall j (vectors : list vector) tbl,
  NoDup (map Intel.id batch) ->
  (forall r, In r batch -> vec_has (Intel.id r) tbl = false) ->
  (forall i, i < length batch ->
             exists v, nth_error vectors (j + i) = Some v
                       /\ length v = dims) ->
  insert_batch dims batch j vectors tbl
  = Return (tbl ++ map (fun p => Vec.mk (Intel.id (fst p)) (snd p))
                     (combine batch (skipn j vectors))).
Proof.
  induction batch as [|entry rest IH]; intros j vectors tbl Hnd Hnew Hdims.
  - cbn [insert_batch combine map]. rewrite app_nil_r. reflexivity.
  - cbn [insert_batch].
    destruct (Hdims 0) as (v0 & Hv0 & Hlen); [cbn [length]; lia|].
    rewrite Nat.add_0_r in Hv0. rewrite Hv0. cbn [_float32Buffer].
    unfold vec_insert. rewrite Hlen, Nat.eqb_refl. cbn [negb].
    rewrite (Hnew entry) by (left; reflexivity).
    cbn [map] in Hnd. apply NoDup_cons_iff in Hnd as [Hfresh Hnd].
    rewrite (IH (S j) vectors (tbl ++ [Vec.mk (Intel.id entry) v0]) Hnd).
    + rewrite (skipn_nth_error vectors j v0 Hv0).
      cbn [combine map fst snd]. rewrite <- app_assoc. reflexivity.
    + intros r Hr. rewrite ReindexFacts.vec_has_app.
      rewrite (Hnew r) by (right; exact Hr).
      cbn [vec_has existsb Vec.intel_id orb].
      destruct (Intel.id entry =? Intel.id r)%Z eqn:E; [|reflexivity].
      apply Z.eqb_eq in E. exfalso. apply Hfresh. rewrite E.
      apply in_map, Hr.
    + intros i Hi. replace (S j + i) with (j + S i) by lia.
      apply Hdims. cbn [length]. lia.
Qed.

Lemma reindex_batch_appends this batch cfg (vectors : list vector) :
  embeddingConfig this = Some cfg ->
  respond cfg (requests this) (map reindex_text batch) Document
  = Return vectors ->
  NoDup (map Intel.id batch) ->
  (forall r, In r batch -> vec_has (Intel.id r) (intel_vec (db this)) = false) ->
  (forall j, j < length batch ->
             exists v, nth_error vectors j = Some v
                       /\ length v = dimensions this) ->
  intel_vec (db (snd (reindex_batch this batch)))
  = intel_vec (db this)
    ++ map (fun p => Vec.mk (Intel.id (fst p)) (snd p))
         (combine batch vectors).
Proof.
  intros Hcfg Hresp Hnd Hnew Hdims.
  unfold reindex_batch, _embed. rewrite Hcfg, Hresp.
  cbn [fst snd dimensions db with_requests].
  rewrite (insert_batch_appends (dimensions this) batch 0 vectors
             (intel_vec (db this)) Hnd Hnew Hdims).
  reflexivity.
Qed.

Lemma concat_nodup {A B} (f : A -> B) (batches : list (list A)) :
  NoDup (map f (concat batches)) ->
  Forall (fun batch => NoDup (map f batch)) batches.
Proof.
  induction batches as [|b rest IH]; intros H; constructor.
  - cbn [concat] in H. rewrite map_app in H.
    apply NoDup_app_remove_r in H. exact H.
  - apply IH. cbn [concat] in H. rewrite map_app in H.
    apply NoDup_app_remove_l in H. exact H.
Qed.

End BatchFacts.

(* ===================================================================== *)
(** ** The semantic pool                                                   *)
(* ===================================================================== *)

Module PoolFacts.
Import OpenIntel Js.
Local Open Scope list_scope.

Lemma fst_determines {V} (l : list (Z * V)) k a b :
  NoDup (map fst l) -> In (k, a) l -> In (k, b) l -> a = b.
Proof.
  induction l as [|[k0 v0] l IH]; intros Hnd Ha Hb; [destruct Ha|].
  cbn [map fst] in Hnd. apply NoDup_cons_iff in Hnd as [Hfresh Hnd].
  destruct Ha as [Ha|Ha], Hb as [Hb|Hb].
  - congruence.
  - injection Ha as -> _. exfalso. apply Hfresh.
    apply (in_map fst) in Hb. exact Hb.
  - injection Hb as -> _. exfalso. apply Hfresh.
    apply (in_map fst) in Ha. exact Ha.
  - apply IH; assumption.
Qed.

(** A [Map] built from entries with distinct keys holds each entry. *)
Lemma Map_of_get_distinct {V} (l : list (Z * V)) k d :
  NoDup (map fst l) -> In (k, d) l -> Map_get k (Map_of l) = Some d.
Proof.
  intros Hnd Hin.
  destruct (RuntimeFacts.Map_of_defined k l) as (d' & Hget & Hin').
  - apply (in_map fst) in Hin. exact Hin.
  - rewrite Hget. f_equal. apply (fst_determines l k); assumption.
Qed.

(** The index's answer as a permutation of its rows. *)
Lemma ranked_perm this q :
  Permutation (Sql.order_by_asc_num snd (rev (Spec.scanned this q)))
    (map (fun v => (Vec.intel_id v, vec_distance this q (Vec.embedding v)))
       (intel_vec (db this))).
Proof.
  eapply Permutation_trans;
    [apply SearchFacts.order_by_asc_num_perm
    |apply Permutation_sym, Permutation_rev].
Qed.

Lemma ranked_nodup this q k :
  NoDup (map Vec.intel_id (intel_vec (db this))) ->
  NoDup (map fst (firstn k
                    (Sql.order_by_asc_num snd (rev (Spec.scanned this q))))).
Proof.
  intros Hnd. rewrite <- firstn_map. apply ThinkFacts.NoDup_firstn.
  apply (Permutation_NoDup
           (Permutation_sym (Permutation_map fst (ranked_perm this q)))).
  rewrite map_map. cbn [fst]. exact Hnd.
Qed.

(** The semantic pool of [think] when the gateway answers with a vector
    of the index's dimension and [2 * limit] is within the index's
    bound. *)
Lemma think_semantic_ready this queryText limit cfg vectors :
  embeddingConfig this = Some cfg ->
  _vecLoaded this = true ->
  respond cfg (requests this) [queryText] Query = Return vectors ->
  length (_float32Buffer (hd_error vectors)) = dimensions this ->
  (0 <= limit * 2 <= Sql.knn_k_max)%Z ->
  fst (think_semantic this queryText limit)
  = Map_of (map (fun r => (fst r, similarity_of (snd r)))
              (firstn (Z.to_nat (limit * 2))
                 (Sql.order_by_asc_num snd
                    (rev (Spec.scanned this
                            (_float32Buffer (hd_error vectors))))))).
Proof.
  intros Hcfg Hvec Hresp Hdim Hk.
  unfold think_semantic, is_configured, _embed. rewrite Hcfg, Hvec, Hresp.
  cbn [andb].
  rewrite SearchFacts.vec_nearest_ok by assumption.
  reflexivity.
Qed.

(** The semantic pool is empty as soon as the index refuses the scan. *)
Lemma think_semantic_refused this queryText limit cfg vectors :
  embeddingConfig this = Some cfg ->
  respond cfg (requests this) [queryText] Query = Return vectors ->
  (exists e, vec_nearest this (_float32Buffer (hd_error vectors)) (limit * 2)
             = Throw e) ->
  fst (think_semantic this queryText limit) = [].
Proof.
  intros Hcfg Hresp [e He].
  unfold think_semantic, _embed. rewrite Hcfg, Hresp.
  destruct (_ && _); [|reflexivity].
  change (vec_nearest (with_requests (S (requests this)) this))
    with (vec_nearest this).
  rewrite He. reflexivity.
Qed.

End PoolFacts.

(* ===================================================================== *)
(** ** The claims of the specification                                     *)
(* ===================================================================== *)

Import OpenIntel.
Local Open Scope list_scope.

(** C3 (as stated, refuted). [search] is not a case-sensitive substring
    test: on a store whose first entry reads "AAPL looking strong", the
    query "aapl" returns that entry although none of its title, body and
    source contains "aapl". *)
Lemma search_ignores_letter_case :
  exists r,
    In r (search Examples.keyword_store "aapl" 10)
    /\ Spec.mentions "aapl" r = false.
Proof.
  eexists. split; [left; reflexivity | reflexivity].
Qed.

(** C3 (amended). For a text free of [%] and [_] and a non-negative limit,
    [search] returns exactly the entries whose title or body or source
    contains the text up to ASCII letter case, newest first, cut after
    [limit] entries. *)
Theorem search_nocase_newest_first (this : t) (text : string) (limit : Z) :
  Text.has_wildcard text = false ->
  (0 <= limit)%Z ->
  exists ranked,
    Permutation ranked
      (filter (Spec.mentions_nocase text) (intel (db this)))
    /\ StronglySorted Spec.newest_first ranked
    /\ search this text limit = firstn (Z.to_nat limit) ranked.
Proof.
  intros Hw Hl.
  exists (Sql.order_by_desc Intel.created_at
            (filter (Spec.mentions_nocase text) (intel (db this)))).
  split; [apply SearchFacts.order_by_desc_perm|].
  split; [apply SearchFacts.order_by_desc_sorted|].
  unfold search. rewrite SearchFacts.limit_nonneg by assumption.
  do 2 f_equal. apply filter_ext. intros r. unfold Spec.mentions_nocase.
  rewrite TextFacts.like_contains_nocase by assumption.
  rewrite !SearchFacts.like_opt_contains_nocase by assumption.
  reflexivity.
Qed.

(** The hypotheses of C3 (amended) hold for the text "rate cut" with limit
    10 on the keyword-only store. *)
Lemma search_nocase_newest_first_witness :
  Text.has_wildcard "rate cut" = false
  /\ (0 <= 10)%Z
  /\ exists ranked,
       Permutation ranked
         (filter (Spec.mentions_nocase "rate cut")
            (intel (db Examples.keyword_store)))
       /\ StronglySorted Spec.newest_first ranked
       /\ search Examples.keyword_store "rate cut" 10
          = firstn (Z.to_nat 10) ranked.
Proof.
  split; [reflexivity|]. split; [lia|].
  apply (search_nocase_newest_first Examples.keyword_store "rate cut" 10);
    [reflexivity | lia].
Defined.

(** C10. [%] and [_] in the text are wildcards of [LIKE], not literal
    characters. [search] returns stored entries whose title, body or
    source is in the language of the pattern [%text%], where [%] stands
    for any run of characters and [_] for any one character, and with a
    limit that covers the table it returns every such entry; the keyword
    pool of [think] does the same on title and body, and the tag filter
    of [query] on the serialized tags with the tag between double quotes.
    On the store of two entries, "A_PL" and "A%g" each select the first
    entry alone, for [search] and for the keyword pool, although none of
    its title, body and source contains the text, and the tags "f_d" and
    "f%d" each select the second entry alone, although its serialized
    tags contain neither. *)
Theorem like_wildcards_are_interpreted :
  (forall this text limit r,
      In r (search this text limit) ->
      In r (intel (db this))
      /\ (Spec.Matches ("%" ++ text ++ "%")%string (Intel.title r)
          \/ Spec.Matches_opt ("%" ++ text ++ "%")%string (Intel.body r)
          \/ Spec.Matches_opt ("%" ++ text ++ "%")%string (Intel.source r)))
  /\ (forall this text limit r,
         (Z.of_nat (length (intel (db this))) <= limit)%Z ->
         In r (intel (db this)) ->
         Spec.Matches ("%" ++ text ++ "%")%string (Intel.title r)
         \/ Spec.Matches_opt ("%" ++ text ++ "%")%string (Intel.body r)
         \/ Spec.Matches_opt ("%" ++ text ++ "%")%string (Intel.source r) ->
         In r (search this text limit))
  /\ (forall this text limit id,
         In id (Js.Map_keys (think_keyword this text limit)) ->
         exists r,
           In r (intel (db this)) /\ Intel.id r = id
           /\ (Spec.Matches ("%" ++ text ++ "%")%string (Intel.title r)
               \/ Spec.Matches_opt ("%" ++ text ++ "%")%string
                    (Intel.body r)))
  /\ (forall this text limit r,
         (Z.of_nat (length (intel (db this))) <= 2 * limit)%Z ->
         In r (intel (db this)) ->
         Spec.Matches ("%" ++ text ++ "%")%string (Intel.title r)
         \/ Spec.Matches_opt ("%" ++ text ++ "%")%string (Intel.body r) ->
         In (Intel.id r) (Js.Map_keys (think_keyword this text limit)))
  /\ (forall this category options tag r,
         Options.tag options = Some tag -> tag <> ""%string ->
         In r (query this category options) ->
         In r (intel (db this))
         /\ Spec.Matches ("%" ++ Spec.quoted tag ++ "%")%string
              (Intel.tags r))
  /\ (forall this limit tag r,
         (Z.of_nat (length (intel (db this))) <= limit)%Z ->
         tag <> ""%string ->
         In r (intel (db this)) ->
         Spec.Matches ("%" ++ Spec.quoted tag ++ "%")%string (Intel.tags r) ->
         In r (query this "all" (Options.mk (Some limit) None (Some tag))))
  /\ exists first second,
       intel (db Examples.keyword_store) = [first; second]
       /\ Intel.id first <> Intel.id second
       /\ search Examples.keyword_store "A_PL" 10 = [first]
       /\ Spec.mentions "A_PL" first = false
       /\ search Examples.keyword_store "A%g" 10 = [first]
       /\ Spec.mentions "A%g" first = false
       /\ Js.Map_keys (think_keyword Examples.keyword_store "A_PL" 10)
          = [Intel.id first]
       /\ Js.Map_keys (think_keyword Examples.keyword_store "A%g" 10)
          = [Intel.id first]
       /\ query Examples.keyword_store "all"
            (Options.mk None None (Some "f_d"%string))
          = [second]
       /\ Text.contains "f_d" (Intel.tags second) = false
       /\ query Examples.keyword_store "all"
            (Options.mk None None (Some "f%d"%string))
          = [second]
       /\ Text.contains "f%d" (Intel.tags second) = false.
Proof.
  split; [|split; [|split; [|split; [|split; [|split]]]]].
  - intros this text limit r Hin. unfold search in Hin.
    apply LikeFacts.limit_subset in Hin.
    apply (Permutation_in _ (SearchFacts.order_by_desc_perm _ _)) in Hin.
    apply filter_In in Hin as [Hin Hkeep].
    split; [exact Hin | apply LikeFacts.search_where, Hkeep].
  - intros this text limit r Hlimit Hin Hm. unfold search.
    rewrite LikeFacts.limit_everything.
    + apply (Permutation_in _
               (Permutation_sym (SearchFacts.order_by_desc_perm _ _))).
      apply filter_In. split; [exact Hin | apply LikeFacts.search_where, Hm].
    + rewrite (Permutation_length (SearchFacts.order_by_desc_perm _ _)).
      pose proof (LikeFacts.filter_shorter
                    (fun r =>
                       Text.like ("%" ++ text ++ "%")%string (Intel.title r)
                       || Text.like_opt ("%" ++ text ++ "%")%string
                            (Intel.body r)
                       || Text.like_opt ("%" ++ text ++ "%")%string
                            (Intel.source r))
                    (intel (db this))).
      lia.
  - intros this text limit id Hin.
    apply ThinkFacts.think_keyword_keys in Hin.
    apply in_map_iff in Hin as (r & Hid & Hin).
    unfold Spec.keyword_rows in Hin. apply LikeFacts.limit_subset in Hin.
    apply filter_In in Hin as [Hin Hkeep].
    exists r. split; [exact Hin|]. split; [exact Hid|].
    apply LikeFacts.keyword_where, Hkeep.
  - intros this text limit r Hlimit Hin Hm.
    apply ThinkFacts.think_keyword_keys. apply in_map.
    unfold Spec.keyword_rows. rewrite LikeFacts.limit_everything.
    + apply filter_In. split; [exact Hin | apply LikeFacts.keyword_where, Hm].
    + pose proof (LikeFacts.filter_shorter
                    (fun r =>
                       Text.like ("%" ++ text ++ "%")%string (Intel.title r)
                       || Text.like_opt ("%" ++ text ++ "%")%string
                            (Intel.body r))
                    (intel (db this))).
      lia.
  - intros this category options tag r Htag Hne Hin. unfold query in Hin.
    apply LikeFacts.limit_subset in Hin.
    apply (Permutation_in _ (SearchFacts.order_by_desc_perm _ _)) in Hin.
    apply filter_In in Hin as [Hin Hkeep].
    split; [exact Hin|].
    apply andb_true_iff in Hkeep as [_ Hkeep].
    rewrite Htag in Hkeep.
    destruct tag as [|c tag]; [congruence|]. cbn [Js.truthy] in Hkeep.
    rewrite LikeFacts.tag_pattern_written in Hkeep.
    apply LikeFacts.like_Matches, Hkeep.
  - intros this limit tag r Hlimit Hne Hin Hm. unfold query.
    cbn [Options.limit Options.since Options.tag].
    rewrite LikeFacts.limit_everything.
    + apply (Permutation_in _
               (Permutation_sym (SearchFacts.order_by_desc_perm _ _))).
      apply filter_In. split; [exact Hin|].
      destruct tag as [|c tag]; [congruence|]. cbn [Js.truthy].
      rewrite LikeFacts.tag_pattern_written.
      apply LikeFacts.like_Matches in Hm. rewrite Hm. reflexivity.
    + rewrite (Permutation_length (SearchFacts.order_by_desc_perm _ _)).
      match goal with
      | |- context [filter ?f ?l] =>
          pose proof (LikeFacts.filter_shorter f l)
      end.
      lia.
  - eexists. eexists.
    split; [reflexivity|]. split; [discriminate|].
    repeat (split; [vm_compute; reflexivity|]).
    vm_compute; reflexivity.
Qed.

(** C7 (as stated, refuted). The tag filter is not a raw substring test
    on the serialized tag list: "ed" occurs in the serialization
    ["fed","macro"] of an entry, yet [query] with the tag "ed" returns
    nothing. *)
Lemma tag_filter_rejects_bare_substring :
  (exists r,
      In r (intel (db Examples.keyword_store))
      /\ Text.contains "ed" (Intel.tags r) = true)
  /\ query Examples.keyword_store "all" (Options.mk None None (Some "ed"))
     = [].
Proof.
  split; [|reflexivity].
  eexists. split; [right; left; reflexivity | reflexivity].
Qed.

(** C7 (amended). For a non-empty tag free of [%] and [_], the tag filter
    of [query] keeps an entry if and only if the tag enclosed in double
    quotes occurs in the entry's serialized tag list, up to ASCII letter
    case. (The limit is taken large enough not to cut the listing.) *)
Theorem tag_filter_matches_quoted_tag
    (this : t) (tag : string) (limit : Z) (r : Intel.row) :
  tag <> "" ->
  Text.has_wildcard tag = false ->
  (Z.of_nat (length (intel (db this))) <= limit)%Z ->
  In r (query this "all" (Options.mk (Some limit) None (Some tag)))
  <-> In r (intel (db this))
      /\ Text.contains_nocase (Spec.quoted tag) (Intel.tags r) = true.
Proof.
  intros Hne Hw Hl. unfold query. cbn [Options.limit Options.since Options.tag].
  assert (Js.truthy (Some tag) = Some tag) as ->
    by (destruct tag; [congruence | reflexivity]).
  cbn [Js.truthy String.eqb andb].
  set (keep := fun r0 : Intel.row => _).
  assert (Hkeep : forall r0, keep r0
                  = Text.contains_nocase (Spec.quoted tag) (Intel.tags r0)).
  { intros r0. unfold keep.
    rewrite SearchFacts.tag_pattern_quoted.
    apply TextFacts.like_contains_nocase, SearchFacts.quoted_no_wildcard, Hw. }
  rewrite SearchFacts.limit_nonneg by lia.
  rewrite firstn_all2.
  - rewrite <- Hkeep, <- filter_In.
    split; apply Permutation_in;
      [| symmetry]; apply SearchFacts.order_by_desc_perm.
  - rewrite (Permutation_length (SearchFacts.order_by_desc_perm _ _)).
    pose proof (filter_length_le keep (intel (db this))). lia.
Qed.

(** The hypotheses of C7 (amended) hold for the tag "fed" with limit 20 on
    the keyword-only store. *)
Lemma tag_filter_matches_quoted_tag_witness :
  "fed" <> ""
  /\ Text.has_wildcard "fed" = false
  /\ (Z.of_nat (length (intel (db Examples.keyword_store))) <= 20)%Z
  /\ forall r,
       In r (query Examples.keyword_store "all"
               (Options.mk (Some 20%Z) None (Some "fed")))
       <-> In r (intel (db Examples.keyword_store))
           /\ Text.contains_nocase (Spec.quoted "fed") (Intel.tags r) = true.
Proof.
  split; [discriminate|]. split; [reflexivity|].
  split; [vm_compute; discriminate|].
  intros r.
  apply (tag_filter_matches_quoted_tag Examples.keyword_store "fed" 20 r);
    [discriminate | reflexivity | vm_compute; discriminate].
Defined.

(** C9 (as stated, refuted). A resolved trade can be resolved again:
    after [resolveTrade(1, "win", 350)], the call
    [resolveTrade(1, "loss", -100)] replaces the outcome, the pnl and the
    resolved timestamp of trade 1. *)
Lemma resolved_trade_is_overwritten :
  let won :=
    resolveTrade Examples.one_trade 1 "win" 350 "2024-03-02 16:00:00" in
  let lost := resolveTrade won 1 "loss" (-100) "2024-03-03 16:00:00" in
  (exists r,
      Session.trade_by_id won 1 = Some r
      /\ Trade.outcome r = Some "win"
      /\ Trade.pnl_cents r = Some 350%Z
      /\ Trade.resolved_at r = Some "2024-03-02 16:00:00")
  /\ (exists r,
         Session.trade_by_id lost 1 = Some r
         /\ Trade.outcome r = Some "loss"
         /\ Trade.pnl_cents r = Some (-100)%Z
         /\ Trade.resolved_at r = Some "2024-03-03 16:00:00").
Proof.
  split; eexists; (split; [reflexivity|]); repeat split.
Qed.

(** C9 (amended). A trade is created open, with outcome, pnl and resolved
    timestamp null; [resolveTrade] on its id sets the three of them,
    whether or not the trade was resolved before; and no call other than
    a [resolveTrade] on its id changes the trade's row. *)
Theorem trade_lifecycle (this : t) :
  (forall data now,
      exists r,
        trades (db (snd (addTrade this data now)))
        = trades (db this) ++ [r]
        /\ Trade.id r = fst (addTrade this data now)
        /\ Trade.outcome r = None
        /\ Trade.pnl_cents r = None
        /\ Trade.resolved_at r = None)
  /\ (forall id outcome pnl_cents now r,
         Session.trade_by_id this id = Some r ->
         exists r',
           Session.trade_by_id (resolveTrade this id outcome pnl_cents now) id
           = Some r'
           /\ Trade.outcome r' = Some outcome
           /\ Trade.pnl_cents r' = Some pnl_cents
           /\ Trade.resolved_at r' = Some now)
  /\ (forall c id r,
         Session.trade_by_id this id = Some r ->
         Session.resolves c id = false ->
         Session.trade_by_id (Session.run c this) id = Some r).
Proof.
  split; [|split].
  - intros data now. eexists. split; [reflexivity|]. repeat split.
  - intros id outcome pnl now r Hr.
    exists (resolve_row id outcome pnl now r). split.
    + apply TradeFacts.find_resolve_same, Hr.
    + assert ((Trade.id r =? id)%Z = true) as E
        by (apply find_some in Hr; apply Hr).
      unfold resolve_row. rewrite E. repeat split.
  - intros c id r Hr Hc. unfold Session.trade_by_id in *.
    destruct c; cbn [Session.run]; try exact Hr.
    + rewrite TradeFacts.add_trades. exact Hr.
    + rewrite TradeFacts.semantic_db. exact Hr.
    + rewrite TradeFacts.think_db. exact Hr.
    + destruct (ReindexFacts.reindex_frame this) as (_ & _ & _ & _ & ->).
      exact Hr.
    + cbn. apply TradeFacts.find_app_some, Hr.
    + cbn. rewrite TradeFacts.find_resolve_other; [exact Hr|].
      cbn in Hc. apply Z.eqb_neq in Hc. exact Hc.
Qed.

(** C9 (amended) at work: a resolved trade is unchanged by [reindex]. *)
Lemma trade_lifecycle_witness :
  let won :=
    resolveTrade Examples.one_trade 1 "win" 350 "2024-03-02 16:00:00" in
  exists r,
    Session.trade_by_id won 1 = Some r
    /\ Session.resolves Session.Call_reindex 1 = false
    /\ Session.trade_by_id (Session.run Session.Call_reindex won) 1 = Some r.
Proof.
  intros won. eexists.
  split; [reflexivity|]. split; [reflexivity|].
  apply (trade_lifecycle won); reflexivity.
Defined.

(** C2 (as stated, refuted). Without the vector extension, [semantic] and
    [reindex] fail with a plain [Error]: the exception is neither a
    [CapabilityError] nor a [ConfigurationError]. *)
Lemma capability_failures_are_plain_errors :
  (exists e,
      fst (semantic Examples.no_extension_store "rate cut" 10) = Js.Throw e
      /\ Js.name e = "Error"
      /\ Js.name e <> "CapabilityError")
  /\ (exists e,
         fst (reindex Examples.no_extension_store) = Js.Throw e
         /\ Js.name e = "Error"
         /\ Js.name e <> "ConfigurationError").
Proof.
  split; eexists; (split; [reflexivity|]); split;
    [reflexivity | discriminate | reflexivity | discriminate].
Qed.

(** C2 (amended). When the vector extension is not loaded, [semantic] and
    [reindex] fail with a plain [Error] and leave the handle as it was:
    the message is "No embedding provider configured" when no provider is
    configured, and the "sqlite-vec not loaded" message of the method
    otherwise; [search] does not depend on the vector capability, so it
    returns what it returns on any handle with the same entries. When no
    provider is configured, [semantic] fails with the [Error] "No
    embedding provider configured". *)
Theorem vector_capability_unavailable (this : t) :
  (_vecLoaded this = false ->
     (forall queryText limit,
         semantic this queryText limit
         = (Js.Throw
              (Js.Error
                 (if is_configured this
                  then "sqlite-vec not loaded — semantic search unavailable"
                  else "No embedding provider configured")),
            this))
     /\ reindex this
        = (Js.Throw
             (Js.Error
                (if is_configured this
                 then "sqlite-vec not loaded"
                 else "No embedding provider configured")),
           this)
     /\ (forall other text limit,
            intel (db other) = intel (db this) ->
            search this text limit = search other text limit))
  /\ (embeddingConfig this = None ->
      forall queryText limit,
        semantic this queryText limit
        = (Js.Throw (Js.Error "No embedding provider configured"), this)).
Proof.
  split.
  - intros Hvec. split; [|split].
    + intros queryText limit. unfold semantic. rewrite Hvec.
      destruct (is_configured this); reflexivity.
    + unfold reindex. rewrite Hvec.
      destruct (is_configured this); reflexivity.
    + intros other text limit Hdb. unfold search. rewrite Hdb. reflexivity.
  - intros Hcfg queryText limit. unfold semantic, is_configured.
    rewrite Hcfg. reflexivity.
Qed.

(** C2 (amended) at work on a store without the vector extension and on
    a store without a provider. *)
Lemma vector_capability_unavailable_witness :
  _vecLoaded Examples.no_extension_store = false
  /\ embeddingConfig Examples.keyword_store = None
  /\ fst (semantic Examples.no_extension_store "rate cut" 10)
     = Js.Throw
         (Js.Error "sqlite-vec not loaded — semantic search unavailable")
  /\ fst (reindex Examples.no_extension_store)
     = Js.Throw (Js.Error "sqlite-vec not loaded")
  /\ search Examples.no_extension_store "rate cut" 10
     = search Examples.vector_store "rate cut" 10
  /\ fst (semantic Examples.keyword_store "rate cut" 10)
     = Js.Throw (Js.Error "No embedding provider configured").
Proof.
  split; [reflexivity|]. split; [reflexivity|].
  destruct (vector_capability_unavailable Examples.no_extension_store)
    as [Hvec _].
  destruct (Hvec eq_refl) as (Hsem & Hre & Hsearch).
  destruct (vector_capability_unavailable Examples.keyword_store)
    as [_ Hcfg].
  split; [rewrite Hsem; reflexivity|].
  split; [rewrite Hre; reflexivity|].
  split; [apply Hsearch; reflexivity|].
  rewrite (Hcfg eq_refl). reflexivity.
Defined.

(** C4. With a title present, [add] returns the new id, larger than
    every id of the table, and appends to the table one row with that id
    and with every column as given: the category, the title, body, source
    and expiry date (absent when empty), the tags as a JSON array (the
    empty one by default), the confidence (0.5 by default), the
    actionable flag as 1 or 0, the metadata ([{}] by default) and the
    time of the call. This holds whatever happens in the embedding step:
    when no provider is configured, when the vector index is
    unavailable, when the gateway fails and when the vector insert
    fails (as it does for a vector of another dimension), the call still
    returns the id, the vector table is as before, and the entry
    stays. *)
Theorem add_survives_embedding_failure
    (this : t) (category : string) (data : Data.t) (now title : string) :
  Js.truthy (Data.title data) = Some title ->
  let id := fst (add this category data now) in
  let this' := snd (add this category data now) in
  let or_null (s : option string) :=
    match s with Some ""%string => None | _ => s end in
  exists r,
    id = Js.Return (Intel.id r)
    /\ intel (db this') = intel (db this) ++ [r]
    /\ (forall r0, In r0 (intel (db this)) -> (Intel.id r0 < Intel.id r)%Z)
    /\ Intel.title r = title
    /\ Intel.category r = category
    /\ Intel.body r = or_null (Data.body data)
    /\ Intel.source r = or_null (Data.source data)
    /\ Intel.tags r
       = Text.stringify_array
           (match Data.tags data with Some l => l | None => [] end)
    /\ Intel.confidence r
       = match Data.confidence data with Some c => c | None => (5 # 10)%Q end
    /\ Intel.actionable r = (if Data.actionable data then 1%Z else 0%Z)
    /\ Intel.metadata r
       = match Data.metadata data with Some m => m | None => "{}"%string end
    /\ Intel.created_at r = now
    /\ Intel.expires_at r = or_null (Data.expires_at data)
    /\ trades (db this') = trades (db this)
    /\ (embeddingConfig this = None ->
        intel_vec (db this') = intel_vec (db this)
        /\ vectored this' = vectored this)
    /\ (_vecLoaded this = false ->
        intel_vec (db this') = intel_vec (db this))
    /\ (forall cfg e,
           embeddingConfig this = Some cfg ->
           respond cfg (requests this)
             [add_text title (Data.body data)] Document = Js.Throw e ->
           intel_vec (db this') = intel_vec (db this))
    /\ (forall cfg vectors e,
           embeddingConfig this = Some cfg ->
           respond cfg (requests this)
             [add_text title (Data.body data)] Document = Js.Return vectors ->
           vec_insert (dimensions this) false (Intel.id r)
             (_float32Buffer (hd_error vectors)) (intel_vec (db this))
           = Js.Throw e ->
           intel_vec (db this') = intel_vec (db this))
    /\ (forall cfg vectors,
           embeddingConfig this = Some cfg ->
           respond cfg (requests this)
             [add_text title (Data.body data)] Document = Js.Return vectors ->
           length (_float32Buffer (hd_error vectors)) <> dimensions this ->
           intel_vec (db this') = intel_vec (db this)).
Proof.
  intros Htitle. cbv beta zeta.
  destruct (AddFacts.add_outcome this category data now title Htitle)
    as (Hid & Hintel & Hvec).
  exists (inserted_row (Sql.next_rowid (map Intel.id (intel (db this)))
                          (intel_seq (db this))) category title data now).
  split; [exact Hid|]. split; [exact Hintel|].
  split.
  { intros r0 Hr0. cbn [Intel.id inserted_row].
    pose proof (InvariantFacts.next_rowid_fresh
                  (map Intel.id (intel (db this))) (intel_seq (db this))
                  (Intel.id r0) (in_map Intel.id _ _ Hr0)).
    lia. }
  do 10 (split; [reflexivity|]).
  split; [apply (TradeFacts.add_trades this category data now)|].
  cbn [Intel.id inserted_row].
  split; [|split; [|split; [|split]]].
  - intros Hnone.
    assert (Hsame : intel_vec (db (snd (add this category data now)))
                    = intel_vec (db this)).
    { destruct Hvec as [H|(cfg & _ & Hcfg & _)]; [exact H | congruence]. }
    split; [exact Hsame|].
    unfold vectored. rewrite Hsame.
    unfold add. rewrite Htitle. cbv zeta.
    unfold is_configured. cbn [embeddingConfig with_db]. rewrite Hnone.
    reflexivity.
  - intros Hoff.
    destruct Hvec as [H|(cfg & _ & _ & Hon & _)]; [exact H | congruence].
  - intros cfg e Hcfg Hresp.
    destruct Hvec as [H|(cfg' & vectors & Hcfg' & _ & Hresp' & _)];
      [exact H | congruence].
  - intros cfg vectors e Hcfg Hresp Hins.
    destruct Hvec as [H|(cfg' & vectors' & Hcfg' & _ & Hresp' & Hins')];
      [exact H|].
    rewrite Hcfg in Hcfg'. injection Hcfg' as <-.
    rewrite Hresp in Hresp'. injection Hresp' as <-.
    rewrite Hins in Hins'. discriminate.
  - intros cfg vectors Hcfg Hresp Hdim.
    destruct Hvec as [H|(cfg' & vectors' & Hcfg' & _ & Hresp' & Hins')];
      [exact H|].
    rewrite Hcfg in Hcfg'. injection Hcfg' as <-.
    rewrite Hresp in Hresp'. injection Hresp' as <-.
    destruct (AddFacts.vec_insert_mismatch (dimensions this) false
                (Sql.next_rowid (map Intel.id (intel (db this)))
                   (intel_seq (db this)))
                _ (intel_vec (db this)) Hdim) as [e He].
    rewrite He in Hins'. discriminate.
Qed.

(** C4 at work: [add] while the provider is down. *)
Lemma add_survives_embedding_failure_witness :
  Js.truthy (Data.title Examples.signal) = Some "Test signal"
  /\ exists r,
       fst (add (Examples.fresh (Some Examples.down_provider) true)
              "market" Examples.signal "2024-03-01 09:00:00")
       = Js.Return (Intel.id r)
       /\ intel (db (snd (add (Examples.fresh (Some Examples.down_provider) true)
                            "market" Examples.signal "2024-03-01 09:00:00")))
          = [r]
       /\ Intel.body r = Some "AAPL looking strong"
       /\ Intel.created_at r = "2024-03-01 09:00:00"
       /\ intel_vec (db (snd (add (Examples.fresh
                                     (Some Examples.down_provider) true)
                                "market" Examples.signal
                                "2024-03-01 09:00:00")))
          = [].
Proof.
  split; [reflexivity|].
  destruct (add_survives_embedding_failure
              (Examples.fresh (Some Examples.down_provider) true)
              "market" Examples.signal "2024-03-01 09:00:00" "Test signal"
              eq_refl)
    as (r & Hid & Hintel & _ & _ & _ & Hbody & _ & _ & _ & _ & _ & Hat
        & _ & _ & _ & _ & Hgw & _).
  exists r. split; [exact Hid|]. split; [exact Hintel|].
  split; [exact Hbody|]. split; [exact Hat|].
  apply (Hgw Examples.down_provider
           (Js.Error "Embedding API 503: unavailable"));
    reflexivity.
Defined.

(** C5. With a provider and the vector index available, [reindex] takes
    the entries that have no vector (entries minus vectors); when there is
    none it returns [{embedded: 0, total: 0}] at once, leaving the handle
    untouched. Otherwise it handles the missing entries in consecutive
    batches of 128 (the last one possibly shorter), one after the other.
    Each batch sends one gateway request, whose texts are composed as
    [add] composes them (for a row stored by [add], the very text [add]
    sent), and is all or nothing: either all of its entries
    get a vector and the batch counts for its length, or the tables are as
    before and it counts for 0. The latter is what happens when the
    gateway fails, and when its answer lacks a vector of the index's
    dimension for some entry of the batch. When the answer has such a
    vector for every entry of a batch of distinct entries that have no
    vector yet, the batch lands: it counts for its length, the vector
    table grows by one row per entry, in the order of the batch, entry
    [j] of the batch holding vector [j] of the answer and no other, and
    the vectors of entries outside the batch are as before. The batches
    of a table with distinct ids have distinct ids. The result reports
    the sum of these counts and the number of missing entries. *)
Theorem reindex_in_batches (this : t) :
  is_configured this = true ->
  _vecLoaded this = true ->
  let missing := missing_embeddings (db this) in
  let batches := Spec.chunks 128 missing in
  (forall r,
      In r missing
      <-> In r (intel (db this))
          /\ ~ exists v, In v (intel_vec (db this))
                         /\ Vec.intel_id v = Intel.id r)
  /\ (missing = [] ->
      reindex this = (Js.Return {| embedded := 0; total := 0 |}, this))
  /\ (missing <> [] ->
      reindex this
      = (Js.Return {| embedded := fst (Spec.run_batches this batches);
                      total := length missing |},
         snd (Spec.run_batches this batches)))
  /\ concat batches = missing
  /\ Forall (fun batch => 0 < length batch <= 128) batches
  /\ (NoDup (map Intel.id (intel (db this))) ->
      Forall (fun batch => NoDup (map Intel.id batch)) batches)
  /\ (forall id category title data now,
         reindex_text (inserted_row id category title data now)
         = add_text title (Data.body data))
  /\ forall (s : t) (batch : list Intel.row) (cfg : embedding),
       embeddingConfig s = Some cfg ->
       let answer :=
         respond cfg (requests s)
           (map (fun r => add_text (Intel.title r) (Intel.body r)) batch)
           Document in
       let n := fst (reindex_batch s batch) in
       let s' := snd (reindex_batch s batch) in
       requests s' = S (requests s)
       /\ ((n = length batch
            /\ forall r, In r batch ->
                 vec_has (Intel.id r) (intel_vec (db s')) = true)
           \/ (n = 0 /\ db s' = db s))
       /\ (forall e, answer = Js.Throw e -> n = 0 /\ db s' = db s)
       /\ (forall vectors,
              answer = Js.Return vectors ->
              NoDup (map Intel.id batch) ->
              (forall r w, In r batch -> In w (intel_vec (db s)) ->
                           Vec.intel_id w <> Intel.id r) ->
              (forall j, j < length batch ->
                         exists v, nth_error vectors j = Some v
                                   /\ length v = dimensions s) ->
              n = length batch
              /\ intel (db s') = intel (db s)
              /\ intel_vec (db s')
                 = intel_vec (db s)
                   ++ map (fun p => Vec.mk (Intel.id (fst p)) (snd p))
                        (combine batch vectors)
              /\ (forall j r v,
                     nth_error batch j = Some r ->
                     nth_error vectors j = Some v ->
                     In (Vec.mk (Intel.id r) v) (intel_vec (db s'))
                     /\ forall w, In w (intel_vec (db s')) ->
                                  Vec.intel_id w = Intel.id r ->
                                  Vec.embedding w = v)
              /\ (forall w,
                     ~ In (Vec.intel_id w) (map Intel.id batch) ->
                     (In w (intel_vec (db s'))
                      <-> In w (intel_vec (db s)))))
       /\ (forall vectors j r,
              answer = Js.Return vectors ->
              nth_error batch j = Some r ->
              length (_float32Buffer (nth_error vectors j))
              <> dimensions s ->
              n = 0 /\ db s' = db s).
Proof.
  intros Hcfg Hvec missing batches.
  split; [|split; [|split; [|split; [|split; [|split; [|split]]]]]].
  - intros r. unfold missing, missing_embeddings.
    rewrite filter_In, negb_true_iff. unfold vec_has.
    split; intros [Hin Hno]; (split; [exact Hin|]).
    + intros (v & Hv & Hid).
      assert (existsb (fun r0 => (Vec.intel_id r0 =? Intel.id r)%Z)
                (intel_vec (db this)) = true) as Ht
        by (apply existsb_exists; exists v; split;
            [exact Hv | apply Z.eqb_eq, Hid]).
      congruence.
    + apply not_true_is_false. intros Ht.
      apply existsb_exists in Ht as (v & Hv & Hid).
      apply Hno. exists v. split; [exact Hv | apply Z.eqb_eq, Hid].
  - intros Hnil. unfold reindex. rewrite Hcfg, Hvec. cbn [negb].
    fold missing. rewrite Hnil. reflexivity.
  - intros Hne. unfold reindex. rewrite Hcfg, Hvec. cbn [negb].
    fold missing. destruct missing as [|r rest] eqn:E; [congruence|].
    rewrite ReindexFacts.reindex_loop_chunks. cbn [skipn].
    unfold Spec.run_batches, batches.
    change OpenIntel.batchSize with 128.
    destruct (Spec.run_batches_from 0 this (Spec.chunks 128 (r :: rest)));
      reflexivity.
  - apply ReindexFacts.concat_chunks. lia.
  - apply ReindexFacts.chunks_sizes. lia.
  - intros Hnd. apply BatchFacts.concat_nodup.
    unfold batches. rewrite ReindexFacts.concat_chunks by lia.
    apply ThinkFacts.NoDup_map_filter, Hnd.
  - intros id category title data now.
    unfold reindex_text, add_text, or_empty, inserted_row.
    cbn [Intel.title Intel.body].
    destruct (Data.body data) as [[|c b]|]; reflexivity.
  - intros s batch cfg Hs answer n s'.
    split; [|split; [|split; [|split]]].
    + apply ReindexFacts.reindex_batch_requests.
      unfold is_configured. rewrite Hs. reflexivity.
    + destruct (ReindexFacts.reindex_batch_atomic s batch)
        as [(Hn & Hall & _)|Hno]; [left | right]; auto.
    + intros e He.
      apply (ReindexFacts.reindex_batch_gateway_failure s batch cfg e Hs He).
    + intros vectors Hanswer Hnd Hnew Hdims.
      assert (Hbuf : forall j, j < length batch ->
                       length (_float32Buffer (nth_error vectors j))
                       = dimensions s).
      { intros j Hj. destruct (Hdims j Hj) as (v & -> & Hv). exact Hv. }
      assert (Hnone : forall r, In r batch ->
                        vec_has (Intel.id r) (intel_vec (db s)) = false).
      { intros r Hr.
        destruct (vec_has (Intel.id r) (intel_vec (db s))) eqn:E;
          [|reflexivity].
        apply InvariantFacts.vec_has_In in E.
        apply in_map_iff in E as (w & Hid & Hw).
        destruct (Hnew r w Hr Hw Hid). }
      destruct (BatchFacts.reindex_batch_lands s batch cfg vectors
                  Hs Hanswer Hnd Hbuf) as (Hn & Hintel & Hat & Hout).
      split; [exact Hn|]. split; [exact Hintel|].
      split; [apply (BatchFacts.reindex_batch_appends s batch cfg vectors
                       Hs Hanswer Hnd Hnone Hdims)|].
      split; [|exact Hout].
      intros j r v Hr Hv. specialize (Hat j r Hr). rewrite Hv in Hat.
      exact Hat.
    + intros vectors j r Hanswer Hr Hdim.
      apply (BatchFacts.reindex_batch_refused s batch cfg vectors j r
               Hs Hanswer Hr Hdim).
Qed.

(** C5 at work: both entries of the recovering store are embedded by one
    batch. *)
Lemma reindex_in_batches_witness :
  is_configured Examples.recovering_store = true
  /\ _vecLoaded Examples.recovering_store = true
  /\ missing_embeddings (db Examples.recovering_store) <> []
  /\ fst (reindex Examples.recovering_store)
     = Js.Return
         {| embedded :=
              fst (Spec.run_batches Examples.recovering_store
                     (Spec.chunks 128
                        (missing_embeddings
                           (db Examples.recovering_store))));
            total := 2 |}
  /\ fst (Spec.run_batches Examples.recovering_store
            (Spec.chunks 128
               (missing_embeddings (db Examples.recovering_store))))
     = 2
  /\ intel_vec (db (snd (reindex Examples.recovering_store)))
     = [Vec.mk 1 [0%Q; 1%Q]; Vec.mk 2 [0%Q; 1%Q]].
Proof.
  split; [reflexivity|]. split; [reflexivity|].
  split; [vm_compute; discriminate|].
  destruct (reindex_in_batches Examples.recovering_store eq_refl eq_refl)
    as (_ & _ & Hrun & _).
  split; [|split; vm_compute; reflexivity].
  rewrite Hrun by (vm_compute; discriminate). reflexivity.
Defined.

(** C8 (as stated, refuted). While the provider is down, a second
    [reindex] right after the first still finds both entries missing and
    returns [{embedded: 0, total: 2}]. *)
Lemma reindex_twice_with_provider_down :
  fst (reindex Examples.unembedded_store)
  = Js.Return {| embedded := 0; total := 2 |}
  /\ fst (reindex (snd (reindex Examples.unembedded_store)))
     = Js.Return {| embedded := 0; total := 2 |}.
Proof. split; vm_compute; reflexivity. Qed.

(** C8 (amended). If a [reindex] call reports that it embedded every
    missing entry ([embedded = total]), then a second call with no
    intervening writes yields [{embedded: 0, total: 0}]. *)
Theorem reindex_twice (this this1 : t) (first : reindex_result) :
  reindex this = (Js.Return first, this1) ->
  embedded first = total first ->
  fst (reindex this1) = Js.Return {| embedded := 0; total := 0 |}.
Proof.
  intros Hrun Hall.
  destruct (ReindexFacts.reindex_frame this) as (Fcfg & _ & Fvec & Fintel & _).
  rewrite Hrun in Fcfg, Fvec, Fintel. cbn [snd] in Fcfg, Fvec, Fintel.
  unfold reindex in Hrun.
  destruct (is_configured this) eqn:Hcfg; [|discriminate].
  destruct (_vecLoaded this) eqn:Hvec; [|discriminate].
  cbn [negb] in Hrun.
  assert (Hcfg1 : is_configured this1 = true)
    by (unfold is_configured in *; rewrite Fcfg; exact Hcfg).
  assert (Hnone : missing_embeddings (db this1) = []).
  { destruct (missing_embeddings (db this)) as [|r rest] eqn:Emiss.
    - injection Hrun as _ <-. exact Emiss.
    - rewrite ReindexFacts.reindex_loop_chunks in Hrun. cbn [skipn] in Hrun.
      destruct (Spec.run_batches_from 0 this
                  (Spec.chunks batchSize (r :: rest)))
        as [n s] eqn:Efold.
      injection Hrun as <- <-. cbn [embedded total] in Hall.
      assert (Hn : 0 < batchSize) by (unfold batchSize; lia).
      pose proof (ReindexFacts.concat_chunks batchSize (r :: rest) Hn)
        as Hconcat.
      pose proof (ReindexFacts.run_batches_complete
                    (Spec.chunks batchSize (r :: rest)) 0 this) as Hdone.
      rewrite Efold, Hconcat in Hdone. cbn [fst snd] in Hdone.
      specialize (Hdone
        (Forall_impl _ (fun b H => proj1 H)
           (ReindexFacts.chunks_sizes batchSize (r :: rest) Hn)) Hall).
      pose proof (fun k => ReindexFacts.run_batches_mono
                    (Spec.chunks batchSize (r :: rest)) 0 this k) as Hmono.
      rewrite Efold in Hmono. cbn [snd] in Hmono.
      unfold missing_embeddings. rewrite Fintel.
      apply ReindexFacts.filter_none. intros x Hx.
      destruct (vec_has (Intel.id x) (intel_vec (db this))) eqn:Ehad.
      + rewrite Hmono by exact Ehad. reflexivity.
      + rewrite Hdone; [reflexivity|].
        rewrite <- Emiss. unfold missing_embeddings.
        apply filter_In. split; [exact Hx|]. rewrite Ehad. reflexivity. }
  unfold reindex. rewrite Hcfg1, Fvec. cbn [negb].
  rewrite Hnone. reflexivity.
Qed.

(** C8 (amended) at work: the first [reindex] embeds both entries, the
    second finds nothing to do. *)
Lemma reindex_twice_witness :
  exists this1,
    reindex Examples.recovering_store
    = (Js.Return {| embedded := 2; total := 2 |}, this1)
    /\ fst (reindex this1) = Js.Return {| embedded := 0; total := 0 |}.
Proof.
  eexists.
  assert (H : reindex Examples.recovering_store
              = (Js.Return {| embedded := 2; total := 2 |},
                 snd (reindex Examples.recovering_store)))
    by (vm_compute; reflexivity).
  split; [exact H|].
  apply (reindex_twice _ _ _ H). reflexivity.
Defined.

(** C6 (as stated, refuted). A configured provider and an available
    vector index are not enough for [semantic] to return: the index
    accepts at most [Sql.knn_k_max] = 4096 as the number of neighbours.
    On the vector store, whose gateway answers the query "rate" with a
    vector of the index's dimension, [semantic("rate", 5000)] is an
    error of the storage engine, not a sequence of entries. *)
Lemma semantic_refuses_large_limit :
  is_configured Examples.vector_store = true
  /\ _vecLoaded Examples.vector_store = true
  /\ respond Examples.length_provider (requests Examples.vector_store)
       ["rate"] Query
     = Js.Return [[4%Q; 1%Q]]
  /\ length (_float32Buffer (hd_error [[4%Q; 1%Q]]))
     = dimensions Examples.vector_store
  /\ exists msg,
       fst (semantic Examples.vector_store "rate" 5000)
       = Js.Throw (Js.SqliteError msg).
Proof.
  split; [reflexivity|]. split; [reflexivity|]. split; [reflexivity|].
  split; [reflexivity|]. eexists. vm_compute. reflexivity.
Qed.

(** C6 (amended). With a provider configured and the vector index
    available, [semantic] sends the query text alone, in "query" mode, in
    one request. When the gateway fails, [semantic] fails with the
    gateway's error. When the gateway's vector has not the index's
    dimension, or [limit] is negative or above 4096, it fails with an
    error of the storage engine. Otherwise it takes the [limit] entries
    of the index nearest to the vector by distance, returns the stored
    entries with these ids, each with the similarity
    [1 / (1 + distance)] of its distance, in descending order of
    similarity, and leaves the tables as they are; when the index gives
    no match, it returns the empty sequence. *)
Theorem semantic_ranks_by_similarity
    (this : t) (cfg : embedding) (queryText : string) (limit : Z) :
  embeddingConfig this = Some cfg ->
  _vecLoaded this = true ->
  let answer := respond cfg (requests this) [queryText] Query in
  requests (snd (semantic this queryText limit)) = S (requests this)
  /\ db (snd (semantic this queryText limit)) = db this
  /\ (forall e,
         answer = Js.Throw e ->
         fst (semantic this queryText limit) = Js.Throw e)
  /\ (forall vectors,
         answer = Js.Return vectors ->
         length (_float32Buffer (hd_error vectors)) <> dimensions this
         \/ (limit < 0)%Z \/ (4096 < limit)%Z ->
         exists msg,
           fst (semantic this queryText limit)
           = Js.Throw (Js.SqliteError msg))
  /\ (forall vectors,
         answer = Js.Return vectors ->
         length (_float32Buffer (hd_error vectors)) = dimensions this ->
         (0 <= limit <= 4096)%Z ->
         let queryVec := _float32Buffer (hd_error vectors) in
         exists ranked rows,
           Permutation ranked
             (map (fun v => (Vec.intel_id v,
                             vec_distance this queryVec (Vec.embedding v)))
                  (intel_vec (db this)))
           /\ StronglySorted Spec.nearest_first ranked
           /\ let nearest := firstn (Z.to_nat limit) ranked in
              fst (semantic this queryText limit) = Js.Return rows
              /\ (nearest = [] -> rows = [])
              /\ (forall r,
                     In r (map fst rows)
                     <-> In r (intel (db this))
                         /\ In (Intel.id r) (map fst nearest))
              /\ (forall r s,
                     In (r, s) rows ->
                     exists d,
                       In (Intel.id r, d) nearest /\ s = (1 / (1 + d))%Q)
              /\ StronglySorted Spec.by_score_desc rows).
Proof.
  intros Hcfg Hvec answer.
  split; [|split; [|split; [|split]]].
  - unfold semantic, is_configured, _embed. rewrite Hcfg, Hvec.
    cbn [negb].
    destruct (respond cfg (requests this) [queryText] Query);
      [|reflexivity].
    destruct (vec_nearest _ _ _) as [[|n0 rest]|e]; reflexivity.
  - unfold semantic, is_configured, _embed. rewrite Hcfg, Hvec.
    cbn [negb].
    destruct (respond cfg (requests this) [queryText] Query);
      [|reflexivity].
    destruct (vec_nearest _ _ _) as [[|n0 rest]|e]; reflexivity.
  - intros e Hresp. unfold answer in Hresp.
    unfold semantic, is_configured, _embed. rewrite Hcfg, Hvec, Hresp.
    reflexivity.
  - intros vectors Hresp Hbad. unfold answer in Hresp.
    destruct (SearchFacts.vec_nearest_refuses this
                (_float32Buffer (hd_error vectors)) limit) as [msg Hmsg].
    { unfold Sql.knn_k_max. exact Hbad. }
    exists msg.
    unfold semantic, is_configured, _embed. rewrite Hcfg, Hvec, Hresp.
    cbn [negb].
    change (vec_nearest (with_requests (S (requests this)) this))
      with (vec_nearest this).
    rewrite Hmsg. reflexivity.
  - intros vectors Hresp Hdim Hlimit queryVec. unfold answer in Hresp.
    exists (Sql.order_by_asc_num snd (rev (Spec.scanned this queryVec))).
    unfold semantic, is_configured, _embed. rewrite Hcfg, Hvec, Hresp.
    cbn [negb].
    rewrite SearchFacts.vec_nearest_ok by (unfold Sql.knn_k_max; assumption).
    change (Spec.scanned (with_requests (S (requests this)) this))
      with (Spec.scanned this).
    fold queryVec. cbv zeta.
    set (nearest := firstn (Z.to_nat limit)
                      (Sql.order_by_asc_num snd
                         (rev (Spec.scanned this queryVec)))).
    assert (Hperm := PoolFacts.ranked_perm this queryVec).
    assert (Hsorted := SearchFacts.order_by_asc_num_sorted snd
                         (rev (Spec.scanned this queryVec))).
    destruct nearest as [|n0 rest].
    + exists []. split; [exact Hperm|]. split; [exact Hsorted|].
      split; [reflexivity|]. split; [reflexivity|].
      split; [|split; [intros r s [] | constructor]].
      intros r. simpl. split; [intros [] | intros [_ []]].
    + eexists. split; [exact Hperm|]. split; [exact Hsorted|].
      split; [reflexivity|]. split; [discriminate|]. split; [|split].
      * intros r. cbn [fst snd db with_requests].
        split.
        -- intros Hin. apply in_map_iff in Hin as ([r0 s0] & <- & Hin).
           apply (Permutation_in _ (RuntimeFacts.sort_desc_perm _)) in Hin.
           apply in_map_iff in Hin as (r1 & Heq & Hr1).
           injection Heq as -> _. cbn [fst].
           apply filter_In in Hr1 as [Hr1 Hid].
           split; [exact Hr1 | apply SearchFacts.id_in_In, Hid].
        -- intros [Hr Hid]. apply in_map_iff.
           eexists (r, _). split; [reflexivity|].
           apply (Permutation_in _
                    (Permutation_sym (RuntimeFacts.sort_desc_perm _))).
           apply in_map_iff. exists r. split; [reflexivity|].
           apply filter_In.
           split; [exact Hr | apply SearchFacts.id_in_In, Hid].
      * intros r s Hin. cbn [fst snd db with_requests] in Hin.
        apply (Permutation_in _ (RuntimeFacts.sort_desc_perm _)) in Hin.
        apply in_map_iff in Hin as (r0 & Heq & Hr0).
        injection Heq as -> <-.
        apply filter_In in Hr0 as [_ Hid].
        apply SearchFacts.id_in_In in Hid.
        apply RuntimeFacts.Map_of_defined in Hid as (d & Hget & Hd).
        rewrite Hget. exists d. split; [exact Hd | reflexivity].
      * apply RuntimeFacts.sort_desc_sorted.
Qed.

(** C6 at work: the nearest entry of the vector store for a query. *)
Lemma semantic_ranks_by_similarity_witness :
  embeddingConfig Examples.vector_store = Some Examples.length_provider
  /\ _vecLoaded Examples.vector_store = true
  /\ exists rows,
       fst (semantic Examples.vector_store
              "Fed rate cut expected, says the digest" 1)
       = Js.Return rows
       /\ map (fun row => Intel.id (fst row)) rows = [2%Z]
       /\ StronglySorted Spec.by_score_desc rows.
Proof.
  split; [reflexivity|]. split; [reflexivity|].
  destruct (semantic_ranks_by_similarity Examples.vector_store
              Examples.length_provider
              "Fed rate cut expected, says the digest" 1
              eq_refl eq_refl)
    as (_ & _ & _ & _ & Hranks).
  destruct (Hranks [[38%Q; 1%Q]] eq_refl eq_refl)
    as (ranked & rows & _ & _ & Hrows & _ & _ & _ & Hsorted); [lia|].
  exists rows. split; [exact Hrows|]. split; [|exact Hsorted].
  assert (Hval : fst (semantic Examples.vector_store
                        "Fed rate cut expected, says the digest" 1)
                 = Js.Return rows) by exact Hrows.
  vm_compute in Hval. injection Hval as <-. reflexivity.
Defined.

(** C1 (as stated, refuted). The keyword pool of [think] is not a
    substring match: with no provider configured the semantic pool is
    empty, and [think("aapl")] returns the entry whose body reads "AAPL
    looking strong", with the keyword weight 0.3, although neither its
    title nor its body contains "aapl". *)
Lemma think_keyword_pool_ignores_case :
  exists r score,
    fst (think Examples.keyword_store "aapl" 10) = Js.Return [(r, score)]
    /\ (score == 3 # 10)%Q
    /\ Spec.mentions_title_body "aapl" r = false.
Proof. eexists. eexists. split; [|split]; reflexivity. Qed.

(** C1 (amended). For a non-negative limit, a query text whose pattern
    is within the length [LIKE] accepts, on well-formed tables:
    the keyword pool of [think] holds the ids of the first [2 * limit]
    entries whose title or body satisfies [LIKE '%query%'] (ASCII
    case-insensitive, [%] and [_] being wildcards: the title or the body
    is in the language of the pattern), each with weight 0.3.
    The semantic pool is attempted only with a provider and the index; it
    is empty when the gateway fails, when its answer has not the index's
    dimension and when [2 * limit] exceeds the 4096 neighbours the index
    accepts. Otherwise it holds exactly the ids of the [2 * limit]
    vectors nearest to the query vector by distance, each with the score
    [1 / (1 + distance)] of its distance. The call returns; every
    returned entry is stored, belongs to one of the pools and carries the
    score [0.7 * semanticScore + keywordWeight]; the result is in
    descending order of score, without repetition, of length
    [min limit n] for [n] ids in the union of the pools, and no id left
    out scores higher than a returned one. *)
Theorem think_fuses_pools (this : t) (queryText : string) (limit : Z) :
  (0 <= limit)%Z ->
  (Z.of_nat (String.length ("%" ++ queryText ++ "%")) <= 50000)%Z ->
  Invariant.store_ok (db this) = true ->
  let pattern := ("%" ++ queryText ++ "%")%string in
  let kw := think_keyword this queryText limit in
  let sem := fst (think_semantic this queryText limit) in
  let in_pool id := In id (Js.Map_keys kw) \/ In id (Js.Map_keys sem) in
  (forall id,
      In id (Js.Map_keys kw)
      <-> In id (map Intel.id
                   (firstn (Z.to_nat (2 * limit))
                      (filter (fun r =>
                                 Text.like pattern (Intel.title r)
                                 || Text.like_opt pattern (Intel.body r))
                              (intel (db this))))))
  /\ (forall id,
         In id (Js.Map_keys kw) ->
         exists r,
           In r (intel (db this)) /\ Intel.id r = id
           /\ (Spec.Matches pattern (Intel.title r)
               \/ Spec.Matches_opt pattern (Intel.body r)))
  /\ (forall id w, Js.Map_get id kw = Some w -> w = (3 # 10)%Q)
  /\ (is_configured this && _vecLoaded this = false -> sem = [])
  /\ (forall cfg e,
         embeddingConfig this = Some cfg ->
         respond cfg (requests this) [queryText] Query = Js.Throw e ->
         sem = [])
  /\ (forall cfg vectors,
         embeddingConfig this = Some cfg ->
         respond cfg (requests this) [queryText] Query = Js.Return vectors ->
         length (_float32Buffer (hd_error vectors)) <> dimensions this ->
         sem = [])
  /\ ((4096 < 2 * limit)%Z -> sem = [])
  /\ (Z.of_nat (length sem) <= 2 * limit)%Z
  /\ (forall cfg vectors,
         embeddingConfig this = Some cfg ->
         _vecLoaded this = true ->
         respond cfg (requests this) [queryText] Query = Js.Return vectors ->
         length (_float32Buffer (hd_error vectors)) = dimensions this ->
         (2 * limit <= 4096)%Z ->
         let queryVec := _float32Buffer (hd_error vectors) in
         exists ranked,
           Permutation ranked
             (map (fun v => (Vec.intel_id v,
                             vec_distance this queryVec (Vec.embedding v)))
                  (intel_vec (db this)))
           /\ StronglySorted Spec.nearest_first ranked
           /\ let nearest := firstn (Z.to_nat (2 * limit)) ranked in
              (forall id,
                  In id (Js.Map_keys sem) <-> In id (map fst nearest))
              /\ (forall id d,
                     In (id, d) nearest ->
                     Js.Map_get id sem = Some (1 / (1 + d))%Q))
  /\ (NoDup (Spec.pool_ids kw sem)
      /\ forall id, In id (Spec.pool_ids kw sem) <-> in_pool id)
  /\ exists rows,
       fst (think this queryText limit) = Js.Return rows
       /\ (forall r s,
              In (r, s) rows ->
              In r (intel (db this))
              /\ in_pool (Intel.id r)
              /\ s = Spec.fused kw sem (Intel.id r))
       /\ StronglySorted Spec.by_score_desc rows
       /\ NoDup (map Spec.row_id rows)
       /\ length rows
          = Nat.min (Z.to_nat limit) (length (Spec.pool_ids kw sem))
       /\ (forall id r s,
              in_pool id ->
              ~ In id (map Spec.row_id rows) ->
              In (r, s) rows ->
              (Spec.fused kw sem id <= s)%Q).
Proof.
  intros Hlimit Hpattern Hok pattern kw sem in_pool.
  destruct (ThinkFacts.store_ok_spec _ Hok) as (Hintel & Hvnd & Hvec).
  split; [|split; [|split; [|split; [|split; [|split; [|split; [|split;
    [|split; [|split]]]]]]]]].
  - intros id. unfold kw. rewrite ThinkFacts.think_keyword_keys.
    unfold Spec.keyword_rows.
    rewrite SearchFacts.limit_nonneg by lia.
    rewrite (Z.mul_comm limit 2). reflexivity.
  - intros id Hin. apply ThinkFacts.think_keyword_keys in Hin.
    apply in_map_iff in Hin as (r & Hid & Hin).
    unfold Spec.keyword_rows in Hin. apply LikeFacts.limit_subset in Hin.
    apply filter_In in Hin as [Hin Hkeep].
    exists r. split; [exact Hin|]. split; [exact Hid|].
    apply LikeFacts.keyword_where, Hkeep.
  - intros id w. apply ThinkFacts.think_keyword_weight.
  - intros Hoff. unfold sem, think_semantic. rewrite Hoff. reflexivity.
  - intros cfg e Hcfg Hresp. unfold sem, think_semantic, _embed.
    rewrite Hcfg, Hresp. destruct (_ && _); reflexivity.
  - intros cfg vectors Hcfg Hresp Hdim.
    apply (PoolFacts.think_semantic_refused this queryText limit cfg vectors
             Hcfg Hresp).
    apply SearchFacts.vec_nearest_mismatch, Hdim.
  - intros Hmany.
    destruct (ThinkFacts.think_semantic_cases this queryText limit)
      as [Hnil|(cfg & vectors & nearest & _ & _ & _ & Hnear & _)];
      [exact Hnil|].
    apply SearchFacts.vec_nearest_returns in Hnear as (_ & Hk & _).
    unfold Sql.knn_k_max in Hk. lia.
  - destruct (ThinkFacts.think_semantic_cases this queryText limit)
      as [Hnil|(cfg & vectors & nearest & _ & _ & _ & Hnear & Hsem)];
      fold sem in Hnil || fold sem in Hsem.
    + rewrite Hnil. cbn [length]. lia.
    + rewrite Hsem.
      pose proof (RuntimeFacts.Map_of_length
                    (map (fun r => (fst r, similarity_of (snd r))) nearest))
        as Hlen.
      rewrite length_map in Hlen.
      apply SearchFacts.vec_nearest_length in Hnear; lia.
  - intros cfg vectors Hcfg Hon Hresp Hdim Hk queryVec.
    exists (Sql.order_by_asc_num snd (rev (Spec.scanned this queryVec))).
    split; [apply PoolFacts.ranked_perm|].
    split; [apply SearchFacts.order_by_asc_num_sorted|].
    cbv zeta. unfold sem.
    rewrite (PoolFacts.think_semantic_ready this queryText limit cfg vectors
               Hcfg Hon Hresp Hdim)
      by (unfold Sql.knn_k_max; lia).
    fold queryVec. rewrite (Z.mul_comm limit 2).
    set (nearest := firstn (Z.to_nat (2 * limit))
                      (Sql.order_by_asc_num snd
                         (rev (Spec.scanned this queryVec)))).
    assert (Hnd : NoDup (map fst nearest))
      by (apply PoolFacts.ranked_nodup, Hvnd).
    split.
    + intros id. rewrite RuntimeFacts.Map_of_keys, map_map. cbn [fst].
      reflexivity.
    + intros id d Hin.
      apply PoolFacts.Map_of_get_distinct.
      * rewrite map_map. cbn [fst]. exact Hnd.
      * apply in_map_iff. exists (id, d). split; [reflexivity | exact Hin].
  - split; [apply RuntimeFacts.Set_of_nodup|].
    intros id. apply ThinkFacts.pool_ids_In.
  - rewrite ThinkFacts.think_eq. cbn [fst]. fold kw sem.
    rewrite ThinkFacts.slice0_nonneg by assumption.
    set (scored := think_scored kw sem).
    set (n := Z.to_nat limit).
    exists (Spec.fetch_scored (intel (db this)) scored
              (map fst (firstn n scored))).
    assert (Hin_scored : forall id s,
               In (id, s) scored -> s = Spec.fused kw sem id)
      by (intros id s H; apply ThinkFacts.think_scored_In in H; apply H).
    assert (Hkeys : forall id, In id (map fst scored) <-> in_pool id).
    { intros id. unfold scored, in_pool.
      rewrite <- ThinkFacts.pool_ids_In. split.
      - apply Permutation_in, ThinkFacts.think_scored_ids.
      - apply Permutation_in, Permutation_sym, ThinkFacts.think_scored_ids. }
    assert (Hstored : forall id,
               In id (map fst scored) ->
               In id (map Intel.id (intel (db this)))).
    { intros id Hid. apply Hkeys in Hid as [Hk|Hs].
      - apply (ThinkFacts.think_keyword_stored _ _ _ _ Hk).
      - apply ThinkFacts.think_semantic_stored in Hs.
        apply in_map_iff in Hs as (v & <- & Hv). apply Hvec, Hv. }
    split; [|split; [|split; [|split; [|split]]]].
    + reflexivity.
    + intros r s Hrow.
      apply (ThinkFacts.fetched_score (intel (db this)) scored n
               (Spec.fused kw sem) Hin_scored)
        in Hrow as (Hr & Htop & Hs).
      split; [exact Hr|]. split; [|exact Hs].
      apply Hkeys. apply in_map_iff. exists (Intel.id r, s).
      split; [reflexivity | apply ThinkFacts.In_firstn in Htop; exact Htop].
    + apply RuntimeFacts.sort_desc_sorted.
    + apply ThinkFacts.fetched_nodup, Hintel.
    + pose proof (ThinkFacts.fetched_length (intel (db this)) scored n
                    Hintel (ThinkFacts.think_scored_nodup kw sem) Hstored)
        as Hlen.
      rewrite Hlen. unfold scored.
      rewrite ThinkFacts.think_scored_length. reflexivity.
    + intros id r s Hpool Hout Hrow.
      apply (ThinkFacts.fetched_are_top (intel (db this)) scored n
               (Spec.fused kw sem)
               (ThinkFacts.think_scored_sorted kw sem) Hin_scored Hstored
               id r s);
        [apply Hkeys, Hpool | exact Hout | exact Hrow].
Qed.

(** C1 (amended) at work: the top entry of the vector store for "rate". *)
Lemma think_fuses_pools_witness :
  (0 <= 1)%Z
  /\ (Z.of_nat (String.length ("%" ++ "rate" ++ "%")) <= 50000)%Z
  /\ Invariant.store_ok (db Examples.vector_store) = true
  /\ exists rows,
       fst (think Examples.vector_store "rate" 1) = Js.Return rows
       /\ map Spec.row_id rows = [2%Z]
       /\ (forall r s,
              In (r, s) rows ->
              s = Spec.fused (think_keyword Examples.vector_store "rate" 1)
                    (fst (think_semantic Examples.vector_store "rate" 1))
                    (Intel.id r)).
Proof.
  split; [lia|]. split; [simpl; lia|]. split; [reflexivity|].
  destruct (think_fuses_pools Examples.vector_store "rate" 1)
    as (_ & _ & _ & _ & _ & _ & _ & _ & _ & _ & rows & Hrows & Hscore & _);
    [lia | simpl; lia | reflexivity |].
  exists rows. split; [exact Hrows|]. split.
  - assert (Hval : fst (think Examples.vector_store "rate" 1)
                   = Js.Return rows) by exact Hrows.
    vm_compute in Hval. injection Hval as <-. reflexivity.
  - intros r s Hin. apply (Hscore r s Hin).
Defined.

(* ===================================================================== *)
(** ** Further properties: identities                                      *)
(* ===================================================================== *)

Module IdentityFacts.
Import OpenIntel Js Session Invariant.
Local Open Scope list_scope.

(** What a successful [add] does to the tables other than [intel_vec]. *)
Lemma add_tables this category data now title :
  truthy (Data.title data) = Some title ->
  let id := Sql.next_rowid (map Intel.id (intel (db this)))
              (intel_seq (db this)) in
  let this' := snd (add this category data now) in
  fst (add this category data now) = Return id
  /\ intel (db this')
     = intel (db this) ++ [inserted_row id category title data now]
  /\ intel_seq (db this') = id
  /\ trades (db this') = trades (db this)
  /\ trades_seq (db this') = trades_seq (db this).
Proof.
  intros Htitle. cbv zeta. unfold add. rewrite Htitle.
  match goal with |- context [if ?c then _ else _] => destruct c end;
    [|repeat split].
  unfold _embed. cbn [embeddingConfig with_db].
  destruct (embeddingConfig this) as [cfg|]; [|repeat split].
  destruct (respond cfg _ _ _); [|repeat split].
  cbn [fst snd db with_requests dimensions].
  destruct (vec_insert _ _ _ _ _); repeat split.
Qed.

Lemma add_rejected this category data now :
  truthy (Data.title data) = None ->
  add this category data now = (Throw (Error "title is required"), this).
Proof. intros H. unfold add. rewrite H. reflexivity. Qed.

Lemma fold_max_bound ids seq x :
  In x ids -> (x <= fold_right Z.max seq ids)%Z.
Proof.
  induction ids as [|y ids IH]; [intros []|].
  simpl. intros [->|H]; [lia|]. specialize (IH H). lia.
Qed.

Lemma fold_max_seq ids seq : (seq <= fold_right Z.max seq ids)%Z.
Proof. induction ids as [|y ids IH]; simpl; lia. Qed.

Lemma fold_max_le ids seq m :
  (seq <= m)%Z -> (forall x, In x ids -> (x <= m)%Z) ->
  (fold_right Z.max seq ids <= m)%Z.
Proof.
  intros Hs. induction ids as [|y ids IH]; intros H; simpl; [exact Hs|].
  assert (y <= m)%Z by (apply H; left; reflexivity).
  assert (fold_right Z.max seq ids <= m)%Z
    by (apply IH; intros x Hx; apply H; right; exact Hx).
  lia.
Qed.

Lemma upto_S n : upto (S n) = upto n ++ [Z.of_nat (S n)].
Proof. unfold upto. rewrite seq_S, map_app. reflexivity. Qed.

Lemma upto_bound n x : In x (upto n) -> (1 <= x <= Z.of_nat n)%Z.
Proof.
  unfold upto. intros H. apply in_map_iff in H as (k & <- & Hk).
  apply in_seq in Hk. lia.
Qed.

Lemma next_rowid_upto n :
  Sql.next_rowid (upto n) (Z.of_nat n) = Z.of_nat (S n).
Proof.
  unfold Sql.next_rowid.
  assert (fold_right Z.max (Z.of_nat n) (upto n) = Z.of_nat n) as ->.
  { apply Z.le_antisymm; [|apply fold_max_seq].
    apply fold_max_le; [lia|]. intros x Hx. apply upto_bound in Hx. lia. }
  lia.
Qed.

Lemma reindex_batch_keeps this batch :
  let d' := db (snd (reindex_batch this batch)) in
  intel d' = intel (db this) /\ intel_seq d' = intel_seq (db this)
  /\ trades d' = trades (db this) /\ trades_seq d' = trades_seq (db this).
Proof.
  unfold reindex_batch, _embed.
  destruct (embeddingConfig this) as [cfg|]; [|repeat split].
  destruct (respond cfg _ _ _); [|repeat split].
  cbn [fst snd dimensions db with_requests].
  destruct (insert_batch _ _ _ _ _); repeat split.
Qed.

Lemma reindex_keeps this :
  let d' := db (snd (reindex this)) in
  intel d' = intel (db this) /\ intel_seq d' = intel_seq (db this)
  /\ trades d' = trades (db this) /\ trades_seq d' = trades_seq (db this).
Proof.
  unfold reindex.
  destruct (negb (is_configured this)); [repeat split|].
  destruct (negb (_vecLoaded this)); [repeat split|].
  destruct (missing_embeddings (db this)) as [|r rest]; [repeat split|].
  pose proof (ReindexFacts.reindex_loop_preserves
                (fun s => intel (db s) = intel (db this)
                          /\ intel_seq (db s) = intel_seq (db this)
                          /\ trades (db s) = trades (db this)
                          /\ trades_seq (db s) = trades_seq (db this)))
    as Hloop.
  specialize (Hloop
    (fun s b H =>
       let '(conj a (conj b0 (conj c d))) := H in
       let '(conj a' (conj b' (conj c' d'))) := reindex_batch_keeps s b in
       conj (eq_trans a' a)
         (conj (eq_trans b' b0) (conj (eq_trans c' c) (eq_trans d' d))))
    (r :: rest) 0 this 0).
  destruct (reindex_loop (r :: rest) 0 this 0) as [n s].
  apply Hloop. repeat split.
Qed.

Lemma run_numbered c this :
  numbered (db this) -> numbered (db (run c this)).
Proof.
  intros (Hi & Hs & Ht & Hts). destruct c; cbn [run].
  - destruct (truthy (Data.title data)) as [title|] eqn:Etitle.
    + destruct (add_tables this category data now title Etitle)
        as (_ & Hintel & Hseq & Htr & Htrs).
      cbv zeta in *. unfold numbered.
      rewrite Hintel, Hseq, Htr, Htrs, map_app, length_app, Hi, Hs.
      cbn [length map inserted_row Intel.id].
      rewrite Nat.add_1_r, upto_S, next_rowid_upto.
      repeat split; assumption.
    + rewrite add_rejected by assumption. repeat split; assumption.
  - repeat split; assumption.
  - repeat split; assumption.
  - rewrite TradeFacts.semantic_db. repeat split; assumption.
  - rewrite TradeFacts.think_db. repeat split; assumption.
  - destruct (reindex_keeps this) as (H1 & H2 & H3 & H4).
    cbv zeta in *. unfold numbered. rewrite H1, H2, H3, H4.
    repeat split; assumption.
  - unfold addTrade, numbered.
    cbn [snd db with_db with_trades intel intel_seq trades trades_seq].
    rewrite map_app, length_app, Ht, Hts.
    cbn [length map Trade.id].
    rewrite Nat.add_1_r, upto_S, next_rowid_upto.
    repeat split; assumption.
  - unfold resolveTrade, numbered.
    cbn [db with_db with_trades intel intel_seq trades trades_seq].
    rewrite map_map, length_map.
    rewrite (map_ext _ Trade.id) by (intros r; apply TradeFacts.resolve_row_id).
    repeat split; assumption.
  - repeat split; assumption.
Qed.

Lemma numbered_reachable cs this :
  db this = empty_database ->
  numbered (db (fold_left (fun s c => run c s) cs this)).
Proof.
  intros Hfresh.
  assert (Hn : numbered (db this)) by (rewrite Hfresh; repeat split).
  clear Hfresh. revert this Hn.
  induction cs as [|c cs IH]; intros this Hn; [exact Hn|].
  simpl. apply IH, run_numbered, Hn.
Qed.

End IdentityFacts.

(* ===================================================================== *)
(** ** Further properties: listings                                        *)
(* ===================================================================== *)

Module ListingFacts.
Import OpenIntel Js.
Local Open Scope list_scope.

(** [LIKE '%text%'] never misses an occurrence of the text, whatever
    characters the text is made of. *)
Lemma like_prefix_sound t s :
  Text.starts_with (Text.fold_case t) (Text.fold_case s) = true ->
  Text.like (t ++ "%")%string s = true.
Proof.
  revert s. induction t as [|c t IH]; intros s H.
  - apply TextFacts.like_percent_all.
  - destruct s as [|d s]; [discriminate|].
    simpl in H. apply andb_true_iff in H as [Hc Hrest].
    specialize (IH s Hrest).
    change (String c t ++ "%")%string with (String c (t ++ "%"))%string.
    destruct (Ascii.eqb c "%") eqn:Epct.
    + apply Ascii.eqb_eq in Epct. subst c.
      rewrite TextFacts.like_percent_unfold.
      apply orb_true_iff. right.
      rewrite TextFacts.like_percent_unfold, IH. reflexivity.
    + cbn [Text.like]. rewrite Epct, IH, andb_true_r.
      destruct (Ascii.eqb c "_"); [reflexivity | exact Hc].
Qed.

Lemma like_nocase_sound t s :
  Text.contains_nocase t s = true ->
  Text.like ("%" ++ t ++ "%")%string s = true.
Proof.
  unfold Text.contains_nocase.
  change ("%" ++ t ++ "%")%string with (String "%" (t ++ "%"))%string.
  induction s as [|d s IH]; intros H.
  - simpl in H. rewrite orb_false_r in H.
    rewrite TextFacts.like_percent_unfold, like_prefix_sound by exact H.
    reflexivity.
  - cbn [Text.fold_case Text.contains] in H.
    rewrite TextFacts.like_percent_unfold.
    apply orb_true_iff in H as [H|H]; apply orb_true_iff.
    + left. apply like_prefix_sound. exact H.
    + right. apply IH, H.
Qed.

Lemma starts_with_fold t s :
  Text.starts_with t s = true ->
  Text.starts_with (Text.fold_case t) (Text.fold_case s) = true.
Proof.
  revert s. induction t as [|c t IH]; intros s H; [reflexivity|].
  destruct s as [|d s]; [discriminate|].
  simpl in *. apply andb_true_iff in H as [Hc Hrest].
  apply Ascii.eqb_eq in Hc. subst d.
  rewrite Ascii.eqb_refl. apply IH, Hrest.
Qed.

Lemma contains_fold t s :
  Text.contains t s = true -> Text.contains_nocase t s = true.
Proof.
  unfold Text.contains_nocase. induction s as [|d s IH]; intros H.
  - simpl in *. rewrite orb_false_r in *. apply starts_with_fold in H.
    exact H.
  - cbn [Text.contains Text.fold_case] in *.
    apply orb_true_iff in H as [H|H]; apply orb_true_iff.
    + left. apply starts_with_fold in H. exact H.
    + right. apply IH, H.
Qed.


Lemma like_opt_nocase_sound t col :
  Text.contains_nocase_opt t col = true ->
  Text.like_opt ("%" ++ t ++ "%")%string col = true.
Proof. destruct col; [apply like_nocase_sound | discriminate]. Qed.

Lemma contains_opt_fold t col :
  Text.contains_opt t col = true -> Text.contains_nocase_opt t col = true.
Proof. destruct col; [apply contains_fold | discriminate]. Qed.

(** What [LIMIT] and [ORDER BY] keep. *)
Lemma limit_In {A} n (l : list A) x : In x (Sql.limit n l) -> In x l.
Proof.
  unfold Sql.limit. destruct (n <? 0)%Z; [trivial | apply ThinkFacts.In_firstn].
Qed.

Lemma limit_all {A} n (l : list A) :
  (Z.of_nat (length l) <= n)%Z -> Sql.limit n l = l.
Proof.
  intros H. unfold Sql.limit. destruct (n <? 0)%Z; [reflexivity|].
  apply firstn_all2. lia.
Qed.

Lemma limit_length {A} n (l : list A) :
  (0 <= n)%Z -> (Z.of_nat (length (Sql.limit n l)) <= n)%Z.
Proof.
  intros H. rewrite SearchFacts.limit_nonneg by assumption.
  rewrite length_firstn. lia.
Qed.

Lemma StronglySorted_firstn {A} (R : A -> A -> Prop) n l :
  StronglySorted R l -> StronglySorted R (firstn n l).
Proof.
  revert n. induction l as [|x l IH]; intros n H.
  - rewrite firstn_nil. constructor.
  - destruct n as [|n]; [constructor|].
    inversion H as [|? ? Hs Hall]; subst. simpl. constructor.
    + apply IH, Hs.
    + rewrite Forall_forall in *. intros y Hy.
      apply Hall, ThinkFacts.In_firstn with (n := n), Hy.
Qed.

Lemma limit_sorted {A} (R : A -> A -> Prop) n l :
  StronglySorted R l -> StronglySorted R (Sql.limit n l).
Proof.
  intros H. unfold Sql.limit. destruct (n <? 0)%Z; [exact H|].
  apply StronglySorted_firstn, H.
Qed.

Lemma order_by_desc_In {A} (key : A -> string) rows x :
  In x (Sql.order_by_desc key rows) <-> In x rows.
Proof.
  split; apply Permutation_in;
    [| symmetry]; apply SearchFacts.order_by_desc_perm.
Qed.

Lemma order_by_desc_length {A} (key : A -> string) rows :
  length (Sql.order_by_desc key rows) = length rows.
Proof. apply Permutation_length, SearchFacts.order_by_desc_perm. Qed.

Lemma filter_length_Z {A} (f : A -> bool) l n :
  (Z.of_nat (length l) <= n)%Z -> (Z.of_nat (length (filter f l)) <= n)%Z.
Proof. intros H. pose proof (filter_length_le f l). lia. Qed.

Lemma category_filter_spec category c :
  (match truthy (Some category) with
   | Some c0 => if String.eqb c0 "all" then true else String.eqb c c0
   | None => true
   end) = true
  <-> category = ""%string \/ category = "all"%string \/ c = category.
Proof.
  destruct category as [|x category'] eqn:Ecat.
  - cbn. split; auto.
  - cbn [truthy]. rewrite <- Ecat.
    destruct (String.eqb category "all") eqn:Eall.
    + apply String.eqb_eq in Eall. split; auto.
    + apply String.eqb_neq in Eall. rewrite String.eqb_eq. split.
      * auto.
      * intros [H|[H|H]]; [congruence | congruence | exact H].
Qed.

Lemma since_filter_spec since created :
  (match truthy since with
   | Some s => String.leb s created
   | None => true
   end) = true
  <-> match since with
      | Some s => s = ""%string \/ String.leb s created = true
      | None => True
      end.
Proof.
  destruct since as [[|c s]|]; cbn [truthy].
  - split; auto.
  - split; [auto | intros [H|H]; [discriminate | exact H]].
  - split; auto.
Qed.

Lemma truthy_some s x : truthy s = Some x -> s = Some x /\ x <> ""%string.
Proof.
  destruct s as [[|c s]|]; simpl; intros [= <-].
  split; [reflexivity | discriminate].
Qed.

Lemma truthy_none s : truthy s = None -> s = None \/ s = Some ""%string.
Proof. destruct s as [[|c s]|]; simpl; intros H; auto; discriminate. Qed.

End ListingFacts.
(* ===================================================================== *)
(** ** Further properties: tags and trades                                 *)
(* ===================================================================== *)

Module TagFacts.
Import OpenIntel Js.
Local Open Scope list_scope.








End TagFacts.

Module TradeListFacts.
Import OpenIntel Js Session.
Local Open Scope list_scope.

Lemma list_trades_In this limit since resolved r :
  In r (list_trades this limit since resolved) ->
  In r (trades (db this))
  /\ match resolved with
     | Some true => Trade.outcome r <> None
     | Some false => Trade.outcome r = None
     | None => True
     end.
Proof.
  unfold list_trades. intros H. apply ListingFacts.limit_In in H.
  apply ListingFacts.order_by_desc_In, filter_In in H as [Hin Hk].
  split; [exact Hin|]. apply andb_true_iff in Hk as [_ Hk].
  destruct resolved as [[|]|]; destruct (Trade.outcome r);
    try discriminate; try exact I; try reflexivity.
Qed.

Lemma list_trades_all this limit resolved r :
  (Z.of_nat (length (trades (db this))) <= limit)%Z ->
  In r (trades (db this)) ->
  match resolved with
  | Some true => Trade.outcome r <> None
  | Some false => Trade.outcome r = None
  | None => True
  end ->
  In r (list_trades this limit None resolved).
Proof.
  intros Hcover Hin Hres. unfold list_trades.
  rewrite ListingFacts.limit_all.
  - apply ListingFacts.order_by_desc_In, filter_In. split; [exact Hin|].
    cbn [truthy andb].
    destruct resolved as [[|]|]; destruct (Trade.outcome r);
      try reflexivity; congruence.
  - rewrite ListingFacts.order_by_desc_length.
    apply ListingFacts.filter_length_Z, Hcover.
Qed.

Lemma resolve_row_other id outcome pnl now r :
  Trade.id r <> id -> resolve_row id outcome pnl now r = r.
Proof.
  intros H. unfold resolve_row.
  destruct (Trade.id r =? id)%Z eqn:E; [|reflexivity].
  apply Z.eqb_eq in E. contradiction.
Qed.

End TradeListFacts.
(* ===================================================================== *)
(** ** Further properties: scores and bookkeeping                          *)
(* ===================================================================== *)

Module ScoreFacts.
Import OpenIntel Js Spec.
Local Open Scope list_scope.

Lemma similarity_bounds d :
  (0 <= d)%Q -> (0 < similarity_of d /\ similarity_of d <= 1)%Q.
Proof.
  intros Hd. unfold similarity_of. split.
  - apply Qlt_shift_div_l; lra.
  - apply Qle_shift_div_r; lra.
Qed.

(** The distances the index reports are values of the metric. *)
Lemma vec_nearest_distance this q k nearest id d :
  vec_nearest this q k = Return nearest ->
  In (id, d) nearest ->
  exists v, In v (intel_vec (db this))
            /\ Vec.intel_id v = id
            /\ d = vec_distance this q (Vec.embedding v).
Proof.
  intros H Hin. apply SearchFacts.vec_nearest_returns in H as (_ & _ & ->).
  apply ThinkFacts.In_firstn in Hin.
  apply (Permutation_in _ (SearchFacts.order_by_asc_num_perm _ _)) in Hin.
  apply in_rev in Hin.
  apply in_map_iff in Hin as (v & [= <- <-] & Hv).
  exists v. repeat split. exact Hv.
Qed.

Lemma semantic_pool_bounds this queryText limit id s :
  (forall a b, (0 <= vec_distance this a b)%Q) ->
  Map_get id (fst (think_semantic this queryText limit)) = Some s ->
  (0 < s /\ s <= 1)%Q.
Proof.
  intros Hmetric Hget.
  destruct (ThinkFacts.think_semantic_cases this queryText limit)
    as [Hnil|(cfg & vectors & nearest & _ & _ & _ & Hnear & Hsem)].
  - rewrite Hnil in Hget. discriminate.
  - rewrite Hsem in Hget. apply RuntimeFacts.Map_of_get in Hget.
    apply in_map_iff in Hget as ([i d] & [= -> <-] & Hin).
    apply (vec_nearest_distance _ _ _ _ _ _ Hnear) in Hin
      as (v & _ & _ & ->).
    apply similarity_bounds, Hmetric.
Qed.

Lemma slice0_In {A} n (l : list A) x : In x (slice0 n l) -> In x l.
Proof.
  unfold slice0. destruct (n <? 0)%Z; apply ThinkFacts.In_firstn.
Qed.

(** A row returned by [think] carries the fused score of its id, which
    is in one of the pools. *)
Lemma think_row this queryText limit rows r s :
  fst (think this queryText limit) = Return rows ->
  In (r, s) rows ->
  let kw := think_keyword this queryText limit in
  let sem := fst (think_semantic this queryText limit) in
  In (Intel.id r) (pool_ids kw sem) /\ s = fused kw sem (Intel.id r).
Proof.
  rewrite ThinkFacts.think_eq. cbn [fst]. intros [= <-] Hin. cbv zeta.
  apply ThinkFacts.fetch_scored_In in Hin as (_ & Htop & Hs).
  apply in_map_iff in Htop as ([i s'] & Hi & Htop). cbn [fst] in Hi. subst i.
  apply slice0_In in Htop.
  assert (In (Intel.id r)
            (map fst (think_scored (think_keyword this queryText limit)
                        (fst (think_semantic this queryText limit)))))
    as Hkey by (apply in_map_iff; exists (Intel.id r, s'); split;
                [reflexivity | exact Htop]).
  apply RuntimeFacts.Map_of_defined in Hkey as (d & Hget & Hd).
  rewrite Hget in Hs. subst s.
  apply ThinkFacts.think_scored_In in Hd. exact Hd.
Qed.

Lemma semantic_row this queryText limit rows r s :
  fst (semantic this queryText limit) = Return rows ->
  In (r, s) rows ->
  exists d q v,
    In v (intel_vec (db this))
    /\ Vec.intel_id v = Intel.id r
    /\ d = vec_distance this q (Vec.embedding v)
    /\ s = similarity_of d.
Proof.
  unfold semantic.
  destruct (negb (is_configured this)); [discriminate|].
  destruct (negb (_vecLoaded this)); [discriminate|].
  unfold _embed. destruct (embeddingConfig this) as [cfg|]; [|discriminate].
  destruct (respond cfg _ _ _) as [vectors|e]; [|discriminate].
  destruct (vec_nearest _ _ _) as [nearest|e] eqn:Enear; [|discriminate].
  remember (_float32Buffer (hd_error vectors)) as q eqn:Eq.
  assert (forall id d, In (id, d) nearest ->
            exists v, In v (intel_vec (db this)) /\ Vec.intel_id v = id
                      /\ d = vec_distance this q (Vec.embedding v)) as Hdist.
  { intros id d Hin.
    apply (vec_nearest_distance _ _ _ _ _ _ Enear) in Hin. exact Hin. }
  clear Enear.
  destruct nearest as [|n0 rest]; cbn [fst]; intros [= <-] Hin; [destruct Hin|].
  apply (Permutation_in _ (RuntimeFacts.sort_desc_perm _)) in Hin.
  apply in_map_iff in Hin as (r0 & [= -> <-] & Hr0).
  apply filter_In in Hr0 as [_ Hid].
  apply (proj1 (SearchFacts.id_in_In (map fst (n0 :: rest)) _)) in Hid.
  apply RuntimeFacts.Map_of_defined in Hid as (d & Hget & Hd).
  rewrite Hget.
  apply Hdist in Hd as (v & Hv & Hvid & Hd).
  exists d, q, v. repeat split; assumption.
Qed.

End ScoreFacts.
Module AccountFacts.
Import OpenIntel Js Spec Invariant.
Local Open Scope list_scope.

(** **** Requests *)

Lemma run_batches_requests batches : forall e this,
  is_configured this = true ->
  requests (snd (run_batches_from e this batches))
  = requests this + length batches.
Proof.
  induction batches as [|b rest IH]; intros e this Hcfg.
  - cbn. lia.
  - rewrite ReindexFacts.run_batches_from_cons, IH.
    + rewrite ReindexFacts.reindex_batch_requests by exact Hcfg.
      cbn [length]. lia.
    + unfold is_configured in *.
      destruct (ReindexFacts.reindex_batch_frame this b) as (-> & _).
      exact Hcfg.
Qed.

Lemma chunks_fuel_length {A} n : 0 < n -> forall f (l : list A),
  length l <= f ->
  length (chunks_fuel f n l) = (length l + n - 1) / n.
Proof.
  intros Hn. induction f as [|f IH]; intros l Hl.
  - destruct l; [|simpl in Hl; lia]. cbn.
    symmetry. apply Nat.div_small. lia.
  - destruct l as [|a l].
    + cbn. symmetry. apply Nat.div_small. lia.
    + cbn [chunks_fuel length].
      pose proof (length_skipn n (a :: l)) as Hs. cbn [length] in Hs, Hl.
      rewrite IH by lia. rewrite Hs.
      destruct (le_lt_dec n (S (length l))) as [Hge|Hlt].
      * replace (S (length l) + n - 1)
          with ((S (length l) - n + n - 1) + 1 * n) by lia.
        rewrite Nat.div_add by lia. lia.
      * replace (S (length l) - n) with 0 by lia.
        rewrite (Nat.div_small (0 + n - 1)) by lia.
        apply (Nat.div_unique _ _ _ (length l)); lia.
Qed.

Lemma chunks_length {A} n (l : list A) :
  0 < n -> length (chunks n l) = (length l + n - 1) / n.
Proof. intros Hn. apply chunks_fuel_length; [exact Hn | lia]. Qed.

(** **** Vectors *)

Lemma vec_insert_fresh dims or_replace id v tbl tbl' :
  vec_has id tbl = false ->
  vec_insert dims or_replace id v tbl = Return tbl' ->
  tbl' = tbl ++ [Vec.mk id v].
Proof.
  unfold vec_insert. intros ->.
  destruct (negb _); [discriminate|]. intros [= <-]. reflexivity.
Qed.

Lemma insert_batch_fresh dims batch : forall j vectors tbl tbl',
  NoDup (map Intel.id batch) ->
  (forall r, In r batch -> vec_has (Intel.id r) tbl = false) ->
  insert_batch dims batch j vectors tbl = Return tbl' ->
  length tbl' = length tbl + length batch
  /\ (forall k, vec_has k tbl' = true ->
                vec_has k tbl = true \/ In k (map Intel.id batch)).
Proof.
  induction batch as [|a rest IH]; intros j vectors tbl tbl' Hnd Hfresh.
  - cbn. intros [= <-]. split; [lia | auto].
  - cbn [insert_batch].
    destruct (vec_insert _ _ _ _ _) as [tbl1|err] eqn:Eins; [|discriminate].
    apply vec_insert_fresh in Eins; [|apply Hfresh; left; reflexivity].
    subst tbl1. intros Hrest.
    cbn [map] in Hnd. apply NoDup_cons_iff in Hnd as [Hnotin Hnd].
    apply IH in Hrest; [|exact Hnd|].
    + destruct Hrest as [Hlen Hhas]. split.
      * rewrite Hlen, length_app. cbn [length]. lia.
      * intros k Hk. apply Hhas in Hk as [Hk|Hk]; [|right; right; exact Hk].
        rewrite ReindexFacts.vec_has_app in Hk.
        apply orb_true_iff in Hk as [Hk|Hk]; [left; exact Hk|].
        right. left. cbn in Hk. rewrite orb_false_r in Hk.
        apply Z.eqb_eq in Hk. exact Hk.
    + intros r Hr. rewrite ReindexFacts.vec_has_app.
      rewrite (Hfresh r) by (right; exact Hr). cbn.
      rewrite orb_false_r. apply Z.eqb_neq. intros Heq.
      apply Hnotin. rewrite Heq. apply in_map. exact Hr.
Qed.

(** A batch of entries without a vector adds as many vectors as it
    reports, and only for its own entries. *)
Lemma reindex_batch_vectors this batch :
  NoDup (map Intel.id batch) ->
  (forall r, In r batch -> vec_has (Intel.id r) (intel_vec (db this)) = false) ->
  let n := fst (reindex_batch this batch) in
  let this' := snd (reindex_batch this batch) in
  length (intel_vec (db this')) = length (intel_vec (db this)) + n
  /\ (forall k, vec_has k (intel_vec (db this')) = true ->
                vec_has k (intel_vec (db this)) = true
                \/ In k (map Intel.id batch)).
Proof.
  intros Hnd Hfresh. unfold reindex_batch, _embed.
  destruct (embeddingConfig this) as [cfg|]; cbn [fst snd];
    [|split; [lia | auto]].
  destruct (respond cfg _ _ _) as [vectors|err]; cbn [fst snd db with_requests];
    [|split; [lia | auto]].
  destruct (insert_batch _ _ _ _ _) as [tbl'|err] eqn:Eins;
    cbn [fst snd db with_db with_requests with_intel_vec intel_vec];
    [|split; [lia | auto]].
  cbn [db with_requests dimensions] in Eins.
  apply insert_batch_fresh in Eins; assumption.
Qed.

Lemma run_batches_vectors batches : forall e this,
  NoDup (map Intel.id (concat batches)) ->
  (forall r, In r (concat batches) ->
             vec_has (Intel.id r) (intel_vec (db this)) = false) ->
  length (intel_vec (db (snd (run_batches_from e this batches)))) + e
  = length (intel_vec (db this)) + fst (run_batches_from e this batches).
Proof.
  induction batches as [|b rest IH]; intros e this Hnd Hfresh.
  - cbn. lia.
  - rewrite ReindexFacts.run_batches_from_cons.
    cbn [concat] in Hnd, Hfresh. rewrite map_app in Hnd.
    destruct (reindex_batch_vectors this b) as [Hlen Hhas].
    + apply NoDup_app_remove_r in Hnd. exact Hnd.
    + intros r Hr. apply Hfresh, in_or_app. left. exact Hr.
    + specialize (IH (e + fst (reindex_batch this b))
                     (snd (reindex_batch this b))).
      rewrite Hlen in IH. 
      assert (length (intel_vec (db (snd (run_batches_from
                 (e + fst (reindex_batch this b))
                 (snd (reindex_batch this b)) rest))))
              + (e + fst (reindex_batch this b))
              = length (intel_vec (db this)) + fst (reindex_batch this b)
                + fst (run_batches_from (e + fst (reindex_batch this b))
                         (snd (reindex_batch this b)) rest)) as H.
      { apply IH.
        - apply NoDup_app_remove_l in Hnd. exact Hnd.
        - intros r Hr.
          destruct (vec_has (Intel.id r)
                      (intel_vec (db (snd (reindex_batch this b))))) eqn:E;
            [|reflexivity].
          apply Hhas in E as [E|E].
          + rewrite Hfresh in E; [discriminate|].
            apply in_or_app. right. exact Hr.
          + exfalso. 
            assert (In (Intel.id r) (map Intel.id (concat rest))) as Hr'
                by (apply in_map; exact Hr).
            clear - Hnd E Hr'.
            induction (map Intel.id b) as [|x l IHl]; [destruct E|].
            cbn in Hnd. apply NoDup_cons_iff in Hnd as [Hx Hnd].
            destruct E as [->|E]; [|apply IHl; assumption].
            apply Hx, in_or_app. right. exact Hr'. }
      lia.
Qed.

(** **** Entries with and without a vector *)

Lemma missing_nodup d :
  NoDup (map Intel.id (intel d)) ->
  NoDup (map Intel.id (missing_embeddings d)).
Proof. apply ThinkFacts.NoDup_map_filter. Qed.

Lemma missing_fresh d r :
  In r (missing_embeddings d) -> vec_has (Intel.id r) (intel_vec d) = false.
Proof.
  unfold missing_embeddings. intros Hr. apply filter_In in Hr as [_ Hr].
  apply negb_true_iff in Hr. exact Hr.
Qed.

(** Under the schema's constraints every vector belongs to exactly one
    entry, so the entries split into those with a vector and the missing
    ones. *)
Lemma entries_split d :
  well_formed d ->
  length (intel d) = length (intel_vec d) + length (missing_embeddings d).
Proof.
  intros (Hnd & Hvnd & Hsub).
  rewrite <- (filter_length (fun i => vec_has (Intel.id i) (intel_vec d))
                (intel d)).
  unfold missing_embeddings. f_equal.
  rewrite <- (length_map Intel.id), <- (length_map Vec.intel_id).
  apply Permutation_length, NoDup_Permutation.
  - apply ThinkFacts.NoDup_map_filter. exact Hnd.
  - exact Hvnd.
  - intros k. split.
    + intros Hk. apply in_map_iff in Hk as (r & <- & Hr).
      apply filter_In in Hr as [_ Hr].
      apply InvariantFacts.vec_has_In. exact Hr.
    + intros Hk. pose proof Hk as Hk'.
      apply in_map_iff in Hk as (v & <- & Hv).
      apply Hsub in Hv. apply in_map_iff in Hv as (r & Hid & Hr).
      apply in_map_iff. exists r. split; [exact Hid|].
      apply filter_In. split; [exact Hr|].
      apply InvariantFacts.vec_has_In. rewrite Hid. exact Hk'.
Qed.

(** [reindex] through its batches. *)
Lemma reindex_eq this :
  is_configured this = true -> _vecLoaded this = true ->
  reindex this
  = (Return {| embedded :=
                 fst (run_batches this
                        (chunks batchSize (missing_embeddings (db this))));
               total := length (missing_embeddings (db this)) |},
     snd (run_batches this
            (chunks batchSize (missing_embeddings (db this))))).
Proof.
  intros Hcfg Hvec. unfold reindex. rewrite Hcfg, Hvec. cbn [negb].
  destruct (missing_embeddings (db this)) as [|r rest] eqn:E.
  - reflexivity.
  - rewrite ReindexFacts.reindex_loop_chunks. cbn [skipn].
    unfold run_batches.
    destruct (run_batches_from 0 this (chunks batchSize (r :: rest))).
    reflexivity.
Qed.

Lemma reindex_returns this res this' :
  reindex this = (Return res, this') ->
  is_configured this = true /\ _vecLoaded this = true.
Proof.
  unfold reindex.
  destruct (is_configured this); [|discriminate].
  destruct (_vecLoaded this); [|discriminate]. auto.
Qed.

End AccountFacts.

Module MetricFacts.
Import OpenIntel.
Local Open Scope list_scope.

Lemma squared_distance_nonneg a b : (0 <= Examples.squared_distance a b)%Q.
Proof.
  unfold Examples.squared_distance.
  induction (combine a b) as [|p l IH]; cbn [map fold_right].
  - apply Qle_refl.
  - assert (forall x : Q, (0 <= x * x)%Q) as Hsq.
    { intros [n d]. unfold Qle, Qmult. cbn [Qnum Qden].
      rewrite Z.mul_1_r. apply Z.square_nonneg. }
    specialize (Hsq (fst p - snd p)%Q). lra.
Qed.

End MetricFacts.

Module StatsFacts.
Import OpenIntel Js.
Local Open Scope list_scope.

(** **** Sorting *)

Lemma order_by_count_desc_perm {A} (count : A -> nat) rows :
  Permutation (Sql.order_by_count_desc count rows) rows.
Proof. apply RuntimeFacts.stable_sort_perm. Qed.

Lemma order_by_count_desc_sorted {A} (count : A -> nat) rows :
  StronglySorted (fun a b => count b <= count a)
    (Sql.order_by_count_desc count rows).
Proof.
  apply Sorted_StronglySorted.
  - intros a b c Hab Hbc. lia.
  - unfold Sql.order_by_count_desc.
    eapply RuntimeFacts.Sorted_impl;
      [| apply RuntimeFacts.stable_sort_sorted
           with (keep := fun a b : A => (count b <=? count a)%nat)].
    + intros a b H. apply Nat.leb_le in H. exact H.
    + intros a b H. apply Nat.leb_gt in H. apply Nat.leb_le. lia.
Qed.

Lemma order_by_asc_perm {A} (key : A -> string) rows :
  Permutation (Sql.order_by_asc key rows) rows.
Proof. apply RuntimeFacts.stable_sort_perm. Qed.

Lemma order_by_asc_sorted {A} (key : A -> string) rows :
  StronglySorted (fun a b => String.leb (key a) (key b) = true)
    (Sql.order_by_asc key rows).
Proof.
  apply Sorted_StronglySorted.
  - intros a b c Hab Hbc. eapply TextFacts.string_leb_trans; eassumption.
  - unfold Sql.order_by_asc.
    apply RuntimeFacts.stable_sort_sorted
      with (keep := fun a b => String.leb (key a) (key b)).
    intros a b H.
    destruct (String.leb_total (key a) (key b)) as [E|E]; congruence.
Qed.

(** A stable sort leaves a sorted list as it is. *)
Lemma stable_sort_sorted_id {A} (keep : A -> A -> bool) l :
  StronglySorted (fun a b => keep a b = true) l -> stable_sort keep l = l.
Proof.
  induction 1 as [|x l Hs IH Hx]; [reflexivity|].
  cbn [stable_sort]. rewrite IH.
  destruct l as [|y l]; [reflexivity|].
  cbn [insert]. inversion Hx as [|? ? Hy _]; subst. rewrite Hy. reflexivity.
Qed.

Lemma StronglySorted_filter {A} (R : A -> A -> Prop) f l :
  StronglySorted R l -> StronglySorted R (filter f l).
Proof.
  induction 1 as [|x l Hs IH Hx]; cbn [filter]; [constructor|].
  destruct (f x); [|exact IH].
  constructor; [exact IH|].
  apply Forall_forall. intros y Hy. apply filter_In in Hy as [Hy _].
  rewrite Forall_forall in Hx. apply Hx, Hy.
Qed.

(** **** Groups *)

Lemma leb_empty s : String.leb "" s = true.
Proof. destruct s; reflexivity. Qed.

Lemma leb_refl s : String.leb s s = true.
Proof. destruct (String.leb_total s s); assumption. Qed.

(** [MAX] over a group that is not empty is one of its values and bounds
    them all. *)
Lemma text_max_fold l :
  l <> [] ->
  In (fold_right Sql.text_max "" l) l
  /\ forall x, In x l -> String.leb x (fold_right Sql.text_max "" l) = true.
Proof.
  induction l as [|a l IH]; [congruence|]. intros _.
  cbn [fold_right]. destruct l as [|b l].
  - cbn [fold_right]. unfold Sql.text_max.
    destruct a; cbn.
    + split; [left; reflexivity | intros x [<-|[]]; reflexivity].
    + split; [left; reflexivity | intros x [<-|[]]; apply leb_refl].
  - destruct IH as [Hin Hub]; [discriminate|].
    set (m := fold_right Sql.text_max "" (b :: l)) in *.
    unfold Sql.text_max. destruct (String.leb a m) eqn:E.
    + split; [right; exact Hin|].
      intros x [<-|Hx]; [exact E | apply Hub, Hx].
    + split; [left; reflexivity|].
      assert (String.leb m a = true) as Hma
          by (destruct (String.leb_total a m); congruence).
      intros x [<-|Hx]; [apply leb_refl|].
      eapply TextFacts.string_leb_trans; [apply Hub, Hx | exact Hma].
Qed.

Lemma list_sum_cons a l : list_sum (a :: l) = a + list_sum l.
Proof. reflexivity. Qed.

Lemma list_sum_add {A} (f g : A -> nat) l :
  list_sum (map (fun x => f x + g x) l)
  = list_sum (map f l) + list_sum (map g l).
Proof.
  induction l as [|a l IH]; [reflexivity|].
  cbn [map]. rewrite !list_sum_cons, IH. lia.
Qed.

Lemma indicator_sum (c : string) cats :
  NoDup cats -> In c cats ->
  list_sum (map (fun c' => if String.eqb c c' then 1 else 0) cats) = 1.
Proof.
  induction cats as [|a cats IH]; intros Hnd Hin; [destruct Hin|].
  apply NoDup_cons_iff in Hnd as [Ha Hnd]. cbn [map]. rewrite list_sum_cons.
  destruct (String.eqb c a) eqn:E.
  - apply String.eqb_eq in E. subst a.
    assert (list_sum (map (fun c' => if String.eqb c c' then 1 else 0) cats)
            = 0) as ->; [|reflexivity].
    clear IH Hin Hnd. induction cats as [|b cats IH]; [reflexivity|].
    cbn [map]. rewrite list_sum_cons.
    destruct (String.eqb c b) eqn:E.
    + apply String.eqb_eq in E. subst b. exfalso. apply Ha. left. reflexivity.
    + rewrite IH; [reflexivity|]. intros H. apply Ha. right. exact H.
  - apply String.eqb_neq in E. destruct Hin as [->|Hin]; [congruence|].
    rewrite IH by assumption. reflexivity.
Qed.

(** The groups of distinct categories that cover the rows split them. *)
Lemma groups_partition rows cats :
  NoDup cats ->
  (forall r, In r rows -> In (Intel.category r) cats) ->
  list_sum (map (fun c => length (category_group rows c)) cats)
  = length rows.
Proof.
  intros Hnd. induction rows as [|r rows IH]; intros Hcover.
  - clear Hnd Hcover. induction cats as [|c cats IHc]; [reflexivity|].
    cbn [map]. rewrite list_sum_cons, IHc. reflexivity.
  - rewrite (map_ext _
      (fun c => (if String.eqb (Intel.category r) c then 1 else 0)
                + length (category_group rows c))).
    + rewrite list_sum_add, indicator_sum, IH.
      * reflexivity.
      * intros r' Hr'. apply Hcover. right. exact Hr'.
      * exact Hnd.
      * apply Hcover. left. reflexivity.
    + intros c. unfold category_group. cbn [filter].
      destruct (String.eqb (Intel.category r) c); reflexivity.
Qed.

Lemma stats_categories_names rows :
  Permutation (map CategoryStat.category (stats_categories rows))
    (nodup string_dec (map Intel.category rows)).
Proof.
  unfold stats_categories.
  rewrite (Permutation_map _ (order_by_count_desc_perm _ _)).
  rewrite map_map. cbn [CategoryStat.category]. rewrite map_id.
  reflexivity.
Qed.

Lemma stats_categories_counts rows :
  Permutation (map CategoryStat.count (stats_categories rows))
    (map (fun c => length (category_group rows c))
       (nodup string_dec (map Intel.category rows))).
Proof.
  unfold stats_categories.
  rewrite (Permutation_map _ (order_by_count_desc_perm _ _)).
  rewrite map_map. cbn [CategoryStat.count]. reflexivity.
Qed.

Lemma list_sum_perm l1 l2 :
  Permutation l1 l2 -> list_sum l1 = list_sum l2.
Proof. induction 1; rewrite ?list_sum_cons; cbn [list_sum fold_right]; lia. Qed.

Lemma stats_categories_In rows s :
  In s (stats_categories rows) ->
  In (CategoryStat.category s) (map Intel.category rows)
  /\ CategoryStat.count s
     = length (category_group rows (CategoryStat.category s))
  /\ CategoryStat.latest s
     = fold_right Sql.text_max ""
         (map Intel.created_at
            (category_group rows (CategoryStat.category s))).
Proof.
  unfold stats_categories. intros Hs.
  apply (Permutation_in _ (order_by_count_desc_perm _ _)) in Hs.
  apply in_map_iff in Hs as (c & <- & Hc). apply nodup_In in Hc.
  cbn [CategoryStat.category CategoryStat.count CategoryStat.latest].
  repeat split. exact Hc.
Qed.

(** **** Trade aggregates *)

Lemma sum_some values :
  values <> [] -> Sql.sum values = Some (fold_right Z.add 0%Z values).
Proof. destruct values; [congruence | reflexivity]. Qed.

Lemma sum_indicator {A} (f : A -> bool) l :
  fold_right Z.add 0%Z (map (fun x => if f x then 1%Z else 0%Z) l)
  = Z.of_nat (length (filter f l)).
Proof.
  induction l as [|a l IH]; [reflexivity|].
  cbn [map fold_right filter]. rewrite IH.
  destruct (f a); cbn [length]; lia.
Qed.

(** Updating the one row with a given key changes a sum by the change of
    that row. *)
Lemma sum_update (f : Trade.row -> Z) (g : Trade.row -> Trade.row) id l r :
  NoDup (map Trade.id l) ->
  In r l -> Trade.id r = id ->
  (forall x, Trade.id x <> id -> g x = x) ->
  fold_right Z.add 0%Z (map f (map g l))
  = (fold_right Z.add 0%Z (map f l) - f r + f (g r))%Z.
Proof.
  intros Hnd Hin Hid Hother.
  induction l as [|a l IH]; [destruct Hin|].
  cbn [map] in Hnd. apply NoDup_cons_iff in Hnd as [Ha Hnd].
  cbn [map fold_right]. destruct Hin as [->|Hin].
  - assert (map g l = l) as ->; [|lia].
    clear IH Hnd. induction l as [|b l IHl]; [reflexivity|].
    cbn [map]. rewrite Hother, IHl; [reflexivity| |].
    + intros H. apply Ha. right. exact H.
    + intros H. apply Ha. left. congruence.
  - rewrite IH by assumption. rewrite (Hother a); [lia|].
    intros H. apply Ha. rewrite H, <- Hid. apply in_map. exact Hin.
Qed.

(** Without a limit and without [since], the listing shows the trades
    with (or without) an outcome. *)
Lemma listed_length this b :
  length (list_trades this (-1) None (Some b))
  = length (filter (fun r => Bool.eqb match Trade.outcome r with
                                      | Some _ => true
                                      | None => false
                                      end b)
              (trades (db this))).
Proof.
  unfold list_trades. change (Sql.limit (-1) ?l) with l.
  rewrite ListingFacts.order_by_desc_length. f_equal.
  apply filter_ext. intros r.
  destruct b, (Trade.outcome r); reflexivity.
Qed.

End StatsFacts.

Module JsonFacts.
Import Text Json.
Local Open Scope list_scope.

Lemma append_assoc (a b c : string) : ((a ++ b) ++ c = a ++ (b ++ c))%string.
Proof. induction a as [|x a IH]; cbn; [|rewrite IH]; reflexivity. Qed.

Lemma append_nil_r (a : string) : (a ++ "")%string = a.
Proof. induction a as [|x a IH]; cbn; [|rewrite IH]; reflexivity. Qed.

(** The parser reads back what [JSON.stringify] writes for a
    character. *)
Lemma parse_escaped_char c rest cur out :
  parse_from (json_escape_char c ++ rest)%string InString cur out
  = parse_from rest InString (snoc cur c) out.
Proof.
  destruct c as [[] [] [] [] [] [] [] []]; reflexivity.
Qed.

Lemma parse_escaped s : forall rest cur out,
  parse_from (json_escape s ++ rest)%string InString cur out
  = parse_from rest InString (cur ++ s)%string out.
Proof.
  induction s as [|c s IH]; intros rest cur out.
  - cbn. rewrite append_nil_r. reflexivity.
  - cbn [json_escape]. rewrite append_assoc, parse_escaped_char, IH.
    unfold snoc. rewrite append_assoc. reflexivity.
Qed.

Lemma parse_quoted_open s rest cur out :
  parse_from (json_quote s ++ rest)%string Open cur out
  = parse_from rest AfterString "" (out ++ [s]).
Proof.
  unfold json_quote.
  change (String dquote (json_escape s ++ String dquote "") ++ rest)%string
    with (String dquote ((json_escape s ++ String dquote "") ++ rest))%string.
  cbn [parse_from]. change (is_ws dquote) with false.
  change (nat_of_ascii dquote =? 93)%nat with false.
  change (nat_of_ascii dquote =? 34)%nat with true. cbv iota.
  rewrite append_assoc, parse_escaped. reflexivity.
Qed.

Lemma parse_quoted_comma s rest cur out :
  parse_from (json_quote s ++ rest)%string AfterComma cur out
  = parse_from rest AfterString "" (out ++ [s]).
Proof.
  unfold json_quote.
  change (String dquote (json_escape s ++ String dquote "") ++ rest)%string
    with (String dquote ((json_escape s ++ String dquote "") ++ rest))%string.
  cbn [parse_from]. change (is_ws dquote) with false.
  change (nat_of_ascii dquote =? 34)%nat with true. cbv iota.
  rewrite append_assoc, parse_escaped. reflexivity.
Qed.

Lemma parse_rest l : forall out,
  parse_from
    (fold_right (fun s acc => "," ++ json_quote s ++ acc) "]" l)%string
    AfterString "" out
  = Some (out ++ l).
Proof.
  induction l as [|a l IH]; intros out.
  - cbn. rewrite app_nil_r. reflexivity.
  - cbn [fold_right].
    change ("," ++ json_quote a ++ ?r)%string
      with (String "," (json_quote a ++ r)%string).
    cbn [parse_from]. change (is_ws ",") with false.
    change (nat_of_ascii "," =? 44)%nat with true. cbv iota.
    rewrite parse_quoted_comma, IH, <- app_assoc. reflexivity.
Qed.

Lemma concat_elements a l :
  (String.concat "," (map json_quote (a :: l)) ++ "]")%string
  = (json_quote a
     ++ fold_right (fun s acc => "," ++ json_quote s ++ acc) "]" l)%string.
Proof.
  revert a. induction l as [|b l IH]; intros a.
  - reflexivity.
  - change (String.concat "," (map json_quote (a :: b :: l)))
      with (json_quote a ++ "," ++ String.concat "," (map json_quote (b :: l)))%string.
    rewrite append_assoc.
    change (("," ++ ?x) ++ "]")%string with ("," ++ (x ++ "]"))%string.
    rewrite IH. reflexivity.
Qed.

(** [JSON.parse(JSON.stringify(tags))] gives the tags back. *)
Lemma parse_stringify l : parse_strings (stringify_array l) = Some l.
Proof.
  unfold parse_strings, stringify_array. destruct l as [|a l].
  - reflexivity.
  - change ("[" ++ ?x ++ "]")%string with (String "[" (x ++ "]")%string).
    cbn [parse_from]. change (is_ws "[") with false.
    change (nat_of_ascii "[" =? 91)%nat with true. cbv iota.
    rewrite concat_elements, parse_quoted_open, parse_rest. reflexivity.
Qed.

End JsonFacts.

Module TagCountFacts.
Import OpenIntel Js.
Local Open Scope list_scope.

(** **** Counter objects *)

Lemma get_set k k' v o :
  Obj.get k (Obj.set k' v o)
  = if String.eqb k k' then Some v else Obj.get k o.
Proof.
  induction o as [|[k0 v0] o IH]; cbn [Obj.set Obj.get].
  - destruct (String.eqb k k'); reflexivity.
  - destruct (String.eqb k' k0) eqn:E0; cbn [Obj.get].
    + apply String.eqb_eq in E0. subst k0.
      destruct (String.eqb k k'); reflexivity.
    + rewrite IH. destruct (String.eqb k k') eqn:E; [|reflexivity].
      apply String.eqb_eq in E. subst k. rewrite E0. reflexivity.
Qed.

Lemma get_In k o : Obj.get k o <> None <-> In k (map fst o).
Proof.
  induction o as [|[k0 v0] o IH]; cbn [Obj.get map fst In].
  - split; [congruence | intros []].
  - destruct (String.eqb k k0) eqn:E.
    + apply String.eqb_eq in E. subst k0.
      split; [left; reflexivity | discriminate].
    + apply String.eqb_neq in E. rewrite IH. split; [auto|].
      intros [H|H]; [congruence | exact H].
Qed.

Lemma set_keys k v o :
  NoDup (map fst o) -> NoDup (map fst (Obj.set k v o)).
Proof.
  induction o as [|[k0 v0] o IH]; cbn [Obj.set map fst]; intros Hnd.
  - constructor; [intros [] | constructor].
  - apply NoDup_cons_iff in Hnd as [Hk0 Hnd].
    destruct (String.eqb k k0) eqn:E; cbn [map fst].
    + apply String.eqb_eq in E. subst k0. constructor; assumption.
    + constructor; [|apply IH, Hnd].
      intros Hin. apply get_In in Hin. rewrite get_set in Hin.
      destruct (String.eqb k0 k) eqn:E'.
      * apply String.eqb_eq in E'. subst k0. rewrite String.eqb_refl in E.
        discriminate.
      * apply get_In in Hin. contradiction.
Qed.

Lemma get_entry k v o :
  NoDup (map fst o) -> (In (k, v) o <-> Obj.get k o = Some v).
Proof.
  induction o as [|[k0 v0] o IH]; cbn [Obj.get map fst In]; intros Hnd.
  - split; [intros [] | discriminate].
  - apply NoDup_cons_iff in Hnd as [Hk0 Hnd].
    destruct (String.eqb k k0) eqn:E.
    + apply String.eqb_eq in E. subst k0. split.
      * intros [[= ->]|Hin]; [reflexivity|].
        exfalso. apply Hk0. apply in_map_iff. exists (k, v). auto.
      * intros [= ->]. left. reflexivity.
    + apply String.eqb_neq in E. rewrite <- IH by exact Hnd. split.
      * intros [[= -> ->]|Hin]; [congruence | exact Hin].
      * auto.
Qed.

Lemma sum_set t o :
  list_sum
    (map snd
       (Obj.set t (match Obj.get t o with Some n => n | None => 0 end + 1) o))
  = list_sum (map snd o) + 1.
Proof.
  induction o as [|[k0 v0] o IH]; cbn [Obj.set Obj.get].
  - reflexivity.
  - destruct (String.eqb t k0); cbn [map snd].
    + rewrite !StatsFacts.list_sum_cons. lia.
    + rewrite !StatsFacts.list_sum_cons, IH. lia.
Qed.

(** **** Counting *)

Lemma counted_keys all : forall o,
  NoDup (map fst o) -> NoDup (map fst (fold_left count_tag all o)).
Proof.
  induction all as [|a all IH]; intros o Hnd; [exact Hnd|].
  cbn [fold_left]. apply IH, set_keys, Hnd.
Qed.

Lemma counted_sum all : forall o,
  list_sum (map snd (fold_left count_tag all o))
  = list_sum (map snd o) + length all.
Proof.
  induction all as [|a all IH]; intros o; cbn [fold_left length]; [lia|].
  rewrite IH. unfold count_tag. rewrite sum_set. lia.
Qed.

Lemma counted_get all : forall o t,
  Obj.get t (fold_left count_tag all o)
  = match count_occ string_dec all t with
    | 0 => Obj.get t o
    | S _ =>
        Some (match Obj.get t o with Some n => n | None => 0 end
              + count_occ string_dec all t)
    end.
Proof.
  induction all as [|a all IH]; intros o t; [reflexivity|].
  cbn [fold_left count_occ]. rewrite IH. unfold count_tag.
  rewrite get_set.
  destruct (string_dec a t) as [->|Hne].
  - rewrite String.eqb_refl.
    destruct (count_occ string_dec all t); f_equal; lia.
  - assert (String.eqb t a = false) as ->
        by (apply String.eqb_neq; congruence).
    reflexivity.
Qed.

(** **** [Object.entries] and the sort *)

Lemma filter_split {A} (f g : A -> bool) l :
  (forall x, g x = negb (f x)) ->
  Permutation (filter f l ++ filter g l) l.
Proof.
  intros Hg. induction l as [|a l IH]; [reflexivity|].
  cbn [filter]. rewrite Hg. destruct (f a); cbn [negb app].
  - constructor. exact IH.
  - symmetry. apply Permutation_cons_app. symmetry. exact IH.
Qed.

Lemma entries_perm o : Permutation (Obj.entries o) o.
Proof.
  unfold Obj.entries. rewrite RuntimeFacts.stable_sort_perm.
  apply filter_split. intros [k v]. cbn [fst].
  destruct (Obj.array_index k); reflexivity.
Qed.

Lemma sort_count_sorted (l : list (string * nat)) :
  StronglySorted (fun a b => snd b <= snd a)
    (sort (fun a b => (inject_Z (Z.of_nat (snd b))
                       - inject_Z (Z.of_nat (snd a)))%Q) l).
Proof.
  assert (forall a b : string * nat,
             Qle_bool (inject_Z (Z.of_nat (snd b))
                       - inject_Z (Z.of_nat (snd a))) 0 = true
             <-> snd b <= snd a) as Hkeep.
  { intros a b. rewrite Qle_bool_iff. split; intros H.
    - assert (inject_Z (Z.of_nat (snd b)) <= inject_Z (Z.of_nat (snd a)))%Q
        as H' by lra.
      rewrite <- Zle_Qle in H'. lia.
    - assert (Z.of_nat (snd b) <= Z.of_nat (snd a))%Z as H' by lia.
      rewrite Zle_Qle in H'. lra. }
  apply Sorted_StronglySorted.
  - intros a b c Hab Hbc. lia.
  - unfold sort.
    eapply RuntimeFacts.Sorted_impl;
      [| apply RuntimeFacts.stable_sort_sorted
           with (keep := fun a b : string * nat =>
                           Qle_bool (inject_Z (Z.of_nat (snd b))
                                     - inject_Z (Z.of_nat (snd a))) 0)].
    + intros a b H. apply Hkeep, H.
    + intros a b H. apply Hkeep.
      destruct (le_lt_dec (snd b) (snd a)) as [Hle|Hlt].
      * apply Hkeep in Hle. congruence.
      * lia.
Qed.

Lemma StronglySorted_map {A B} (f : A -> B) (R : B -> B -> Prop) l :
  StronglySorted (fun a b => R (f a) (f b)) l -> StronglySorted R (map f l).
Proof.
  induction 1 as [|x l Hs IH Hx]; cbn [map]; constructor; [exact IH|].
  apply Forall_forall. intros y Hy. apply in_map_iff in Hy as (z & <- & Hz).
  rewrite Forall_forall in Hx. apply Hx, Hz.
Qed.

(** **** Rows written by [add] *)

Lemma parsed_written rows written :
  Forall2 (fun r l => Intel.tags r = Text.stringify_array l) rows written ->
  parsed_tags rows = Some (concat written).
Proof.
  induction 1 as [|r l rows written Hr _ IH]; [reflexivity|].
  cbn [parsed_tags concat]. rewrite Hr, JsonFacts.parse_stringify, IH.
  reflexivity.
Qed.

Lemma run_keeps_written c this :
  (forall r, In r (intel (db this)) ->
     exists l, Intel.tags r = Text.stringify_array l) ->
  forall r, In r (intel (db (Session.run c this))) ->
    exists l, Intel.tags r = Text.stringify_array l.
Proof.
  intros Hinv. destruct c; cbn [Session.run]; try exact Hinv.
  - destruct (truthy (Data.title data)) as [title|] eqn:Et.
    + destruct (IdentityFacts.add_tables this category data now title Et)
        as (_ & -> & _).
      intros r Hr. apply in_app_or in Hr as [Hr|[<-|[]]]; [apply Hinv, Hr|].
      eexists. reflexivity.
    + rewrite (IdentityFacts.add_rejected _ _ _ _ Et). exact Hinv.
  - rewrite TradeFacts.semantic_db. exact Hinv.
  - rewrite TradeFacts.think_db. exact Hinv.
  - destruct (ReindexFacts.reindex_frame this) as (_ & _ & _ & -> & _).
    exact Hinv.
Qed.

End TagCountFacts.

Module CliFacts.
Import OpenIntel Cli.
Local Open Scope list_scope.

(** **** Flags *)

Lemma flag_get_set k key v f :
  flag_get k (flag_set key v f)
  = if String.eqb k key then Some v else flag_get k f.
Proof.
  induction f as [|[k0 v0] f IH]; cbn [flag_set flag_get].
  - reflexivity.
  - destruct (String.eqb key k0) eqn:E0; cbn [flag_get].
    + apply String.eqb_eq in E0. subst k0.
      destruct (String.eqb k key); reflexivity.
    + rewrite IH. destruct (String.eqb k key) eqn:E; [|reflexivity].
      apply String.eqb_eq in E. subst k. rewrite E0. reflexivity.
Qed.

Lemma flag_get_assign k key v f :
  flag_get k (assign key v f)
  = if String.eqb k key && negb (String.eqb key "__proto__")
    then Some v else flag_get k f.
Proof.
  unfold assign. destruct (String.eqb key "__proto__"); cbn [negb].
  - rewrite andb_false_r. reflexivity.
  - rewrite andb_true_r. apply flag_get_set.
Qed.

(** The flags read from the arguments take precedence over those
    already set. *)
Lemma flag_get_from k args : forall f,
  flag_get k (parseFlags_from args f)
  = match flag_get k (parseFlags_from args []) with
    | Some v => Some v
    | None => flag_get k f
    end.
Proof.
  assert (forall n args, length args <= n -> forall f,
            flag_get k (parseFlags_from args f)
            = match flag_get k (parseFlags_from args []) with
              | Some v => Some v
              | None => flag_get k f
              end) as H.
  { induction n as [|n IH]; intros args0 Hlen f.
    - destruct args0; [reflexivity | cbn [length] in Hlen; lia].
    - destruct args0 as [|a rest]; [reflexivity|].
      cbn [length] in Hlen. cbn [parseFlags_from].
      destruct (Text.starts_with "--" a); [|apply IH; lia].
      destruct rest as [|v rest'].
      + rewrite !flag_get_assign. cbn [flag_get].
        destruct (_ && _); reflexivity.
      + cbn [length] in Hlen.
        rewrite (IH rest') by lia.
        rewrite (IH rest' ltac:(lia) (assign _ _ [])).
        destruct (flag_get k (parseFlags_from rest' [])); [reflexivity|].
        rewrite !flag_get_assign. cbn [flag_get].
        destruct (_ && _); reflexivity. }
  intros f. apply (H (length args)). lia.
Qed.

Lemma or_true_value arg v :
  or_true arg = Value v -> arg = v /\ v <> EmptyString.
Proof.
  destruct arg; [discriminate | intros [= <-]; split; [reflexivity|]].
  discriminate.
Qed.

Lemma starts_with_drop a :
  Text.starts_with "--" a = true -> a = ("--" ++ drop 2 a)%string.
Proof.
  destruct a as [|c1 [|c2 a]]; cbn [Text.starts_with drop]; try discriminate.
  - rewrite andb_false_r. discriminate.
  - intros H. apply andb_true_iff in H as [H1 H2].
    apply andb_true_iff in H2 as [H2 _].
    apply Ascii.eqb_eq in H1, H2. subst. reflexivity.
Qed.

(** A flag with a text value was given on the command line, right
    before its value. *)
Lemma flag_value_given k v args :
  flag_get k (parseFlags args) = Some (Value v) ->
  v <> EmptyString
  /\ exists before after,
       args = before ++ ("--" ++ k)%string :: v :: after.
Proof.
  unfold parseFlags.
  assert (forall n args, length args <= n ->
            flag_get k (parseFlags_from args []) = Some (Value v) ->
            v <> EmptyString
            /\ exists before after,
                 args = before ++ ("--" ++ k)%string :: v :: after) as H.
  { induction n as [|n IH]; intros args0 Hlen Hget.
    - destruct args0; [discriminate | cbn [length] in Hlen; lia].
    - destruct args0 as [|a rest]; [discriminate|].
      cbn [length] in Hlen. cbn [parseFlags_from] in Hget.
      destruct (Text.starts_with "--" a) eqn:Ea.
      + destruct rest as [|w rest'].
        * rewrite flag_get_assign in Hget. cbn [flag_get] in Hget.
          destruct (_ && _); discriminate.
        * cbn [length] in Hlen. rewrite flag_get_from in Hget.
          destruct (flag_get k (parseFlags_from rest' [])) as [x|] eqn:Ex.
          -- injection Hget as ->.
             destruct (IH rest' ltac:(lia) Ex) as (Hv & before & after & ->).
             split; [exact Hv|].
             exists (a :: w :: before), after. reflexivity.
          -- rewrite flag_get_assign in Hget. cbn [flag_get] in Hget.
             destruct (String.eqb k (drop 2 a)) eqn:Ek;
               cbn [andb] in Hget; [|discriminate].
             destruct (negb _); [|discriminate].
             injection Hget as Hv. apply or_true_value in Hv as [-> Hv].
             apply String.eqb_eq in Ek. subst k.
             split; [exact Hv|].
             exists [], rest'. cbn [app]. f_equal.
             apply starts_with_drop, Ea.
      + destruct (IH rest ltac:(lia) Hget) as (Hv & before & after & ->).
        split; [exact Hv|].
        exists (a :: before), after. reflexivity. }
  apply (H (length args)). lia.
Qed.

(** **** Decimal numerals *)

Lemma digit_value_decimal c :
  digit_value 10 c
  = if (48 <=? nat_of_ascii c)%nat && (nat_of_ascii c <=? 57)%nat
    then Some (Z.of_nat (nat_of_ascii c) - 48)%Z else None.
Proof.
  destruct c as [[] [] [] [] [] [] [] []]; reflexivity.
Qed.

(** Reading the digits of a numeral, most significant first. *)
Lemma digits_numeral tail :
  match tail with
  | EmptyString => True
  | String c _ => digit_value 10 c = None
  end ->
  forall u d,
    digits 10 (NilEmpty.string_of_uint u ++ tail)%string
      (Z.of_N (DecimalPos.Unsigned.of_lu d)) true
    = Some (Z.of_N (DecimalPos.Unsigned.of_lu (Decimal.revapp u d))).
Proof.
  intros Htail.
  induction u as [|u IH|u IH|u IH|u IH|u IH|u IH|u IH|u IH|u IH|u IH];
    intros d.
  - cbn [NilEmpty.string_of_uint append Decimal.revapp].
    destruct tail as [|c tail]; [reflexivity|].
    cbn [digits]. rewrite Htail. reflexivity.
  - cbn [NilEmpty.string_of_uint append Decimal.revapp digits].
    change (digit_value 10 "0") with (Some 0%Z). cbv iota beta.
    rewrite <- IH. f_equal. cbn [DecimalPos.Unsigned.of_lu]. lia.
  - cbn [NilEmpty.string_of_uint append Decimal.revapp digits].
    change (digit_value 10 "1") with (Some 1%Z). cbv iota beta.
    rewrite <- IH. f_equal. cbn [DecimalPos.Unsigned.of_lu]. lia.
  - cbn [NilEmpty.string_of_uint append Decimal.revapp digits].
    change (digit_value 10 "2") with (Some 2%Z). cbv iota beta.
    rewrite <- IH. f_equal. cbn [DecimalPos.Unsigned.of_lu]. lia.
  - cbn [NilEmpty.string_of_uint append Decimal.revapp digits].
    change (digit_value 10 "3") with (Some 3%Z). cbv iota beta.
    rewrite <- IH. f_equal. cbn [DecimalPos.Unsigned.of_lu]. lia.
  - cbn [NilEmpty.string_of_uint append Decimal.revapp digits].
    change (digit_value 10 "4") with (Some 4%Z). cbv iota beta.
    rewrite <- IH. f_equal. cbn [DecimalPos.Unsigned.of_lu]. lia.
  - cbn [NilEmpty.string_of_uint append Decimal.revapp digits].
    change (digit_value 10 "5") with (Some 5%Z). cbv iota beta.
    rewrite <- IH. f_equal. cbn [DecimalPos.Unsigned.of_lu]. lia.
  - cbn [NilEmpty.string_of_uint append Decimal.revapp digits].
    change (digit_value 10 "6") with (Some 6%Z). cbv iota beta.
    rewrite <- IH. f_equal. cbn [DecimalPos.Unsigned.of_lu]. lia.
  - cbn [NilEmpty.string_of_uint append Decimal.revapp digits].
    change (digit_value 10 "7") with (Some 7%Z). cbv iota beta.
    rewrite <- IH. f_equal. cbn [DecimalPos.Unsigned.of_lu]. lia.
  - cbn [NilEmpty.string_of_uint append Decimal.revapp digits].
    change (digit_value 10 "8") with (Some 8%Z). cbv iota beta.
    rewrite <- IH. f_equal. cbn [DecimalPos.Unsigned.of_lu]. lia.
  - cbn [NilEmpty.string_of_uint append Decimal.revapp digits].
    change (digit_value 10 "9") with (Some 9%Z). cbv iota beta.
    rewrite <- IH. f_equal. cbn [DecimalPos.Unsigned.of_lu]. lia.
Qed.

(** The numeral of a positive number starts with a digit from 1 to 9. *)
Lemma to_uint_head p :
  Pos.to_uint p <> Decimal.Nil /\ forall d, Pos.to_uint p <> Decimal.D0 d.
Proof.
  split; [apply DecimalPos.Unsigned.to_uint_nonnil|].
  intros d Hd.
  pose proof (DecimalPos.Unsigned.to_of (Pos.to_uint p)) as H.
  rewrite DecimalPos.Unsigned.of_to in H. cbn [N.to_uint] in H.
  pose proof (DecimalPos.Unsigned.to_uint_nonzero p) as Hnz.
  assert (Decimal.nzhead (Pos.to_uint p) = Pos.to_uint p) as E.
  { unfold Decimal.unorm in H.
    destruct (Decimal.nzhead (Pos.to_uint p)); [|symmetry; exact H ..].
    exfalso. apply Hnz. exact H. }
  rewrite Hd in E. exact (DecimalFacts.nzhead_nonzero _ _ E).
Qed.

Lemma unsigned_numeral p tail :
  match tail with
  | EmptyString => True
  | String c _ => digit_value 10 c = None
  end ->
  let s := (NilEmpty.string_of_uint (Pos.to_uint p) ++ tail)%string in
  unsigned s = Some (Z.pos p)
  /\ Text.trim_start s = s
  /\ exists c s', s = String c s' /\ Ascii.eqb c "-" = false
                  /\ Ascii.eqb c "+" = false.
Proof.
  intros Htail s. subst s.
  destruct (to_uint_head p) as [Hnil Hzero].
  pose proof (digits_numeral tail Htail (Pos.to_uint p) Decimal.Nil) as Hd.
  change (Decimal.revapp (Pos.to_uint p) Decimal.Nil)
    with (Decimal.rev (Pos.to_uint p)) in Hd.
  rewrite <- DecimalPos.Unsigned.of_uint_alt, DecimalPos.Unsigned.of_to in Hd.
  cbn [DecimalPos.Unsigned.of_lu Z.of_N] in Hd.
  destruct (Pos.to_uint p) as [|u|u|u|u|u|u|u|u|u|u];
    [contradiction | exfalso; exact (Hzero u eq_refl) | ..];
    (split; [exact Hd | split; [reflexivity|]];
     eexists _, _; repeat split; reflexivity).
Qed.

Lemma trim_start_spaces pre s :
  Text.trim_start pre = EmptyString ->
  Text.trim_start (pre ++ s) = Text.trim_start s.
Proof.
  induction pre as [|c pre IH]; [reflexivity|].
  cbn [Text.trim_start append].
  destruct (Text.is_space c); [exact IH | discriminate].
Qed.

(** [parseInt] on the decimal numeral of an integer, with white space in
    front and any text behind that does not go on with a digit (nor,
    after a lone 0, with an x). *)
Lemma parseInt_numeral n pre tail :
  Text.trim_start pre = EmptyString ->
  match tail with
  | EmptyString => True
  | String c _ =>
      digit_value 10 c = None
      /\ (n = 0%Z -> Ascii.eqb "x" c = false /\ Ascii.eqb "X" c = false)
  end ->
  parseInt (pre ++ NilZero.string_of_int (Z.to_int n) ++ tail) = Some n.
Proof.
  intros Hpre Htail. unfold parseInt.
  rewrite (trim_start_spaces _ _ Hpre).
  assert (match tail with
          | EmptyString => True
          | String c _ => digit_value 10 c = None
          end) as Htail' by (destruct tail; [exact I | apply Htail]).
  destruct n as [|p|p].
  - change (NilZero.string_of_int (Z.to_int 0)) with "0"%string.
    cbn [append].
    destruct tail as [|c tail]; [reflexivity|].
    destruct Htail as [Hc Hx]. destruct (Hx eq_refl) as [Hx1 Hx2].
    cbn [Text.trim_start]. change (Text.is_space "0") with false. cbv iota.
    change (Ascii.eqb "0" "-") with false.
    change (Ascii.eqb "0" "+") with false. cbv iota.
    unfold unsigned. cbn [Text.starts_with].
    rewrite Hx1, Hx2. cbn [andb orb digits].
    change (digit_value 10 "0") with (Some 0%Z). cbv iota beta.
    rewrite Hc. reflexivity.
  - cbn [Z.to_int NilZero.string_of_int].
    assert (NilZero.string_of_uint (Pos.to_uint p)
            = NilEmpty.string_of_uint (Pos.to_uint p)) as ->.
    { pose proof (proj1 (to_uint_head p)).
      destruct (Pos.to_uint p); [contradiction | reflexivity ..]. }
    destruct (unsigned_numeral p tail Htail')
      as (Hu & -> & c & s' & Hs & Hminus & Hplus).
    rewrite Hs in *. rewrite Hminus, Hplus. exact Hu.
  - cbn [Z.to_int NilZero.string_of_int].
    assert (NilZero.string_of_uint (Pos.to_uint p)
            = NilEmpty.string_of_uint (Pos.to_uint p)) as ->.
    { pose proof (proj1 (to_uint_head p)).
      destruct (Pos.to_uint p); [contradiction | reflexivity ..]. }
    cbn [append Text.trim_start]. change (Text.is_space "-") with false.
    cbv iota. change (Ascii.eqb "-" "-") with true. cbv iota.
    destruct (unsigned_numeral p tail Htail') as (-> & _).
    reflexivity.
Qed.

End CliFacts.

Module SemanticFacts.
Import OpenIntel Js.
Local Open Scope list_scope.




Lemma embed_frame this texts inputType :
  let this' := snd (_embed this texts inputType) in
  embeddingConfig this' = embeddingConfig this
  /\ dimensions this' = dimensions this
  /\ _vecLoaded this' = _vecLoaded this
  /\ vec_distance this' = vec_distance this
  /\ db this' = db this.
Proof.
  cbv zeta. unfold _embed.
  destruct (embeddingConfig this) eqn:E;
    cbn [snd embeddingConfig with_requests]; rewrite ?E;
    repeat split; reflexivity.
Qed.

Lemma add_frame this category data now :
  let this' := snd (add this category data now) in
  embeddingConfig this' = embeddingConfig this
  /\ dimensions this' = dimensions this
  /\ _vecLoaded this' = _vecLoaded this
  /\ vec_distance this' = vec_distance this.
Proof.
  cbv zeta. unfold add.
  destruct (truthy (Data.title data)); [|repeat split; reflexivity].
  cbv zeta.
  match goal with |- context [if ?c then _ else _] => destruct c end;
    [|repeat split; reflexivity].
  match goal with
  | |- context [_embed ?s ?texts ?it] =>
      pose proof (embed_frame s texts it) as (F1 & F2 & F3 & F4 & _);
      destruct (_embed s texts it) as [[vectors|e] this2]
  end; cbn [snd] in F1, F2, F3, F4;
    [destruct (vec_insert _ _ _ _ _)|]; cbn [snd];
    repeat split; assumption.
Qed.

End SemanticFacts.

Module GatewayFacts.
Import OpenIntel Js Session.
Local Open Scope list_scope.

(** **** What the calls leave alone *)

Lemma semantic_frame this queryText limit :
  embeddingConfig (snd (semantic this queryText limit))
  = embeddingConfig this.
Proof.
  unfold semantic.
  destruct (negb (is_configured this)); [reflexivity|].
  destruct (negb (_vecLoaded this)); [reflexivity|].
  pose proof (SemanticFacts.embed_frame this [queryText] Query)
    as (F & _).
  destruct (_embed this [queryText] Query) as [[vectors|e] this1];
    cbn [snd] in F; [|exact F].
  destruct (vec_nearest _ _ _) as [[|n0 rest]|e]; exact F.
Qed.

Lemma think_frame this queryText limit :
  embeddingConfig (snd (think this queryText limit)) = embeddingConfig this.
Proof.
  rewrite ThinkFacts.think_eq. cbn [snd]. unfold think_semantic.
  destruct (is_configured this && _vecLoaded this); [|reflexivity].
  pose proof (SemanticFacts.embed_frame this [queryText] Query)
    as (F & _).
  destruct (_embed this [queryText] Query) as [[vectors|e] this1];
    cbn [snd] in F; [|exact F].
  destruct (vec_nearest _ _ _); exact F.
Qed.

Lemma run_frame c this :
  embeddingConfig (run c this) = embeddingConfig this.
Proof.
  destruct c; cbn [run]; try reflexivity.
  - apply SemanticFacts.add_frame.
  - apply semantic_frame.
  - apply think_frame.
  - apply ReindexFacts.reindex_frame.
Qed.

(** **** A provider that never answers *)

Section Failing.
Variable cfg : embedding.
Hypothesis fails : forall n texts inputType,
  exists e, respond cfg n texts inputType = Throw e.

Lemma add_without_vector this category data now :
  embeddingConfig this = Some cfg ->
  intel_vec (db (snd (add this category data now))) = intel_vec (db this).
Proof.
  intros Hcfg. unfold add.
  destruct (truthy (Data.title data)); [|reflexivity]. cbv zeta.
  match goal with |- context [if ?c then _ else _] => destruct c end;
    [|reflexivity].
  unfold _embed.
  change (embeddingConfig (with_db ?d this)) with (embeddingConfig this).
  rewrite Hcfg.
  match goal with
  | |- context [respond cfg ?n ?texts ?it] =>
      destruct (fails n texts it) as [e ->]
  end.
  reflexivity.
Qed.

Lemma reindex_batch_without_vector this batch :
  embeddingConfig this = Some cfg ->
  fst (reindex_batch this batch) = 0
  /\ db (snd (reindex_batch this batch)) = db this.
Proof.
  intros Hcfg.
  destruct (fails (requests this) (map reindex_text batch) Document)
    as [e He].
  exact (ReindexFacts.reindex_batch_gateway_failure this batch cfg e
           Hcfg He).
Qed.

Lemma reindex_without_vector this :
  embeddingConfig this = Some cfg ->
  intel_vec (db (snd (reindex this))) = intel_vec (db this).
Proof.
  intros Hcfg. unfold reindex.
  destruct (negb (is_configured this)); [reflexivity|].
  destruct (negb (_vecLoaded this)); [reflexivity|].
  destruct (missing_embeddings (db this)) as [|r rest]; [reflexivity|].
  pose proof (ReindexFacts.reindex_loop_preserves
                (fun s => embeddingConfig s = Some cfg
                          /\ intel_vec (db s) = intel_vec (db this)))
    as Hloop.
  destruct (reindex_loop (r :: rest) 0 this 0) as [n this1] eqn:E.
  cbn [snd].
  specialize (Hloop
    (fun s batch Hs =>
       conj (eq_trans
               (proj1 (ReindexFacts.reindex_batch_frame s batch))
               (proj1 Hs))
            (eq_trans
               (f_equal intel_vec
                  (proj2 (reindex_batch_without_vector s batch (proj1 Hs))))
               (proj2 Hs)))
    (r :: rest) 0 this 0 (conj Hcfg eq_refl)).
  rewrite E in Hloop. exact (proj2 Hloop).
Qed.

Lemma run_without_vector c this :
  embeddingConfig this = Some cfg ->
  intel_vec (db (run c this)) = intel_vec (db this).
Proof.
  intros Hcfg. destruct c; cbn [run]; try reflexivity.
  - apply add_without_vector, Hcfg.
  - rewrite TradeFacts.semantic_db. reflexivity.
  - rewrite TradeFacts.think_db. reflexivity.
  - apply reindex_without_vector, Hcfg.
Qed.

Lemma session_without_vector cs : forall this,
  embeddingConfig this = Some cfg ->
  let reached := fold_left (fun s c => run c s) cs this in
  embeddingConfig reached = Some cfg
  /\ intel_vec (db reached) = intel_vec (db this).
Proof.
  induction cs as [|c cs IH]; intros this Hcfg; [split; auto|].
  cbn [fold_left].
  destruct (IH (run c this)) as [H1 H2].
  - rewrite run_frame. exact Hcfg.
  - split; [exact H1|]. cbv zeta in H2. rewrite H2.
    apply run_without_vector, Hcfg.
Qed.

Lemma semantic_fails this queryText limit :
  embeddingConfig this = Some cfg ->
  exists e, fst (semantic this queryText limit) = Throw e.
Proof.
  intros Hcfg. unfold semantic, is_configured. rewrite Hcfg. cbn [negb].
  destruct (negb (_vecLoaded this)); [eexists; reflexivity|].
  unfold _embed. rewrite Hcfg.
  destruct (fails (requests this) [queryText] Query) as [e ->].
  exists e. reflexivity.
Qed.

End Failing.

(** **** Dispatch *)

Lemma append_inj_l (p a b : string) :
  (p ++ a)%string = (p ++ b)%string -> a = b.
Proof.
  induction p as [|c p IH]; cbn [append]; [auto|].
  intros [= H]. apply IH, H.
Qed.

End GatewayFacts.

Module ExpiryFacts.
Import OpenIntel Js Expiry.
Local Open Scope list_scope.

Lemma limit_prefix {A} (n m : Z) (l : list A) :
  (0 <= n)%Z -> (n <= m \/ m < 0)%Z ->
  Sql.limit n l = firstn (Z.to_nat n) (Sql.limit m l).
Proof.
  intros Hn Hm. unfold Sql.limit.
  destruct (n <? 0)%Z eqn:En; [apply Z.ltb_lt in En; lia|].
  destruct (m <? 0)%Z eqn:Em; [reflexivity|].
  apply Z.ltb_ge in Em. rewrite firstn_firstn. f_equal. lia.
Qed.

Lemma insert_map {A B} (g : A -> B) keep keep' x l :
  (forall a b, keep' (g a) (g b) = keep a b) ->
  insert keep' (g x) (map g l) = map g (insert keep x l).
Proof.
  intros Hkeep. induction l as [|y l IH]; [reflexivity|].
  cbn [map insert]. rewrite Hkeep.
  destruct (keep x y); [reflexivity|]. cbn [map]. rewrite IH. reflexivity.
Qed.

Lemma stable_sort_map {A B} (g : A -> B) keep keep' l :
  (forall a b, keep' (g a) (g b) = keep a b) ->
  stable_sort keep' (map g l) = map g (stable_sort keep l).
Proof.
  intros Hkeep. induction l as [|x l IH]; [reflexivity|].
  cbn [map stable_sort]. rewrite IH. apply insert_map, Hkeep.
Qed.

Lemma filter_map {A B} (g : A -> B) (p : B -> bool) (q : A -> bool) l :
  (forall a, p (g a) = q a) ->
  filter p (map g l) = map g (filter q l).
Proof.
  intros Hp. induction l as [|x l IH]; [reflexivity|].
  cbn [map filter]. rewrite Hp, IH. destruct (q x); reflexivity.
Qed.

Lemma limit_map {A B} (g : A -> B) n l :
  Sql.limit n (map g l) = map g (Sql.limit n l).
Proof.
  unfold Sql.limit. destruct (n <? 0)%Z; [reflexivity|]. apply firstn_map.
Qed.

Lemma order_by_desc_map {A B} (g : A -> B) key key' l :
  (forall a, key' (g a) = key a) ->
  Sql.order_by_desc key' (map g l) = map g (Sql.order_by_desc key l).
Proof.
  intros Hkey. unfold Sql.order_by_desc. rewrite <- map_rev.
  apply stable_sort_map. intros a b. rewrite !Hkey. reflexivity.
Qed.

Lemma order_by_asc_map {A B} (g : A -> B) key key' l :
  (forall a, key' (g a) = key a) ->
  Sql.order_by_asc key' (map g l) = map g (Sql.order_by_asc key l).
Proof.
  intros Hkey. unfold Sql.order_by_asc.
  apply stable_sort_map. intros a b. rewrite !Hkey. reflexivity.
Qed.

Lemma parsed_tags_expiry f rows :
  parsed_tags (map (with_expiry f) rows) = parsed_tags rows.
Proof.
  induction rows as [|r rows IH]; [reflexivity|].
  cbn [map parsed_tags]. rewrite IH. reflexivity.
Qed.

End ExpiryFacts.

Module KeywordOnlyFacts.
Import OpenIntel Js Spec.
Local Open Scope list_scope.

Lemma Map_get_None {V} k (m : Map V) :
  ~ In k (Map_keys m) -> Map_get k m = None.
Proof.
  intros Hout. destruct (Map_get k m) eqn:E; [|reflexivity].
  exfalso. apply Hout, RuntimeFacts.Map_has_keys.
  unfold Map_has. rewrite E. reflexivity.
Qed.

Lemma Map_set_fresh {V} k (v : V) m :
  ~ In k (Map_keys m) -> Map_set k v m = m ++ [(k, v)].
Proof.
  induction m as [|[k0 v0] m IH]; cbn [Map_set Map_keys map fst In app];
    intros Hout; [reflexivity|].
  destruct (k =? k0)%Z eqn:E.
  - apply Z.eqb_eq in E. exfalso. apply Hout. left. congruence.
  - rewrite IH; [reflexivity|]. intros H. apply Hout. right. exact H.
Qed.

Lemma Map_fold_fresh {V} (l : list (Z * V)) : forall m,
  NoDup (Map_keys m ++ map fst l) ->
  fold_left (fun m kv => Map_set (fst kv) (snd kv) m) l m = m ++ l.
Proof.
  induction l as [|[k v] l IH]; intros m Hnd.
  - cbn. rewrite app_nil_r. reflexivity.
  - cbn [fold_left fst snd map] in *.
    rewrite Map_set_fresh.
    + rewrite IH; [rewrite <- app_assoc; reflexivity|].
      unfold Map_keys in *. rewrite map_app, <- app_assoc. exact Hnd.
    + intros Hin. apply NoDup_remove_2 in Hnd. apply Hnd.
      apply in_or_app. left. exact Hin.
Qed.

(** A [Map] built from entries with distinct keys lists them as given. *)
Lemma Map_of_distinct {V} (l : list (Z * V)) :
  NoDup (map fst l) -> Map_of l = l.
Proof. intros Hnd. unfold Map_of. apply (Map_fold_fresh l []), Hnd. Qed.

Lemma Set_fold_fresh l : forall s,
  NoDup (s ++ l) -> fold_left (fun s k => Set_add k s) l s = s ++ l.
Proof.
  induction l as [|k l IH]; intros s Hnd.
  - cbn. rewrite app_nil_r. reflexivity.
  - cbn [fold_left]. unfold Set_add at 2.
    assert (existsb (Z.eqb k) s = false) as ->.
    { destruct (existsb (Z.eqb k) s) eqn:E; [|reflexivity].
      apply existsb_exists in E as (x & Hx & Hk). apply Z.eqb_eq in Hk.
      subst x. apply NoDup_remove_2 in Hnd. exfalso. apply Hnd.
      apply in_or_app. left. exact Hx. }
    rewrite IH; [rewrite <- app_assoc; reflexivity|].
    rewrite <- app_assoc. exact Hnd.
Qed.

Lemma Set_of_distinct l : NoDup l -> Set_of l = l.
Proof. intros Hnd. unfold Set_of. apply (Set_fold_fresh l []), Hnd. Qed.

Lemma Map_get_const {V} (c : V) ids id :
  In id ids -> Map_get id (map (fun i => (i, c)) ids) = Some c.
Proof.
  induction ids as [|i ids IH]; intros Hin; [destruct Hin|].
  cbn [map Map_get]. destruct (id =? i)%Z eqn:E; [reflexivity|].
  apply Z.eqb_neq in E. destruct Hin as [->|Hin]; [congruence|].
  apply IH, Hin.
Qed.

(** A stable sort leaves a list whose elements all compare as equal as
    it is. *)
Lemma stable_sort_ties {A} (keep : A -> A -> bool) l :
  (forall a b, In a l -> In b l -> keep a b = true) ->
  stable_sort keep l = l.
Proof.
  intros Hall. apply StatsFacts.stable_sort_sorted_id.
  induction l as [|x l IH]; constructor.
  - apply IH. intros a b Ha Hb. apply Hall; right; assumption.
  - apply Forall_forall. intros y Hy.
    apply Hall; [left; reflexivity | right; exact Hy].
Qed.

(** Selecting by the ids of the first [k] rows that satisfy [p] gives
    these rows back, when ids are unique. *)
Lemma filter_prefix_ids (p : Intel.row -> bool) l : forall k,
  NoDup (map Intel.id l) ->
  filter (fun r => Sql.id_in (map Intel.id (firstn k (filter p l)))
                     (Intel.id r)) l
  = firstn k (filter p l).
Proof.
  induction l as [|r l IH]; intros k Hnd.
  - destruct k; reflexivity.
  - cbn [map] in Hnd. apply NoDup_cons_iff in Hnd as [Hr Hnd].
    assert (forall s, (forall x, In x s -> In x l) ->
              filter (fun x => Sql.id_in (Intel.id r :: map Intel.id s)
                                 (Intel.id x)) l
              = filter (fun x => Sql.id_in (map Intel.id s) (Intel.id x)) l)
      as Hskip.
    { intros s Hs. apply filter_ext_in. intros x Hx.
      unfold Sql.id_in. cbn [existsb].
      destruct (Intel.id x =? Intel.id r)%Z eqn:E; [|reflexivity].
      apply Z.eqb_eq in E. exfalso. apply Hr. rewrite <- E.
      apply in_map, Hx. }
    assert (forall k, forall x, In x (firstn k (filter p l)) -> In x l)
      as Hsub.
    { intros k0 x Hx. apply ThinkFacts.In_firstn in Hx.
      apply filter_In in Hx as [Hx _]. exact Hx. }
    assert (forall s, (forall x, In x s -> In x l) ->
              Sql.id_in (map Intel.id s) (Intel.id r) = false) as Hfresh.
    { intros s Hs. destruct (Sql.id_in _ _) eqn:E; [|reflexivity].
      apply SearchFacts.id_in_In in E.
      apply in_map_iff in E as (x & Hid & Hx). exfalso. apply Hr.
      rewrite <- Hid. apply in_map, Hs, Hx. }
    cbn [filter]. destruct (p r) eqn:Ep.
    + destruct k as [|k].
      * cbn [firstn map]. cbn [Sql.id_in existsb].
        apply ReindexFacts.filter_none. intros x _. reflexivity.
      * cbn [firstn map]. unfold Sql.id_in at 1. cbn [existsb].
        rewrite Z.eqb_refl. cbn [orb]. f_equal.
        rewrite (Hskip _ (Hsub k)). apply IH, Hnd.
    + rewrite (Hfresh _ (Hsub k)). apply IH, Hnd.
Qed.

(** The fused scores when the semantic pool is empty: every id of the
    keyword pool, in order, with the same score. *)
Lemma think_scored_keyword_only ids :
  NoDup ids ->
  think_scored (map (fun i => (i, (3 # 10)%Q)) ids) []
  = map (fun i => (i, ((7 # 10) * 0 + (3 # 10))%Q)) ids.
Proof.
  intros Hnd. unfold think_scored.
  assert (Map_keys (map (fun i : Z => (i, (3 # 10)%Q)) ids) = ids) as ->.
  { unfold Map_keys. rewrite map_map. cbn [fst]. apply map_id. }
  cbn [Map_keys map]. rewrite app_nil_r, (Set_of_distinct _ Hnd).
  rewrite (map_ext_in _ (fun i => (i, ((7 # 10) * 0 + (3 # 10))%Q))).
  - apply stable_sort_ties. intros a b Ha Hb.
    apply in_map_iff in Ha as (i & <- & _).
    apply in_map_iff in Hb as (j & <- & _). reflexivity.
  - intros i Hi. unfold Map_has.
    rewrite (Map_get_const (3 # 10)%Q ids i Hi). reflexivity.
Qed.

Lemma fetch_scored_keyword_only (c : Q) entries ids rows :
  NoDup ids ->
  (forall r, In r rows -> In (Intel.id r) ids) ->
  filter (fun r => Sql.id_in (map Intel.id rows) (Intel.id r)) entries
  = rows ->
  fetch_scored entries (map (fun i => (i, c)) ids) (map Intel.id rows)
  = map (fun r => (r, c)) rows.
Proof.
  intros Hnd Hsub Hrows. unfold fetch_scored. rewrite Hrows.
  rewrite Map_of_distinct
    by (rewrite map_map; cbn [fst]; rewrite map_id; exact Hnd).
  rewrite (map_ext_in _ (fun r => (r, c))).
  - apply stable_sort_ties. intros a b Ha Hb.
    apply in_map_iff in Ha as (x & <- & _).
    apply in_map_iff in Hb as (y & <- & _). cbn [snd].
    apply Qle_bool_iff. lra.
  - intros r Hr. rewrite (Map_get_const c ids _ (Hsub r Hr)). reflexivity.
Qed.

End KeywordOnlyFacts.

(* ===================================================================== *)
(** ** Further properties of the code                                      *)
(* ===================================================================== *)

(** X1. On a store opened on a fresh file, whatever calls were issued,
    the entries carry the ids 1, 2, ..., n in insertion order, and the
    next [add] with a title returns n + 1, an id above every id in use,
    and leaves the table with one more row at its end, which carries
    the id n + 1, the given category and title and the time of the
    call. *)
Theorem entry_ids_are_sequential
    (cs : list Session.call) (this : t) (category : string) (data : Data.t)
    (now title : string) :
  db this = empty_database ->
  Js.truthy (Data.title data) = Some title ->
  let reached := fold_left (fun s c => Session.run c s) cs this in
  let n := length (intel (db reached)) in
  map Intel.id (intel (db reached)) = Invariant.upto n
  /\ fst (add reached category data now) = Js.Return (Z.of_nat n + 1)%Z
  /\ (forall r, In r (intel (db reached)) ->
                (Intel.id r < Z.of_nat n + 1)%Z)
  /\ exists r,
       intel (db (snd (add reached category data now)))
       = intel (db reached) ++ [r]
       /\ Intel.id r = (Z.of_nat n + 1)%Z
       /\ Intel.category r = category
       /\ Intel.title r = title
       /\ Intel.created_at r = now.
Proof.
  intros Hfresh Htitle reached n.
  destruct (IdentityFacts.numbered_reachable cs this Hfresh)
    as (Hids & Hseq & _).
  fold reached in Hids, Hseq. fold n in Hids, Hseq.
  destruct (IdentityFacts.add_tables reached category data now title Htitle)
    as (Hid & Hintel & _).
  assert (Hnext : Sql.next_rowid (map Intel.id (intel (db reached)))
                    (intel_seq (db reached)) = (Z.of_nat n + 1)%Z).
  { rewrite Hids, Hseq, IdentityFacts.next_rowid_upto. lia. }
  split; [exact Hids|]. split; [|split].
  - rewrite Hid, Hnext. reflexivity.
  - intros r Hr.
    assert (In (Intel.id r) (Invariant.upto n)) as Hin
      by (rewrite <- Hids; apply in_map, Hr).
    apply IdentityFacts.upto_bound in Hin. lia.
  - eexists. split; [exact Hintel|].
    split; [exact Hnext|]. repeat split.
Qed.

(** X1 at work: the third entry of a fresh store gets id 3. *)
Lemma entry_ids_are_sequential_witness :
  db (Examples.fresh None false) = empty_database
  /\ Js.truthy (Data.title Examples.digest) = Some "Morning Brew digest"
  /\ fst (add Examples.keyword_store "market" Examples.digest
            "2024-03-01 09:00:09") = Js.Return 3%Z.
Proof.
  split; [reflexivity|]. split; [reflexivity|].
  destruct (entry_ids_are_sequential
              [Session.Call_add "market" Examples.signal "2024-03-01 09:00:00";
               Session.Call_add "newsletter" Examples.digest
                 "2024-03-01 09:00:05"]
              (Examples.fresh None false) "market" Examples.digest
              "2024-03-01 09:00:09" "Morning Brew digest"
              eq_refl eq_refl) as (_ & Hadd & _).
  exact Hadd.
Defined.

(** X2. [add] validates the title and nothing else: without a title
    (absent or empty) it throws [Error "title is required"] and leaves
    the handle exactly as it was; with a title it returns an id. *)
Theorem add_requires_title
    (this : t) (category : string) (data : Data.t) (now : string) :
  match Js.truthy (Data.title data) with
  | None =>
      add this category data now
      = (Js.Throw (Js.Error "title is required"), this)
  | Some _ => exists id, fst (add this category data now) = Js.Return id
  end.
Proof.
  destruct (Js.truthy (Data.title data)) as [title|] eqn:Etitle.
  - eexists. apply (IdentityFacts.add_tables this category data now title Etitle).
  - apply IdentityFacts.add_rejected, Etitle.
Qed.

(** X3. On a store opened on a fresh file, whatever calls were issued,
    the trades carry the ids 1, 2, ..., m in insertion order and
    [addTrade] returns m + 1 and leaves the journal with one more row at
    its end: the trade with the id m + 1, the given ticker, series
    ticker and thesis (absent when empty), direction, contracts, entry
    price and metadata ([{}] by default), placed at the time of the
    call, with no exit price, outcome, profit or resolution date. *)
Theorem trade_ids_are_sequential
    (cs : list Session.call) (this : t) (data : TradeData.t) (now : string) :
  db this = empty_database ->
  let reached := fold_left (fun s c => Session.run c s) cs this in
  let m := length (trades (db reached)) in
  let or_null (s : option string) :=
    match s with Some ""%string => None | _ => s end in
  map Trade.id (trades (db reached)) = Invariant.upto m
  /\ fst (addTrade reached data now) = (Z.of_nat m + 1)%Z
  /\ trades (db (snd (addTrade reached data now)))
     = trades (db reached)
       ++ [{| Trade.id := (Z.of_nat m + 1)%Z;
              Trade.ticker := TradeData.ticker data;
              Trade.series_ticker := or_null (TradeData.series_ticker data);
              Trade.direction := TradeData.direction data;
              Trade.contracts := TradeData.contracts data;
              Trade.entry_price := TradeData.entry_price data;
              Trade.exit_price := None;
              Trade.thesis := or_null (TradeData.thesis data);
              Trade.outcome := None;
              Trade.pnl_cents := None;
              Trade.placed_at := now;
              Trade.resolved_at := None;
              Trade.metadata :=
                match TradeData.metadata data with
                | Some m => m
                | None => "{}"%string
                end |}]
  /\ intel (db (snd (addTrade reached data now))) = intel (db reached)
  /\ intel_vec (db (snd (addTrade reached data now)))
     = intel_vec (db reached).
Proof.
  intros Hfresh reached m or_null.
  destruct (IdentityFacts.numbered_reachable cs this Hfresh)
    as (_ & _ & Hids & Hseq).
  fold reached in Hids, Hseq. fold m in Hids, Hseq.
  assert (Hnext : Sql.next_rowid (map Trade.id (trades (db reached)))
                    (trades_seq (db reached)) = (Z.of_nat m + 1)%Z).
  { rewrite Hids, Hseq, IdentityFacts.next_rowid_upto. lia. }
  split; [exact Hids|].
  unfold addTrade. cbn [fst snd db with_db with_trades trades intel intel_vec].
  rewrite Hnext. repeat split.
Qed.

(** X3 at work: the second trade of a store gets id 2. *)
Lemma trade_ids_are_sequential_witness :
  db (Examples.fresh None false) = empty_database
  /\ fst (addTrade Examples.one_trade Examples.long_aapl
            "2024-03-01 11:00:00") = 2%Z.
Proof.
  split; [reflexivity|].
  destruct (trade_ids_are_sequential
              [Session.Call_add "market" Examples.signal
                 "2024-03-01 09:00:00";
               Session.Call_add "newsletter" Examples.digest
                 "2024-03-01 09:00:05";
               Session.Call_addTrade Examples.long_aapl
                 "2024-03-01 10:00:00"]
              (Examples.fresh None false) Examples.long_aapl
              "2024-03-01 11:00:00" eq_refl) as (_ & Hid & _).
  exact Hid.
Defined.

(** X4. On a store opened on a fresh file, whatever calls were issued,
    the tables satisfy the schema's constraints: entry ids are unique,
    vector keys are unique, and every vector belongs to a stored entry. *)
Theorem vectors_belong_to_entries (cs : list Session.call) (this : t) :
  db this = empty_database ->
  let reached := fold_left (fun s c => Session.run c s) cs this in
  NoDup (map Intel.id (intel (db reached)))
  /\ NoDup (map Vec.intel_id (intel_vec (db reached)))
  /\ forall v, In v (intel_vec (db reached)) ->
       exists r, In r (intel (db reached)) /\ Intel.id r = Vec.intel_id v.
Proof.
  intros Hfresh reached.
  pose proof (InvariantFacts.store_ok_reachable cs this Hfresh) as Hok.
  apply InvariantFacts.store_ok_iff in Hok as (H1 & H2 & H3).
  split; [exact H1|]. split; [exact H2|].
  intros v Hv. apply H3 in Hv. apply in_map_iff in Hv as (r & E & Hr).
  exists r. split; assumption.
Qed.

(** X4 at work on the store whose provider recovers before [reindex]. *)
Lemma vectors_belong_to_entries_witness :
  db (Examples.fresh (Some Examples.recovering_provider) true)
  = empty_database
  /\ forall v,
       In v (intel_vec (db (snd (reindex Examples.recovering_store)))) ->
       exists r,
         In r (intel (db (snd (reindex Examples.recovering_store))))
         /\ Intel.id r = Vec.intel_id v.
Proof.
  split; [reflexivity|].
  apply (vectors_belong_to_entries
           [Session.Call_add "market" Examples.signal "2024-03-01 09:00:00";
            Session.Call_add "newsletter" Examples.digest
              "2024-03-01 09:00:05";
            Session.Call_reindex]
           (Examples.fresh (Some Examples.recovering_provider) true) eq_refl).
Defined.

(** X5. [query] without a tag: the listing is newest first; it holds at
    most [limit] entries (20 when no limit is given) for a non-negative
    limit; each listed entry is stored, has the requested category unless
    the category is "all" or empty, and is not older than [since] when a
    non-empty [since] is given; and with a limit that covers the table,
    every such entry is listed. *)
Theorem query_lists_category_since
    (this : t) (category : string) (limit : option Z) (since : option string) :
  let n := match limit with Some n => n | None => 20%Z end in
  let listing := query this category (Options.mk limit since None) in
  let wanted (r : Intel.row) :=
    (category = "" \/ category = "all" \/ Intel.category r = category)
    /\ match since with
       | Some s => s = "" \/ String.leb s (Intel.created_at r) = true
       | None => True
       end in
  StronglySorted Spec.newest_first listing
  /\ ((0 <= n)%Z -> (Z.of_nat (length listing) <= n)%Z)
  /\ (forall r, In r listing -> In r (intel (db this)) /\ wanted r)
  /\ ((Z.of_nat (length (intel (db this))) <= n)%Z ->
      forall r, In r (intel (db this)) -> wanted r -> In r listing).
Proof.
  intros n listing wanted. unfold listing, query.
  cbn [Options.limit Options.since Options.tag].
  fold n. set (keep := fun r : Intel.row => _).
  assert (Hkeep : forall r, keep r = true <-> wanted r).
  { intros r. unfold keep, wanted.
    change (Js.truthy (@None string)) with (@None string).
    rewrite andb_true_r, andb_true_iff.
    rewrite ListingFacts.category_filter_spec, ListingFacts.since_filter_spec.
    reflexivity. }
  split; [|split; [|split]].
  - apply ListingFacts.limit_sorted, SearchFacts.order_by_desc_sorted.
  - intros Hn. apply ListingFacts.limit_length, Hn.
  - intros r Hr. apply ListingFacts.limit_In in Hr.
    apply ListingFacts.order_by_desc_In, filter_In in Hr as [Hin Hk].
    split; [exact Hin | apply Hkeep, Hk].
  - intros Hcover r Hin Hw.
    rewrite ListingFacts.limit_all.
    + apply ListingFacts.order_by_desc_In, filter_In.
      split; [exact Hin | apply Hkeep, Hw].
    + rewrite ListingFacts.order_by_desc_length.
      apply ListingFacts.filter_length_Z, Hcover.
Qed.

(** X5 at work: [query("market")] with the default limit on the
    keyword-only store. *)
Lemma query_lists_category_since_witness :
  (0 <= 20)%Z
  /\ (Z.of_nat (length (intel (db Examples.keyword_store))) <= 20)%Z
  /\ map Intel.id
       (query Examples.keyword_store "market" (Options.mk None None None))
     = [1%Z]
  /\ forall r,
       In r (intel (db Examples.keyword_store)) ->
       Intel.category r = "market" ->
       In r (query Examples.keyword_store "market"
               (Options.mk None None None)).
Proof.
  split; [lia|]. split; [vm_compute; discriminate|].
  split; [reflexivity|].
  destruct (query_lists_category_since Examples.keyword_store "market"
              None None) as (_ & _ & _ & Hall).
  intros r Hin Hcat. apply Hall.
  - vm_compute. discriminate.
  - exact Hin.
  - split; [right; right; exact Hcat | exact I].
Defined.

(** X6. [search] has no false negatives: with a limit that covers the
    table, every stored entry whose title, body or source contains the
    text, literally or up to ASCII letter case, is returned, whatever
    characters the text contains; and [search] only returns stored
    entries. *)
Theorem search_finds_every_mention (this : t) (text : string) (limit : Z) :
  (Z.of_nat (length (intel (db this))) <= limit)%Z ->
  (forall r, In r (search this text limit) -> In r (intel (db this)))
  /\ (forall r,
         In r (intel (db this)) ->
         Spec.mentions text r = true \/ Spec.mentions_nocase text r = true ->
         In r (search this text limit)).
Proof.
  intros Hcover. unfold search. split.
  - intros r Hr. apply ListingFacts.limit_In in Hr.
    apply ListingFacts.order_by_desc_In, filter_In in Hr. apply Hr.
  - intros r Hin Hm.
    assert (Hnocase : Spec.mentions_nocase text r = true).
    { destruct Hm as [Hm|Hm]; [|exact Hm].
      unfold Spec.mentions, Spec.mentions_nocase in *.
      apply orb_true_iff in Hm as [Hm|Hm];
        [apply orb_true_iff in Hm as [Hm|Hm]|].
      - rewrite (ListingFacts.contains_fold _ _ Hm). reflexivity.
      - rewrite (ListingFacts.contains_opt_fold _ _ Hm).
        rewrite orb_true_r. reflexivity.
      - rewrite (ListingFacts.contains_opt_fold _ _ Hm).
        apply orb_true_r. }
    rewrite ListingFacts.limit_all.
    + apply ListingFacts.order_by_desc_In, filter_In. split; [exact Hin|].
      unfold Spec.mentions_nocase in Hnocase.
      apply orb_true_iff in Hnocase as [Hn|Hn];
        [apply orb_true_iff in Hn as [Hn|Hn]|].
      * rewrite (ListingFacts.like_nocase_sound _ _ Hn). reflexivity.
      * rewrite (ListingFacts.like_opt_nocase_sound _ _ Hn).
        rewrite orb_true_r. reflexivity.
      * rewrite (ListingFacts.like_opt_nocase_sound _ _ Hn).
        apply orb_true_r.
    + rewrite ListingFacts.order_by_desc_length.
      apply ListingFacts.filter_length_Z, Hcover.
Qed.

(** X6 at work: a text with a wildcard character that occurs literally. *)
Lemma search_finds_every_mention_witness :
  (Z.of_nat (length (intel (db MoreExamples.cpi_store))) <= 10)%Z
  /\ forall r,
       In r (intel (db MoreExamples.cpi_store)) ->
       Spec.mentions "3% in" r = true ->
       In r (search MoreExamples.cpi_store "3% in" 10).
Proof.
  split; [vm_compute; discriminate|].
  destruct (search_finds_every_mention MoreExamples.cpi_store "3% in" 10)
    as [_ Hfound]; [vm_compute; discriminate|].
  intros r Hin Hm. apply Hfound; [exact Hin | left; exact Hm].
Defined.



(** X8. [trades] splits the journal by the outcome column: whatever the
    limit and [since], a listing only holds stored trades, trades with an
    outcome under [resolved: true] and trades without under
    [resolved: false]; with a limit that covers the table and no [since],
    a stored trade is in the resolved listing exactly when its outcome is
    set, in the open listing exactly when it is null, and always in the
    unfiltered listing. *)
Theorem trades_split_by_outcome
    (this : t) (limit : Z) (since : option string) :
  (forall resolved r,
      In r (list_trades this limit since resolved) ->
      In r (trades (db this)))
  /\ (forall r,
         In r (list_trades this limit since (Some true)) ->
         Trade.outcome r <> None)
  /\ (forall r,
         In r (list_trades this limit since (Some false)) ->
         Trade.outcome r = None)
  /\ ((Z.of_nat (length (trades (db this))) <= limit)%Z ->
      forall r,
        In r (trades (db this)) ->
        (In r (list_trades this limit None (Some true))
         <-> Trade.outcome r <> None)
        /\ (In r (list_trades this limit None (Some false))
            <-> Trade.outcome r = None)
        /\ In r (list_trades this limit None None)).
Proof.
  split; [|split; [|split]].
  - intros resolved r H. apply TradeListFacts.list_trades_In in H. apply H.
  - intros r H. apply TradeListFacts.list_trades_In in H. apply H.
  - intros r H. apply TradeListFacts.list_trades_In in H. apply H.
  - intros Hcover r Hin. split; [|split].
    + split.
      * intros H. apply TradeListFacts.list_trades_In in H. apply H.
      * intros H.
        apply (TradeListFacts.list_trades_all this limit (Some true) r);
          assumption.
    + split.
      * intros H. apply TradeListFacts.list_trades_In in H. apply H.
      * intros H.
        apply (TradeListFacts.list_trades_all this limit (Some false) r);
          assumption.
    + apply (TradeListFacts.list_trades_all this limit None r);
        [assumption | assumption | exact I].
Qed.

(** X8 at work: the open trade of the example journal. *)
Lemma trades_split_by_outcome_witness :
  (Z.of_nat (length (trades (db Examples.one_trade))) <= 20)%Z
  /\ forall r,
       In r (trades (db Examples.one_trade)) ->
       (In r (list_trades Examples.one_trade 20 None (Some false))
        <-> Trade.outcome r = None).
Proof.
  split; [vm_compute; discriminate|].
  intros r Hin.
  destruct (trades_split_by_outcome Examples.one_trade 20 None)
    as (_ & _ & _ & Hall).
  apply (Hall ltac:(vm_compute; discriminate) r Hin).
Defined.

(** X9. [resolveTrade(id, outcome, pnl)] rewrites the trades with that
    id: each comes out with the given outcome and profit and the time of
    the call as its resolution date, its other columns as they were; it
    is then in the resolved listing (limit covering the table) and in no
    open listing. The trades with another id, the order of the journal,
    the entries and the vectors are as before; and when no trade has the
    id, nothing changes at all. *)
Theorem resolve_moves_trade_to_resolved
    (this : t) (id : Z) (outcome : string) (pnl_cents : Z) (now : string)
    (limit : Z) :
  let this' := resolveTrade this id outcome pnl_cents now in
  let resolved (r : Trade.row) : Trade.row :=
    {| Trade.id := Trade.id r;
       Trade.ticker := Trade.ticker r;
       Trade.series_ticker := Trade.series_ticker r;
       Trade.direction := Trade.direction r;
       Trade.contracts := Trade.contracts r;
       Trade.entry_price := Trade.entry_price r;
       Trade.exit_price := Trade.exit_price r;
       Trade.thesis := Trade.thesis r;
       Trade.outcome := Some outcome;
       Trade.pnl_cents := Some pnl_cents;
       Trade.placed_at := Trade.placed_at r;
       Trade.resolved_at := Some now;
       Trade.metadata := Trade.metadata r |} in
  (forall r,
      In r (trades (db this)) -> Trade.id r = id ->
      In (resolved r) (trades (db this'))
      /\ ((Z.of_nat (length (trades (db this))) <= limit)%Z ->
          In (resolved r) (list_trades this' limit None (Some true))))
  /\ (forall r',
         In r' (trades (db this')) -> Trade.id r' = id ->
         (exists r, In r (trades (db this)) /\ Trade.id r = id
                    /\ r' = resolved r)
         /\ Trade.outcome r' = Some outcome
         /\ Trade.pnl_cents r' = Some pnl_cents
         /\ Trade.resolved_at r' = Some now)
  /\ (forall since r',
         In r' (list_trades this' limit since (Some false)) ->
         Trade.id r' <> id)
  /\ (forall r,
         Trade.id r <> id ->
         (In r (trades (db this')) <-> In r (trades (db this))))
  /\ map Trade.id (trades (db this')) = map Trade.id (trades (db this))
  /\ intel (db this') = intel (db this)
  /\ intel_vec (db this') = intel_vec (db this)
  /\ ((forall r, In r (trades (db this)) -> Trade.id r <> id) ->
      db this' = db this).
Proof.
  intros this' resolved.
  assert (Htrades : trades (db this')
                    = map (resolve_row id outcome pnl_cents now)
                        (trades (db this))) by reflexivity.
  assert (Hsame : forall r, Trade.id r = id ->
                    resolve_row id outcome pnl_cents now r = resolved r).
  { intros r Hid. unfold resolve_row. apply Z.eqb_eq in Hid.
    rewrite Hid. reflexivity. }
  assert (Hback : forall r', In r' (trades (db this')) -> Trade.id r' = id ->
                    exists r, In r (trades (db this)) /\ Trade.id r = id
                              /\ r' = resolved r).
  { intros r' Hin Hid. rewrite Htrades in Hin.
    apply in_map_iff in Hin as (r & <- & Hr).
    rewrite TradeFacts.resolve_row_id in Hid.
    exists r. split; [exact Hr|]. split; [exact Hid | apply Hsame, Hid]. }
  split; [|split; [|split; [|split; [|split; [|split; [|split]]]]]].
  - intros r Hin Hid.
    assert (Hin' : In (resolved r) (trades (db this'))).
    { rewrite Htrades, <- (Hsame r Hid). apply in_map, Hin. }
    split; [exact Hin'|]. intros Hcover.
    apply (TradeListFacts.list_trades_all this' limit (Some true));
      [rewrite Htrades, length_map; exact Hcover | exact Hin'
      | discriminate].
  - intros r' Hin Hid. split; [apply Hback; assumption|].
    destruct (Hback r' Hin Hid) as (r & _ & _ & ->). repeat split.
  - intros since r' Hopen Hid.
    apply TradeListFacts.list_trades_In in Hopen as [Hin Hnone].
    destruct (Hback r' Hin Hid) as (r & _ & _ & ->). discriminate.
  - intros r Hne. rewrite Htrades, in_map_iff. split.
    + intros (r0 & Hr0 & Hin).
      destruct (Z.eq_dec (Trade.id r0) id) as [E|E].
      * rewrite <- Hr0, TradeFacts.resolve_row_id in Hne. contradiction.
      * rewrite (TradeListFacts.resolve_row_other _ _ _ _ _ E) in Hr0.
        subst r0. exact Hin.
    + intros Hin. exists r. split; [|exact Hin].
      apply TradeListFacts.resolve_row_other, Hne.
  - rewrite Htrades, map_map. apply map_ext. intros r.
    apply TradeFacts.resolve_row_id.
  - reflexivity.
  - reflexivity.
  - intros Hnone. unfold this', resolveTrade.
    cbn [db with_db with_trades].
    assert (map (resolve_row id outcome pnl_cents now) (trades (db this))
            = trades (db this)) as ->.
    { rewrite <- (map_id (trades (db this))) at 2.
      apply map_ext_in. intros r Hr.
      apply TradeListFacts.resolve_row_other, Hnone, Hr. }
    destruct (db this); reflexivity.
Qed.

(** X9 at work: resolving trade 1 of the example journal, and resolving
    the absent trade 7. *)
Lemma resolve_moves_trade_to_resolved_witness :
  (forall r,
         In r (trades (db (resolveTrade Examples.one_trade 1 "win" 350
                             "2024-03-02 16:00:00"))) ->
         Trade.id r = 1%Z ->
         Trade.outcome r = Some "win"%string
         /\ Trade.pnl_cents r = Some 350%Z)
  /\ (forall r, In r (trades (db Examples.one_trade)) -> Trade.id r <> 7%Z)
  /\ db (resolveTrade Examples.one_trade 7 "win" 350 "2024-03-02 16:00:00")
     = db Examples.one_trade.
Proof.
  destruct (resolve_moves_trade_to_resolved Examples.one_trade 1 "win" 350
              "2024-03-02 16:00:00" 20) as (_ & Hrow & _).
  destruct (resolve_moves_trade_to_resolved Examples.one_trade 7 "win" 350
              "2024-03-02 16:00:00" 20)
    as (_ & _ & _ & _ & _ & _ & _ & Hnoop).
  assert (Hseven : forall r, In r (trades (db Examples.one_trade)) ->
                             Trade.id r <> 7%Z)
    by (intros r [<-|[]]; vm_compute; discriminate).
  split; [|split; [exact Hseven | apply Hnoop, Hseven]].
  intros r Hin Hid. destruct (Hrow r Hin Hid) as (_ & Ho & Hp & _).
  split; assumption.
Defined.

(** X10. With a distance that is never negative, every score [semantic]
    returns is a similarity in (0, 1], and so is every score [think]
    returns: at least 0.3 for an entry of the keyword pool, at most 0.7
    for an entry outside it. *)
Theorem scores_are_bounded (this : t) (queryText : string) (limit : Z) :
  (forall a b, (0 <= vec_distance this a b)%Q) ->
  (forall rows r s,
      fst (semantic this queryText limit) = Js.Return rows ->
      In (r, s) rows -> (0 < s /\ s <= 1)%Q)
  /\ (forall rows r s,
        fst (think this queryText limit) = Js.Return rows ->
        In (r, s) rows ->
        (0 < s /\ s <= 1)%Q
        /\ (Js.Map_has (Intel.id r) (think_keyword this queryText limit)
            = true -> (3 # 10 <= s)%Q)
        /\ (Js.Map_has (Intel.id r) (think_keyword this queryText limit)
            = false -> (s <= 7 # 10)%Q)).
Proof.
  intros Hmetric. split.
  - intros rows r s Hrows Hin.
    destruct (ScoreFacts.semantic_row _ _ _ _ _ _ Hrows Hin)
      as (d & q & v & _ & _ & -> & ->).
    apply ScoreFacts.similarity_bounds, Hmetric.
  - intros rows r s Hrows Hin.
    destruct (ScoreFacts.think_row _ _ _ _ _ _ Hrows Hin) as [Hpool ->].
    apply ThinkFacts.pool_ids_In in Hpool.
    unfold Spec.fused, Spec.semantic_score, Spec.keyword_weight.
    pose proof (ScoreFacts.semantic_pool_bounds this queryText limit
                  (Intel.id r)) as Hsem.
    destruct (Js.Map_get (Intel.id r)
                (fst (think_semantic this queryText limit))) as [x|] eqn:Eget.
    + destruct (Hsem x Hmetric eq_refl) as [Hx0 Hx1].
      destruct (Js.Map_has (Intel.id r) (think_keyword this queryText limit));
        repeat split; intros; try discriminate; lra.
    + destruct (Js.Map_has (Intel.id r) (think_keyword this queryText limit))
        eqn:Ekw.
      * repeat split; intros; try discriminate; lra.
      * exfalso. destruct Hpool as [Hk|Hk].
        -- apply RuntimeFacts.Map_has_keys in Hk. congruence.
        -- apply RuntimeFacts.Map_has_keys in Hk.
           unfold Js.Map_has in Hk. rewrite Eget in Hk. discriminate.
Qed.

(** X10 on both entries of the vector store. *)
Lemma scores_are_bounded_witness :
  (forall a b, (0 <= vec_distance Examples.vector_store a b)%Q)
  /\ forall r s,
       In (r, s)
          (match fst (think Examples.vector_store "aapl" 5) with
           | Js.Return rows => rows
           | Js.Throw _ => []
           end) ->
       (0 < s /\ s <= 1)%Q.
Proof.
  split; [exact MetricFacts.squared_distance_nonneg|].
  intros r s Hin.
  destruct (scores_are_bounded Examples.vector_store "aapl" 5
              MetricFacts.squared_distance_nonneg) as [_ Hthink].
  destruct (fst (think Examples.vector_store "aapl" 5)) as [rows|e] eqn:E;
    [|destruct Hin].
  exact (proj1 (Hthink rows r s eq_refl Hin)).
Defined.

(** X11. Calls of the provider are counted: with a provider and the
    vector index, [add] (given a title), [semantic] and [think] each call
    [_embed] exactly once and [reindex] calls it once per batch of 128
    missing entries; without either, none of them calls it. [semantic]
    and [think] leave the tables as they were. *)
Theorem gateway_requests_are_counted (this : t) :
  let ready := is_configured this && _vecLoaded this in
  (forall category data now,
      requests (snd (add this category data now))
      = requests this
        + (if ready then
             match Js.truthy (Data.title data) with
             | Some _ => 1
             | None => 0
             end
           else 0))
  /\ (forall queryText limit,
        requests (snd (semantic this queryText limit))
        = requests this + (if ready then 1 else 0)
        /\ db (snd (semantic this queryText limit)) = db this)
  /\ (forall queryText limit,
        requests (snd (think this queryText limit))
        = requests this + (if ready then 1 else 0)
        /\ db (snd (think this queryText limit)) = db this)
  /\ requests (snd (reindex this))
     = requests this
       + (if ready then
            (length (missing_embeddings (db this)) + 127) / 128
          else 0).
Proof.
  intros ready. subst ready. split; [|split; [|split]].
  - intros category data now. unfold add.
    destruct (Js.truthy (Data.title data)) as [title|];
      [|destruct (_ && _); cbn [snd]; lia].
    cbv zeta.
    change (is_configured (with_db ?d this)) with (is_configured this).
    change (_vecLoaded (with_db ?d this)) with (_vecLoaded this).
    destruct (is_configured this && _vecLoaded this) eqn:Eready;
      [|cbn; lia].
    apply andb_true_iff in Eready as [Hcfg _].
    unfold is_configured in Hcfg. unfold _embed.
    change (embeddingConfig (with_db ?d this)) with (embeddingConfig this).
    destruct (embeddingConfig this) as [cfg|]; [|discriminate].
    destruct (respond cfg _ _ _) as [vectors|e]; [|cbn; lia].
    destruct (vec_insert _ _ _ _ _); cbn; lia.
  - intros queryText limit.
    split; [|apply TradeFacts.semantic_db].
    unfold semantic, is_configured, _embed.
    destruct (embeddingConfig this) as [cfg|]; cbn [negb andb snd];
      [|lia].
    destruct (_vecLoaded this); cbn [negb snd]; [|lia].
    destruct (respond cfg _ _ _) as [vectors|e]; [|cbn; lia].
    destruct (vec_nearest _ _ _) as [[|n0 rest]|e]; cbn; lia.
  - intros queryText limit.
    split; [|apply TradeFacts.think_db].
    rewrite ThinkFacts.think_eq. cbn [snd].
    unfold think_semantic, is_configured, _embed.
    destruct (embeddingConfig this) as [cfg|]; cbn [negb andb snd];
      [|lia].
    destruct (_vecLoaded this); cbn [negb snd]; [|lia].
    destruct (respond cfg _ _ _) as [vectors|e]; [|cbn; lia].
    destruct (vec_nearest _ _ _); cbn; lia.
  - destruct (is_configured this) eqn:Hcfg; cbn [andb];
      [|unfold reindex; rewrite Hcfg; cbn; lia].
    destruct (_vecLoaded this) eqn:Hvec;
      [|unfold reindex; rewrite Hcfg, Hvec; cbn; lia].
    rewrite (AccountFacts.reindex_eq this Hcfg Hvec). cbn [snd].
    unfold Spec.run_batches.
    rewrite AccountFacts.run_batches_requests by exact Hcfg.
    rewrite AccountFacts.chunks_length by (unfold batchSize; lia).
    unfold batchSize. f_equal. f_equal. lia.
Qed.

(** X12. On tables that satisfy the schema's constraints, a [reindex]
    that returns adds exactly [embedded] vectors, embeds no more than
    [total] entries, and [total] is the number of entries minus the number
    of vectors at the time of the call. *)
Theorem reindex_counts_new_vectors (this this1 : t) (res : reindex_result) :
  Invariant.store_ok (db this) = true ->
  reindex this = (Js.Return res, this1) ->
  vectored this1 = vectored this + embedded res
  /\ embedded res <= total res
  /\ total res + vectored this = length (intel (db this)).
Proof.
  intros Hok Hrun. apply InvariantFacts.store_ok_iff in Hok.
  destruct (AccountFacts.reindex_returns _ _ _ Hrun) as [Hcfg Hvec].
  destruct (ReindexFacts.reindex_frame this) as (_ & _ & Fvec & _).
  rewrite Hrun in Fvec. cbn [snd] in Fvec.
  unfold vectored. rewrite Fvec, Hvec.
  rewrite (AccountFacts.reindex_eq this Hcfg Hvec) in Hrun.
  injection Hrun as <- <-. cbn [embedded total].
  assert (0 < batchSize) as Hn by (unfold batchSize; lia).
  pose proof (AccountFacts.run_batches_vectors
                (Spec.chunks batchSize (missing_embeddings (db this)))
                0 this) as Hlen.
  pose proof (ReindexFacts.run_batches_bound
                (Spec.chunks batchSize (missing_embeddings (db this)))
                0 this) as Hle.
  rewrite (ReindexFacts.concat_chunks _ _ Hn) in Hlen, Hle.
  specialize (Hlen (AccountFacts.missing_nodup _ (proj1 Hok))
                   (AccountFacts.missing_fresh _)).
  pose proof (AccountFacts.entries_split _ Hok) as Hsplit.
  unfold Spec.run_batches. repeat split; lia.
Qed.

(** X12 on the store whose provider recovers before [reindex]. *)
Lemma reindex_counts_new_vectors_witness :
  Invariant.store_ok (db Examples.recovering_store) = true
  /\ reindex Examples.recovering_store
     = (Js.Return {| embedded := 2; total := 2 |},
        snd (reindex Examples.recovering_store))
  /\ vectored (snd (reindex Examples.recovering_store))
     = vectored Examples.recovering_store + 2.
Proof.
  assert (H : reindex Examples.recovering_store
              = (Js.Return {| embedded := 2; total := 2 |},
                 snd (reindex Examples.recovering_store)))
    by (vm_compute; reflexivity).
  split; [reflexivity|]. split; [exact H|].
  exact (proj1 (reindex_counts_new_vectors Examples.recovering_store _ _
                  eq_refl H)).
Defined.

(** X13. On tables that satisfy the schema's constraints, a second
    [reindex] with no write in between finds as missing exactly what the
    first one left: its [total] is the first [total] minus the first
    [embedded]. *)
Theorem reindex_again_counts_the_rest (this this1 this2 : t)
    (first second : reindex_result) :
  Invariant.store_ok (db this) = true ->
  reindex this = (Js.Return first, this1) ->
  reindex this1 = (Js.Return second, this2) ->
  total second + embedded first = total first.
Proof.
  intros Hok Hrun1 Hrun2.
  pose proof (InvariantFacts.reindex_well_formed this
                (proj1 (InvariantFacts.store_ok_iff _) Hok)) as Hwf1.
  destruct (ReindexFacts.reindex_frame this) as (_ & _ & _ & Fintel & _).
  rewrite Hrun1 in Hwf1, Fintel. cbn [snd] in Hwf1, Fintel.
  apply InvariantFacts.store_ok_iff in Hwf1.
  destruct (AccountFacts.reindex_returns _ _ _ Hrun1) as [_ Hvec].
  destruct (AccountFacts.reindex_returns _ _ _ Hrun2) as [_ Hvec1].
  assert (vectored this1 = vectored this + embedded first
          /\ embedded first <= total first
          /\ total first + vectored this = length (intel (db this)))
    as (H1 & _ & H2).
  { apply InvariantFacts.store_ok_iff in Hok.
    destruct (AccountFacts.reindex_returns _ _ _ Hrun1) as [Hcfg _].
    unfold vectored. rewrite Hvec, Hvec1.
    rewrite (AccountFacts.reindex_eq this Hcfg Hvec) in Hrun1.
    injection Hrun1 as <- <-. cbn [embedded total].
    assert (0 < batchSize) as Hn by (unfold batchSize; lia).
    pose proof (AccountFacts.run_batches_vectors
                  (Spec.chunks batchSize (missing_embeddings (db this)))
                  0 this) as Hlen.
    pose proof (ReindexFacts.run_batches_bound
                  (Spec.chunks batchSize (missing_embeddings (db this)))
                  0 this) as Hle.
    rewrite (ReindexFacts.concat_chunks _ _ Hn) in Hlen, Hle.
    specialize (Hlen (AccountFacts.missing_nodup _ (proj1 Hok))
                     (AccountFacts.missing_fresh _)).
    pose proof (AccountFacts.entries_split _ Hok) as Hsplit.
    unfold Spec.run_batches. repeat split; lia. }
  assert (total second = length (missing_embeddings (db this1))) as Htot.
  { destruct (AccountFacts.reindex_returns _ _ _ Hrun2) as [Hcfg1 _].
    rewrite (AccountFacts.reindex_eq this1 Hcfg1 Hvec1) in Hrun2.
    injection Hrun2 as <- _. reflexivity. }
  apply InvariantFacts.store_ok_iff in Hwf1.
  pose proof (AccountFacts.entries_split _ Hwf1) as Hsplit1.
  unfold vectored in H1, H2. rewrite Hvec in H1, H2. rewrite Hvec1 in H1.
  rewrite Fintel in Hsplit1. lia.
Qed.

(** X13 on the store whose provider is down: nothing is embedded, and the
    second call finds both entries missing again. *)
Lemma reindex_again_counts_the_rest_witness :
  Invariant.store_ok (db Examples.unembedded_store) = true
  /\ reindex Examples.unembedded_store
     = (Js.Return {| embedded := 0; total := 2 |},
        snd (reindex Examples.unembedded_store))
  /\ forall second this2,
       reindex (snd (reindex Examples.unembedded_store))
       = (Js.Return second, this2) ->
       total second + 0 = 2.
Proof.
  assert (H : reindex Examples.unembedded_store
              = (Js.Return {| embedded := 0; total := 2 |},
                 snd (reindex Examples.unembedded_store)))
    by (vm_compute; reflexivity).
  split; [reflexivity|]. split; [exact H|].
  intros second this2 H2.
  exact (reindex_again_counts_the_rest Examples.unembedded_store _ _ _ _
           eq_refl H H2).
Defined.

(** X14. [stats]: the category rows list every category that occurs
    exactly once, most frequent first; a row's count is the number of
    entries of its category (at least one) and its [latest] is the newest
    [created_at] among them; the counts add up to [total]; and
    [actionable] does not exceed [total]. *)
Theorem stats_counts_by_category (this : t) :
  let s := stats this in
  let entries := intel (db this) in
  NoDup (map CategoryStat.category (Stats.categories s))
  /\ (forall r, In r entries ->
        In (Intel.category r)
           (map CategoryStat.category (Stats.categories s)))
  /\ (forall c, In c (Stats.categories s) ->
        let group :=
          filter (fun r => String.eqb (Intel.category r)
                             (CategoryStat.category c)) entries in
        0 < CategoryStat.count c
        /\ CategoryStat.count c = length group
        /\ (exists r, In r group
                      /\ Intel.created_at r = CategoryStat.latest c)
        /\ (forall r, In r group ->
              String.leb (Intel.created_at r) (CategoryStat.latest c)
              = true))
  /\ StronglySorted
       (fun a b => CategoryStat.count b <= CategoryStat.count a)
       (Stats.categories s)
  /\ list_sum (map CategoryStat.count (Stats.categories s)) = Stats.total s
  /\ Stats.actionable s <= Stats.total s.
Proof.
  cbv zeta. unfold stats. cbn [Stats.categories Stats.total Stats.actionable].
  set (rows := intel (db this)).
  pose proof (StatsFacts.stats_categories_names rows) as Hnames.
  split; [|split; [|split; [|split; [|split]]]].
  - apply (Permutation_NoDup (Permutation_sym Hnames)).
    apply NoDup_nodup.
  - intros r Hr.
    apply (Permutation_in _ (Permutation_sym Hnames)).
    apply nodup_In, in_map, Hr.
  - intros c Hc.
    apply StatsFacts.stats_categories_In in Hc as (Hcat & Hcount & Hlatest).
    apply in_map_iff in Hcat as (r0 & Hr0cat & Hr0).
    assert (In r0 (category_group rows (CategoryStat.category c))) as Hg.
    { apply filter_In. split; [exact Hr0|]. apply String.eqb_eq, Hr0cat. }
    fold (category_group rows (CategoryStat.category c)).
    assert (map Intel.created_at
              (category_group rows (CategoryStat.category c)) <> [])
      as Hne.
    { destruct (category_group rows (CategoryStat.category c));
        [destruct Hg | discriminate]. }
    destruct (StatsFacts.text_max_fold _ Hne) as [Hin Hub].
    rewrite <- Hlatest in Hin, Hub.
    split; [|split; [exact Hcount|split]].
    + rewrite Hcount.
      destruct (category_group rows (CategoryStat.category c));
        [destruct Hg | cbn [length]; lia].
    + apply in_map_iff in Hin as (r & Hr & Hrg). exists r. split; assumption.
    + intros r Hr. apply Hub, in_map, Hr.
  - apply StatsFacts.order_by_count_desc_sorted.
  - rewrite (StatsFacts.list_sum_perm _ _
               (StatsFacts.stats_categories_counts rows)).
    apply StatsFacts.groups_partition; [apply NoDup_nodup|].
    intros r Hr. apply nodup_In, in_map, Hr.
  - apply filter_length_le.
Qed.

(** X15. [stats().trades]: [total] counts the stored trades; on an empty
    table [resolved] and [total_pnl_cents] are null; otherwise [resolved]
    is the number of trades the resolved listing shows without a limit,
    and the resolved and the open listing together show every trade. *)
Theorem stats_trades_aggregates (this : t) :
  let s := Stats.trades (stats this) in
  let listed resolved := length (list_trades this (-1) None resolved) in
  TradeStats.total s = length (trades (db this))
  /\ TradeStats.total s = listed (Some true) + listed (Some false)
  /\ match trades (db this) with
     | [] =>
         TradeStats.resolved s = None
         /\ TradeStats.total_pnl_cents s = None
     | _ :: _ =>
         TradeStats.resolved s = Some (Z.of_nat (listed (Some true)))
         /\ exists pnl, TradeStats.total_pnl_cents s = Some pnl
     end.
Proof.
  cbv beta zeta. rewrite !StatsFacts.listed_length.
  unfold stats, stats_trades.
  cbn [Stats.trades TradeStats.total TradeStats.resolved
       TradeStats.total_pnl_cents].
  generalize (trades (db this)). intros rows.
  split; [reflexivity|]. split.
  - induction rows as [|r rows IH]; [reflexivity|].
    cbn [filter length]. destruct (Trade.outcome r); cbn [Bool.eqb length]; lia.
  - destruct rows as [|r0 rest] eqn:E; [split; reflexivity|].
    rewrite <- E. split.
    + rewrite StatsFacts.sum_some by (rewrite E; discriminate).
      f_equal.
      rewrite <- (StatsFacts.sum_indicator
                    (fun r => Bool.eqb match Trade.outcome r with
                                       | Some _ => true
                                       | None => false
                                       end true)).
      f_equal. apply map_ext. intros x. destruct (Trade.outcome x); reflexivity.
    + rewrite StatsFacts.sum_some by (rewrite E; discriminate).
      eexists. reflexivity.
Qed.

(** X16. [resolveTrade] as [stats] sees it: with unique trade ids,
    resolving a stored trade leaves [total] as it is, raises [resolved] by
    one when the trade was open (and not at all when it already had an
    outcome), and replaces the trade's share of [total_pnl_cents] by the
    new amount. *)
Theorem resolve_updates_stats (this : t) (r : Trade.row) (outcome : string)
    (pnl : Z) (now : string) :
  Invariant.distinct (map Trade.id (trades (db this))) = true ->
  In r (trades (db this)) ->
  let before := Stats.trades (stats this) in
  let after :=
    Stats.trades (stats (resolveTrade this (Trade.id r) outcome pnl now)) in
  TradeStats.total after = TradeStats.total before
  /\ TradeStats.resolved after
     = option_map
         (Z.add match Trade.outcome r with Some _ => 0%Z | None => 1%Z end)
         (TradeStats.resolved before)
  /\ TradeStats.total_pnl_cents after
     = option_map
         (fun sum =>
            (sum - match Trade.pnl_cents r with Some p => p | None => 0 end
             + pnl)%Z)
         (TradeStats.total_pnl_cents before).
Proof.
  intros Hdistinct Hin. cbv zeta.
  apply ThinkFacts.distinct_NoDup in Hdistinct.
  unfold stats, stats_trades, resolveTrade.
  cbn [Stats.trades TradeStats.total TradeStats.resolved
       TradeStats.total_pnl_cents db with_db with_trades trades].
  assert (trades (db this) <> []) as Hne
      by (destruct (trades (db this)); [destruct Hin | discriminate]).
  assert (forall f : Trade.row -> Z,
             Sql.sum (map f (map (resolve_row (Trade.id r) outcome pnl now)
                               (trades (db this))))
             = option_map
                 (fun sum =>
                    (sum - f r
                     + f (resolve_row (Trade.id r) outcome pnl now r))%Z)
                 (Sql.sum (map f (trades (db this))))) as Hsum.
  { intros f. rewrite !StatsFacts.sum_some.
    - cbn [option_map]. f_equal.
      apply (StatsFacts.sum_update f _ (Trade.id r)); auto.
      intros x Hx. apply TradeListFacts.resolve_row_other, Hx.
    - destruct (trades (db this)); [congruence | discriminate].
    - destruct (trades (db this)); [congruence | discriminate]. }
  split; [rewrite !length_map; reflexivity|]. split.
  - rewrite Hsum. unfold resolve_row. rewrite Z.eqb_refl.
    cbn [Trade.outcome].
    destruct (Sql.sum _); [|reflexivity]. cbn [option_map]. f_equal.
    destruct (Trade.outcome r); lia.
  - rewrite Hsum. unfold resolve_row. rewrite Z.eqb_refl.
    cbn [Trade.pnl_cents]. reflexivity.
Qed.

(** X16 on the store with one open trade: resolving it as a win of 420
    cents makes [resolved] 1 and [total_pnl_cents] 420. *)
Lemma resolve_updates_stats_witness :
  Invariant.distinct (map Trade.id (trades (db Examples.one_trade))) = true
  /\ TradeStats.resolved
       (Stats.trades
          (stats (resolveTrade Examples.one_trade 1 "win" 420
                    "2024-03-02 10:00:00")))
     = Some 1%Z
  /\ TradeStats.total_pnl_cents
       (Stats.trades
          (stats (resolveTrade Examples.one_trade 1 "win" 420
                    "2024-03-02 10:00:00")))
     = Some 420%Z.
Proof.
  split; [reflexivity|].
  destruct (trades (db Examples.one_trade)) as [|r rest] eqn:E;
    [discriminate|].
  assert (In r (trades (db Examples.one_trade))) as Hin
      by (rewrite E; left; reflexivity).
  assert (Trade.id r = 1%Z /\ Trade.outcome r = None
          /\ Trade.pnl_cents r = None) as (Hid & Hout & Hpnl)
      by (injection E as <- _; repeat split; reflexivity).
  destruct (resolve_updates_stats Examples.one_trade r "win" 420
              "2024-03-02 10:00:00" eq_refl Hin) as (_ & Hres & Hsum).
  rewrite Hid in Hres, Hsum. rewrite Hout in Hres. rewrite Hpnl in Hsum.
  split; [exact Hres | exact Hsum].
Defined.

(** X17. [export]: the rows are oldest first; a row is exported exactly
    when it is stored, not older than a non-empty [since], and of the
    given non-empty category; nothing is left out for a limit, so without
    options every entry is exported once. The category "all" has no
    special meaning here, unlike in [query], with which [export] otherwise
    agrees up to the order. *)
Theorem export_lists_oldest_first (this : t) (options : ExportOptions.t) :
  let rows := export this options in
  StronglySorted
    (fun a b => String.leb (Intel.created_at a) (Intel.created_at b) = true)
    rows
  /\ (forall r,
        In r rows
        <-> In r (intel (db this))
            /\ match Js.truthy (ExportOptions.since options) with
               | Some since => String.leb since (Intel.created_at r) = true
               | None => True
               end
            /\ match Js.truthy (ExportOptions.category options) with
               | Some c => Intel.category r = c
               | None => True
               end)
  /\ Permutation (export this (ExportOptions.mk None None)) (intel (db this))
  /\ (forall r since,
        In r (export this (ExportOptions.mk since (Some "all"))) ->
        Intel.category r = "all")
  /\ (forall c,
        c <> "all" ->
        Permutation
          (export this (ExportOptions.mk (ExportOptions.since options)
                          (Some c)))
          (query this c
             (Options.mk (Some (-1)%Z) (ExportOptions.since options) None))).
Proof.
  cbv zeta. split; [|split; [|split; [|split]]].
  - apply StatsFacts.order_by_asc_sorted.
  - intros r. unfold export, Sql.order_by_asc.
    rewrite (RuntimeFacts.stable_sort_In _ r), filter_In, andb_true_iff.
    destruct (Js.truthy (ExportOptions.since options));
      destruct (Js.truthy (ExportOptions.category options));
      rewrite ?String.eqb_eq; intuition auto.
  - unfold export. cbn [ExportOptions.since ExportOptions.category Js.truthy].
    rewrite StatsFacts.order_by_asc_perm.
    cbn [andb]. clear. induction (intel (db this)) as [|r l IH];
      [reflexivity|].
    cbn [filter]. constructor. exact IH.
  - intros r since Hin. unfold export in Hin.
    apply (Permutation_in _ (StatsFacts.order_by_asc_perm _ _)) in Hin.
    apply filter_In in Hin as [_ Hin].
    apply andb_true_iff in Hin as [_ Hin].
    cbn in Hin. apply String.eqb_eq in Hin. exact Hin.
  - intros c Hall. unfold export, query.
    cbn [ExportOptions.since ExportOptions.category Options.limit
         Options.since Options.tag].
    change (Sql.limit (-1) ?l) with l.
    rewrite StatsFacts.order_by_asc_perm, SearchFacts.order_by_desc_perm.
    match goal with
    | |- Permutation (filter ?f ?l) (filter ?g ?l) =>
        rewrite (filter_ext f g); [reflexivity|]
    end.
    intros r. apply String.eqb_neq in Hall.
    destruct c as [|a c]; cbn [Js.truthy].
    + rewrite !andb_true_r. reflexivity.
    + rewrite Hall, andb_true_r, andb_comm. reflexivity.
Qed.

(** X18. When the timestamps do not decrease along the table (entries
    were added with a clock that does not run backwards), [export] without
    options returns the table itself, and with options it returns the
    selected entries in the order they have in the table. *)
Theorem export_keeps_insertion_order (this : t) (options : ExportOptions.t) :
  StronglySorted
    (fun a b => String.leb (Intel.created_at a) (Intel.created_at b) = true)
    (intel (db this)) ->
  export this (ExportOptions.mk None None) = intel (db this)
  /\ exists keep, export this options = filter keep (intel (db this)).
Proof.
  intros Hsorted. split.
  - unfold export, Sql.order_by_asc.
    cbn [ExportOptions.since ExportOptions.category Js.truthy andb].
    rewrite StatsFacts.stable_sort_sorted_id.
    + clear. induction (intel (db this)) as [|r l IH]; [reflexivity|].
      cbn [filter]. rewrite IH. reflexivity.
    + apply StatsFacts.StronglySorted_filter, Hsorted.
  - unfold export, Sql.order_by_asc.
    match goal with
    | |- context [filter ?f (intel (db this))] => exists f
    end.
    apply StatsFacts.stable_sort_sorted_id.
    apply StatsFacts.StronglySorted_filter, Hsorted.
Qed.

(** X18 on the store with two entries added five seconds apart. *)
Lemma export_keeps_insertion_order_witness :
  StronglySorted
    (fun a b => String.leb (Intel.created_at a) (Intel.created_at b) = true)
    (intel (db Examples.keyword_store))
  /\ export Examples.keyword_store (ExportOptions.mk None None)
     = intel (db Examples.keyword_store).
Proof.
  assert (StronglySorted
            (fun a b =>
               String.leb (Intel.created_at a) (Intel.created_at b) = true)
            (intel (db Examples.keyword_store))) as H
      by (repeat constructor).
  split; [exact H|].
  exact (proj1 (export_keeps_insertion_order Examples.keyword_store
                  (ExportOptions.mk None None) H)).
Defined.

(** X19. [JSON.parse] reads back what [JSON.stringify] writes for an
    array of strings, whatever characters the strings hold: quotes,
    backslashes and control characters included. *)
Theorem json_parse_reads_stringify (l : list string) :
  Json.parse_strings (Text.stringify_array l) = Some l.
Proof. apply JsonFacts.parse_stringify. Qed.

(** X20. On a store opened on a fresh file, whatever calls were issued,
    the [tags] column of every entry holds the JSON text of an array of
    strings, which [JSON.parse] reads back. *)
Theorem stored_tags_are_json_arrays (cs : list Session.call) (this : t) :
  db this = empty_database ->
  let reached := fold_left (fun s c => Session.run c s) cs this in
  forall r, In r (intel (db reached)) ->
    exists l,
      Intel.tags r = Text.stringify_array l
      /\ Json.parse_strings (Intel.tags r) = Some l.
Proof.
  intros Hfresh reached.
  assert (forall r, In r (intel (db reached)) ->
            exists l, Intel.tags r = Text.stringify_array l) as Hinv.
  { subst reached.
    assert (forall r, In r (intel (db this)) ->
              exists l, Intel.tags r = Text.stringify_array l) as H0
        by (rewrite Hfresh; intros r []).
    clear Hfresh. revert this H0.
    induction cs as [|c cs IH]; intros this H0; [exact H0|].
    cbn [fold_left]. apply IH, TagCountFacts.run_keeps_written, H0. }
  intros r Hr. destruct (Hinv r Hr) as [l Hl]. exists l.
  split; [exact Hl|]. rewrite Hl. apply JsonFacts.parse_stringify.
Qed.

(** X20 on the two entries of the keyword-only store. *)
Lemma stored_tags_are_json_arrays_witness :
  db (Examples.fresh None false) = empty_database
  /\ forall r, In r (intel (db Examples.keyword_store)) ->
       exists l,
         Intel.tags r = Text.stringify_array l
         /\ Json.parse_strings (Intel.tags r) = Some l.
Proof.
  split; [reflexivity|].
  exact (stored_tags_are_json_arrays
           [Session.Call_add "market" Examples.signal "2024-03-01 09:00:00";
            Session.Call_add "newsletter" Examples.digest
              "2024-03-01 09:00:05"]
           (Examples.fresh None false) eq_refl).
Defined.

(** X21. [tags]: when the selected rows carry the tag lists [written]
    (as [add] wrote them) and no tag is the name of a member of
    [Object.prototype], the listing holds every tag that occurs exactly
    once, with the number of its occurrences over the selected rows, most
    frequent first; the counts add up to the number of occurrences. *)
Theorem tags_count_occurrences (this : t) (category : option string)
    (written : list (list string)) :
  let rows :=
    match Js.truthy category with
    | Some c => category_group (intel (db this)) c
    | None => intel (db this)
    end in
  Forall2 (fun r l => Intel.tags r = Text.stringify_array l) rows written ->
  existsb Obj.inherited (concat written) = false ->
  exists listing,
    tags this category = Some listing
    /\ NoDup (map TagCount.tag listing)
    /\ (forall e,
          In e listing
          <-> In (TagCount.tag e) (concat written)
              /\ TagCount.count e
                 = count_occ string_dec (concat written) (TagCount.tag e))
    /\ StronglySorted
         (fun a b => TagCount.count b <= TagCount.count a) listing
    /\ list_sum (map TagCount.count listing) = length (concat written).
Proof.
  intros rows Hwritten Hplain.
  pose proof (TagCountFacts.parsed_written _ _ Hwritten) as Hparsed.
  unfold rows, category_group in Hparsed.
  unfold tags. cbv zeta. rewrite Hparsed, Hplain.
  set (all := concat written).
  set (o := fold_left count_tag all []).
  set (sorted := Js.sort _ (Obj.entries o)).
  assert (Permutation sorted o) as Hperm.
  { subst sorted. unfold Js.sort.
    rewrite RuntimeFacts.stable_sort_perm. apply TagCountFacts.entries_perm. }
  assert (NoDup (map fst o)) as Hkeys
      by (apply TagCountFacts.counted_keys; constructor).
  eexists. split; [reflexivity|].
  split; [|split; [|split]].
  - rewrite map_map. cbn [TagCount.tag].
    apply (Permutation_NoDup (Permutation_map fst (Permutation_sym Hperm))).
    exact Hkeys.
  - intros [t n]. cbn [TagCount.tag TagCount.count].
    rewrite in_map_iff.
    assert ((exists x, TagCount.mk (fst x) (snd x) = TagCount.mk t n
                       /\ In x sorted)
            <-> In (t, n) o) as ->.
    { split.
      - intros ([t' n'] & [= -> ->] & Hin).
        apply (Permutation_in _ Hperm), Hin.
      - intros Hin. exists (t, n). split; [reflexivity|].
        apply (Permutation_in _ (Permutation_sym Hperm)), Hin. }
    rewrite (TagCountFacts.get_entry _ _ _ Hkeys).
    subst o. rewrite TagCountFacts.counted_get. cbn [Obj.get].
    rewrite (count_occ_In string_dec).
    destruct (count_occ string_dec all t) as [|k].
    + split; [discriminate | intros [H _]; lia].
    + split; [intros [= <-]; split; lia | intros [_ ->]; reflexivity].
  - apply TagCountFacts.StronglySorted_map
      with (f := fun e => TagCount.mk (fst e) (snd e))
           (R := fun a b => TagCount.count b <= TagCount.count a).
    cbn [TagCount.count]. apply TagCountFacts.sort_count_sorted.
  - rewrite map_map. cbn [TagCount.count].
    rewrite (StatsFacts.list_sum_perm _ (map snd o));
      [|apply (Permutation_map (fun x => snd x) Hperm)].
    subst o. rewrite TagCountFacts.counted_sum. reflexivity.
Qed.

(** X21 on the keyword-only store: four tags, each counted once. *)
Lemma tags_count_occurrences_witness :
  Forall2 (fun r l => Intel.tags r = Text.stringify_array l)
    (intel (db Examples.keyword_store))
    [["AAPL"; "earnings"]; ["fed"; "macro"]]
  /\ exists listing,
       tags Examples.keyword_store None = Some listing
       /\ list_sum (map TagCount.count listing) = 4.
Proof.
  assert (Forall2 (fun r l => Intel.tags r = Text.stringify_array l)
            (intel (db Examples.keyword_store))
            [["AAPL"; "earnings"]; ["fed"; "macro"]]) as H
      by (repeat constructor).
  split; [exact H|].
  destruct (tags_count_occurrences Examples.keyword_store None
              [["AAPL"; "earnings"]; ["fed"; "macro"]] H eq_refl)
    as (listing & Htags & _ & _ & _ & Hsum).
  exists listing. split; [exact Htags | exact Hsum].
Defined.

(** X22. [parseFlags]: an argument that does not start with [--] is
    skipped; one that does takes the next argument as its value, whatever
    that is (an empty one counts as [true]), and a later occurrence of
    the flag overrides it; a flag that has a text value was given on the
    command line right before that value, which is not empty. *)
Theorem parseFlags_pairs_flags_with_values :
  (forall a rest,
      Text.starts_with "--" a = false ->
      Cli.parseFlags (a :: rest) = Cli.parseFlags rest)
  /\ (forall key v rest k,
        key <> "__proto__" ->
        Cli.flag_get k (Cli.parseFlags (("--" ++ key)%string :: v :: rest))
        = match Cli.flag_get k (Cli.parseFlags rest) with
          | Some later => Some later
          | None => if String.eqb k key then Some (Cli.or_true v) else None
          end)
  /\ (forall k v args,
        Cli.flag_get k (Cli.parseFlags args) = Some (Cli.Value v) ->
        v <> ""
        /\ exists before after,
             args = before ++ ("--" ++ k)%string :: v :: after).
Proof.
  split; [|split].
  - intros a rest Ha. unfold Cli.parseFlags. cbn [Cli.parseFlags_from].
    rewrite Ha. reflexivity.
  - intros key v rest k Hkey. unfold Cli.parseFlags.
    change (Cli.parseFlags_from (("--" ++ key)%string :: v :: rest) [])
      with (Cli.parseFlags_from rest (Cli.assign key (Cli.or_true v) [])).
    rewrite CliFacts.flag_get_from.
    destruct (Cli.flag_get k (Cli.parseFlags_from rest [])); [reflexivity|].
    rewrite CliFacts.flag_get_assign. cbn [Cli.flag_get].
    apply String.eqb_neq in Hkey. rewrite Hkey. cbn [negb].
    rewrite andb_true_r. reflexivity.
  - intros k v args. apply CliFacts.flag_value_given.
Qed.

(** X23. [parseInt] reads the decimal numeral of an integer back, for
    the integers up to 2^53 in magnitude, which JavaScript numbers hold
    exactly: also with white space in front of the numeral, and also
    when text follows that does not go on with a digit (nor, after a
    lone 0, with an x, which would announce a hexadecimal number). *)
Theorem parseInt_reads_decimal (n : Z) :
  (Z.abs n <= 2 ^ 53)%Z ->
  let numeral := NilZero.string_of_int (Z.to_int n) in
  Cli.parseInt numeral = Some n
  /\ (forall pre,
        Text.trim_start pre = "" ->
        Cli.parseInt (pre ++ numeral) = Some n)
  /\ (forall c rest,
        Cli.digit_value 10 c = None ->
        (n = 0%Z -> c <> "x"%char /\ c <> "X"%char) ->
        Cli.parseInt (numeral ++ String c rest) = Some n).
Proof.
  intros _. cbv zeta. split; [|split].
  - pose proof (CliFacts.parseInt_numeral n "" "" eq_refl I) as H.
    cbn [append] in H. rewrite JsonFacts.append_nil_r in H. exact H.
  - intros pre Hpre.
    pose proof (CliFacts.parseInt_numeral n pre "" Hpre I) as H.
    rewrite JsonFacts.append_nil_r in H. exact H.
  - intros c rest Hc Hx.
    apply (CliFacts.parseInt_numeral n "" (String c rest) eq_refl).
    split; [exact Hc|]. intros Hn. destruct (Hx Hn) as [H1 H2].
    split; apply Ascii.eqb_neq; congruence.
Qed.

(** X23 at work: the value of [--limit 42], and of the largest integer
    of the range. *)
Lemma parseInt_reads_decimal_witness :
  (Z.abs 42 <= 2 ^ 53)%Z
  /\ (Z.abs 9007199254740992 <= 2 ^ 53)%Z
  /\ Cli.parseInt "42" = Some 42%Z
  /\ Cli.parseInt "9007199254740992" = Some 9007199254740992%Z
  /\ Cli.parseInt " 42 entries" = Some 42%Z.
Proof.
  assert (H42 : (Z.abs 42 <= 2 ^ 53)%Z) by (simpl; lia).
  assert (Hmax : (Z.abs 9007199254740992 <= 2 ^ 53)%Z) by (simpl; lia).
  split; [exact H42|]. split; [exact Hmax|].
  split; [exact (proj1 (parseInt_reads_decimal 42 H42))|].
  split; [exact (proj1 (parseInt_reads_decimal 9007199254740992 Hmax))|].
  reflexivity.
Defined.

(** X24. The [search] command with a text: it prints the result of
    [search] for a limit that is never 0; the limit is 10 without a
    [--limit] flag and for [--limit 0], and the given number otherwise,
    negative ones included; for a positive limit no more rows than that
    are printed. *)
Theorem search_command_limit (this : t) (text : string)
    (rest : list string) :
  text <> "" ->
  exists limit,
    Cli.search_command this ("search" :: text :: rest)
    = Cli.Printed (search this text limit)
    /\ limit <> 0%Z
    /\ (Cli.flag_get "limit" (Cli.parseFlags rest) = None -> limit = 10%Z)
    /\ (forall n,
          rest = ["--limit"; NilZero.string_of_int (Z.to_int n)] ->
          limit = if (n =? 0)%Z then 10%Z else n)
    /\ ((0 < limit)%Z ->
        (Z.of_nat (length (search this text limit)) <= limit)%Z).
Proof.
  intros Htext.
  exists (Cli.int_or (Cli.flag_get "limit" (Cli.parseFlags rest)) 10).
  split; [|split; [|split; [|split]]].
  - unfold Cli.search_command. cbn [nth_error skipn].
    destruct text; [congruence | reflexivity].
  - unfold Cli.int_or. destruct (Cli.parseInt _) as [n|]; [|discriminate].
    destruct (n =? 0)%Z eqn:E; [discriminate|].
    apply Z.eqb_neq in E. exact E.
  - intros ->. reflexivity.
  - intros n ->.
    assert (Cli.flag_get "limit"
              (Cli.parseFlags
                 ["--limit"; NilZero.string_of_int (Z.to_int n)])
            = Some (Cli.or_true (NilZero.string_of_int (Z.to_int n))))
      as -> by reflexivity.
    pose proof (CliFacts.parseInt_numeral n "" "" eq_refl I) as Hp.
    cbn [append] in Hp. rewrite JsonFacts.append_nil_r in Hp.
    assert (Cli.to_text
              (Some (Cli.or_true (NilZero.string_of_int (Z.to_int n))))
            = NilZero.string_of_int (Z.to_int n)) as H.
    { destruct (NilZero.string_of_int (Z.to_int n));
        [discriminate | reflexivity]. }
    unfold Cli.int_or. rewrite H, Hp. reflexivity.
  - intros Hpos. unfold search. apply ListingFacts.limit_length. lia.
Qed.

(** X24 at work: [openintel search aapl --limit 0] searches with the
    default limit of 10. *)
Lemma search_command_limit_witness :
  "aapl"%string <> ""%string
  /\ Cli.search_command Examples.keyword_store
       ["search"; "aapl"; "--limit"; "0"]
     = Cli.Printed (search Examples.keyword_store "aapl" 10).
Proof.
  split; [discriminate|].
  destruct (search_command_limit Examples.keyword_store "aapl"
              ["--limit"; "0"] ltac:(discriminate))
    as (limit & Hrun & _ & _ & Hlimit & _).
  rewrite Hrun. rewrite (Hlimit 0%Z eq_refl). reflexivity.
Defined.



(** X26. A configuration whose provider is not one of voyage, openai
    and cohere (and is not a custom one with its function) never reaches
    the network: [_embed] throws without sending a request. On a handle
    with such a configuration no call ever adds a vector to the index, and
    [semantic] always throws. *)
Theorem unknown_provider_never_embeds
    (cfg : Gateway.config)
    (fetch : nat -> Gateway.request -> Js.completion Gateway.response)
    (this : t) (cs : list Session.call) :
  Gateway.custom cfg = None ->
  (forall prov, Gateway.providers cfg <> Gateway.Entry prov) ->
  embeddingConfig this = Some (Gateway.respond_of cfg fetch) ->
  (forall net texts inputType,
      snd (Gateway._embed cfg net texts inputType) = []
      /\ exists e,
           fst (Gateway._embed cfg net texts inputType) = Js.Throw e)
  /\ let reached := fold_left (fun s c => Session.run c s) cs this in
     intel_vec (db reached) = intel_vec (db this)
     /\ forall queryText limit,
          exists e, fst (semantic reached queryText limit) = Js.Throw e.
Proof.
  intros Hcustom Hunknown Hcfg.
  assert (forall net texts inputType,
             snd (Gateway._embed cfg net texts inputType) = []
             /\ exists e,
                  fst (Gateway._embed cfg net texts inputType) = Js.Throw e)
    as Hembed.
  { intros net texts inputType. unfold Gateway._embed. rewrite Hcustom.
    destruct (Gateway.providers cfg) as [prov| |] eqn:E.
    - exfalso. exact (Hunknown prov eq_refl).
    - split; [reflexivity | eexists; reflexivity].
    - split; [reflexivity | eexists; reflexivity]. }
  split; [exact Hembed|].
  assert (forall n texts inputType,
             exists e,
               respond (Gateway.respond_of cfg fetch) n texts inputType
               = Js.Throw e) as Hfails.
  { intros n texts inputType. cbn [respond Gateway.respond_of].
    destruct (Hembed (fetch n) texts inputType) as [_ [e ->]].
    exists e. reflexivity. }
  destruct (GatewayFacts.session_without_vector _ Hfails cs this Hcfg)
    as [Hcfg' Hvec].
  cbv zeta. split; [exact Hvec|].
  intros queryText limit.
  apply (GatewayFacts.semantic_fails _ Hfails), Hcfg'.
Qed.

(** X26 for [provider: 'custom'] without a function: the entry is stored,
    the index stays empty. *)
Lemma unknown_provider_never_embeds_witness :
  Gateway.custom GatewayExamples.custom_without_function = None
  /\ intel_vec
       (db (snd (add (Examples.fresh
                        (Some (Gateway.respond_of
                                 GatewayExamples.custom_without_function
                                 (fun _ => GatewayExamples.unavailable)))
                        true)
                   "market" Examples.signal "2024-03-01 09:00:00")))
     = [].
Proof.
  split; [reflexivity|].
  destruct (unknown_provider_never_embeds
              GatewayExamples.custom_without_function
              (fun _ => GatewayExamples.unavailable)
              (Examples.fresh
                 (Some (Gateway.respond_of
                          GatewayExamples.custom_without_function
                          (fun _ => GatewayExamples.unavailable)))
                 true)
              [Session.Call_add "market" Examples.signal
                 "2024-03-01 09:00:00"]
              eq_refl ltac:(intros prov; discriminate) eq_refl)
    as (_ & Hvec & _).
  exact Hvec.
Defined.

(** X27. For voyage, openai and cohere, [_embed] sends exactly one
    request, whatever the network answers, to [apiUrl] when one is
    configured; a response outside 200..299 becomes the error
    [Embedding API <status>: <text>] whatever its payload, and the payload
    of a response within is handed to the provider's [parse]. The request
    of openai is the same for documents and queries; those of voyage and
    cohere differ. *)
Theorem embed_sends_one_request
    (cfg : Gateway.config) (prov : Gateway.entry)
    (fetch : Gateway.request -> Js.completion Gateway.response)
    (texts : list string) (inputType : input_type) :
  Gateway.custom cfg = None ->
  Gateway.providers cfg = Gateway.Entry prov ->
  let req :=
    {| Gateway.url := Gateway.entry_url prov;
       Gateway.authorization :=
         ("Bearer " ++ Gateway.interpolate (Gateway.apiKey cfg))%string;
       Gateway.body := Gateway.entry_body prov texts inputType |} in
  let result := fst (Gateway._embed cfg fetch texts inputType) in
  snd (Gateway._embed cfg fetch texts inputType) = [req]
  /\ (forall u, Js.truthy (Gateway.apiUrl cfg) = Some u ->
                Gateway.url req = u)
  /\ (forall res t,
        fetch req = Js.Return res ->
        Gateway.ok res = false ->
        Gateway.text res = Js.Return t ->
        result
        = Js.Throw
            (Js.Error
               ("Embedding API "
                ++ NilZero.string_of_int (Z.to_int (Gateway.status res))
                ++ ": " ++ t)))
  /\ (forall res p,
        fetch req = Js.Return res ->
        Gateway.ok res = true ->
        Gateway.json res = Js.Return p ->
        result = Gateway.entry_parse prov p)
  /\ (Gateway.entry_body prov texts Query
      = Gateway.entry_body prov texts Document
      <-> Gateway.provider cfg = Some "openai"%string).
Proof.
  intros Hcustom Hprov req result. subst result.
  unfold Gateway._embed. rewrite Hcustom, Hprov. cbn [fst snd]. fold req.
  split; [reflexivity|].
  assert (prov = Gateway.voyage cfg
          /\ Gateway.interpolate (Gateway.provider cfg) = "voyage"%string
          \/ prov = Gateway.openai cfg
             /\ Gateway.interpolate (Gateway.provider cfg) = "openai"%string
          \/ prov = Gateway.cohere cfg
             /\ Gateway.interpolate (Gateway.provider cfg) = "cohere"%string)
    as Hcases.
  { unfold Gateway.providers in Hprov.
    destruct (String.eqb _ "voyage") eqn:E1;
      [left; apply String.eqb_eq in E1; split; congruence|].
    destruct (String.eqb _ "openai") eqn:E2;
      [right; left; apply String.eqb_eq in E2; split; congruence|].
    destruct (String.eqb _ "cohere") eqn:E3;
      [right; right; apply String.eqb_eq in E3; split; congruence|].
    destruct (Obj.inherited _); discriminate. }
  split; [|split; [|split]].
  - intros u Hu. cbn [Gateway.url req].
    destruct Hcases as [[-> _]|[[-> _]|[-> _]]];
      cbn [Gateway.entry_url Gateway.voyage Gateway.openai Gateway.cohere];
      unfold Gateway.or_default; rewrite Hu; reflexivity.
  - intros res t Hres Hok Htext. rewrite Hres, Hok, Htext. reflexivity.
  - intros res p Hres Hok Hjson. rewrite Hres, Hok, Hjson. reflexivity.
  - assert (forall a b c d : string,
               Gateway.object [a; b; c] = Gateway.object [a; b; d] ->
               c = d) as Hlast.
    { intros a b c d H. unfold Gateway.object in H.
      cbn [String.concat] in H.
      injection H as H. rewrite !JsonFacts.append_assoc in H.
      apply GatewayFacts.append_inj_l in H. cbn [append] in H.
      injection H as H. rewrite !JsonFacts.append_assoc in H.
      apply GatewayFacts.append_inj_l in H. cbn [append] in H.
      injection H as H.
      revert c d H. induction c as [|x c IH]; intros [|y d] H.
      - reflexivity.
      - cbn in H. injection H as <- H. destruct d; discriminate.
      - cbn in H. injection H as <- H. destruct c; discriminate.
      - cbn in H. injection H as <- H. f_equal. apply IH, H. }
    destruct Hcases as [[-> Hname]|[[-> Hname]|[-> Hname]]].
    + split.
      * intros H. cbn [Gateway.entry_body Gateway.voyage] in H.
        apply Hlast in H. discriminate.
      * intros H. rewrite H in Hname. discriminate.
    + split; [|reflexivity].
      intros _. destruct (Gateway.provider cfg) as [name|];
        cbn [Gateway.interpolate] in Hname; [congruence | discriminate].
    + split.
      * intros H. cbn [Gateway.entry_body Gateway.cohere] in H.
        apply Hlast in H. discriminate.
      * intros H. rewrite H in Hname. discriminate.
Qed.

(** X27 for voyage against a service that is down. *)
Lemma embed_sends_one_request_witness :
  Gateway.custom GatewayExamples.voyage_with_key = None
  /\ Gateway.providers GatewayExamples.voyage_with_key
     = Gateway.Entry (Gateway.voyage GatewayExamples.voyage_with_key)
  /\ fst (Gateway._embed GatewayExamples.voyage_with_key
            GatewayExamples.unavailable ["Test signal"] Document)
     = Js.Throw (Js.Error "Embedding API 503: Service Unavailable").
Proof.
  split; [reflexivity|]. split; [reflexivity|].
  destruct (embed_sends_one_request GatewayExamples.voyage_with_key
              (Gateway.voyage GatewayExamples.voyage_with_key)
              GatewayExamples.unavailable ["Test signal"] Document
              eq_refl eq_refl) as (_ & _ & Hdown & _).
  exact (Hdown _ _ eq_refl eq_refl eq_refl).
Defined.

(** X28. A smaller limit gives a prefix: for [0 <= n] and a limit [m]
    that is larger or negative (no limit), the rows [query], [search] and
    [trades] return for [n] are the first [n] of those they return for
    [m]. *)
Theorem smaller_limit_is_a_prefix (this : t) (n m : Z) :
  (0 <= n)%Z -> (n <= m \/ m < 0)%Z ->
  (forall category since tag,
      query this category (Options.mk (Some n) since tag)
      = firstn (Z.to_nat n)
          (query this category (Options.mk (Some m) since tag)))
  /\ (forall text,
        search this text n = firstn (Z.to_nat n) (search this text m))
  /\ (forall since resolved,
        list_trades this n since resolved
        = firstn (Z.to_nat n) (list_trades this m since resolved)).
Proof.
  intros Hn Hm. split; [|split]; intros;
    unfold query, search, list_trades; cbn [Options.limit];
    apply ExpiryFacts.limit_prefix; assumption.
Qed.

(** X28 on the keyword-only store: the newest entry alone is the first of
    the unlimited listing. *)
Lemma smaller_limit_is_a_prefix_witness :
  (0 <= 1)%Z /\ (1 <= -1 \/ -1 < 0)%Z
  /\ query Examples.keyword_store "all" (Options.mk (Some 1%Z) None None)
     = firstn 1
         (query Examples.keyword_store "all"
            (Options.mk (Some (-1)%Z) None None)).
Proof.
  split; [lia|]. split; [right; lia|].
  exact (proj1 (smaller_limit_is_a_prefix Examples.keyword_store 1 (-1)
                  ltac:(lia) ltac:(right; lia))
           "all"%string None None).
Defined.

(** X29. Expiry dates are never consulted: with other values in the
    [expires_at] column, [query], [search] and [export] return the same
    rows in the same order (with those values), and [stats] and [tags]
    return the same. *)
Theorem expiry_is_never_consulted (this : t)
    (f : Intel.row -> option string) :
  let other := Expiry.reschedule f this in
  (forall category options,
      query other category options
      = map (Expiry.with_expiry f) (query this category options))
  /\ (forall text limit,
        search other text limit
        = map (Expiry.with_expiry f) (search this text limit))
  /\ (forall options,
        export other options
        = map (Expiry.with_expiry f) (export this options))
  /\ stats other = stats this
  /\ (forall category, tags other category = tags this category).
Proof.
  cbv zeta. split; [|split; [|split; [|split]]].
  - intros category options. unfold query, Expiry.reschedule.
    cbn [db with_db intel].
    erewrite ExpiryFacts.filter_map by (intros a; reflexivity).
    erewrite ExpiryFacts.order_by_desc_map by (intros a; reflexivity).
    apply ExpiryFacts.limit_map.
  - intros text limit. unfold search, Expiry.reschedule.
    cbn [db with_db intel].
    erewrite ExpiryFacts.filter_map by (intros a; reflexivity).
    erewrite ExpiryFacts.order_by_desc_map by (intros a; reflexivity).
    apply ExpiryFacts.limit_map.
  - intros options. unfold export, Expiry.reschedule.
    cbn [db with_db intel].
    erewrite ExpiryFacts.filter_map by (intros a; reflexivity).
    apply ExpiryFacts.order_by_asc_map. intros a. reflexivity.
  - unfold stats, vectored, Expiry.reschedule.
    cbn [db with_db intel intel_vec trades _vecLoaded].
    rewrite length_map.
    erewrite ExpiryFacts.filter_map by (intros a; reflexivity).
    rewrite length_map. f_equal.
    unfold stats_categories. rewrite map_map.
    cbn [Expiry.with_expiry Intel.category]. f_equal.
    apply map_ext. intros c. unfold category_group.
    erewrite ExpiryFacts.filter_map by (intros a; reflexivity).
    rewrite length_map, map_map. reflexivity.
  - intros category. unfold tags, Expiry.reschedule.
    cbn [db with_db intel].
    destruct (Js.truthy category) as [c|].
    + erewrite ExpiryFacts.filter_map by (intros a; reflexivity).
      rewrite ExpiryFacts.parsed_tags_expiry. reflexivity.
    + rewrite ExpiryFacts.parsed_tags_expiry. reflexivity.
Qed.

(** X30. [think] without a provider or without the vector index, for a
    non-negative limit on tables with unique ids: the call returns the
    first [limit] entries, in table order (oldest first, unlike [search]),
    whose title or body satisfies [LIKE '%query%'], each with the same
    score, which is 0.3; the handle is unchanged. *)
Theorem think_keyword_only (this : t) (queryText : string) (limit : Z) :
  is_configured this && _vecLoaded this = false ->
  (0 <= limit)%Z ->
  Invariant.store_ok (db this) = true ->
  let pattern := ("%" ++ queryText ++ "%")%string in
  let matches :=
    filter (fun r => Text.like pattern (Intel.title r)
                     || Text.like_opt pattern (Intel.body r))
      (intel (db this)) in
  exists score,
    (score == 3 # 10)%Q
    /\ think this queryText limit
       = (Js.Return (map (fun r => (r, score))
                       (firstn (Z.to_nat limit) matches)),
          this).
Proof.
  intros Hoff Hlimit Hok pattern matches.
  apply InvariantFacts.store_ok_iff in Hok. destruct Hok as (Hnd & _).
  exists ((7 # 10) * 0 + (3 # 10))%Q. split; [reflexivity|].
  rewrite ThinkFacts.think_eq. unfold think_semantic. rewrite Hoff.
  cbn [fst snd]. f_equal. f_equal.
  assert (NoDup (map Intel.id matches)) as Hmatches
      by (apply ThinkFacts.NoDup_map_filter, Hnd).
  set (kwRows := firstn (Z.to_nat (limit * 2)) matches).
  assert (NoDup (map Intel.id kwRows)) as Hids.
  { subst kwRows. rewrite <- firstn_map.
    apply ThinkFacts.NoDup_firstn, Hmatches. }
  assert (think_keyword this queryText limit
          = map (fun i => (i, (3 # 10)%Q)) (map Intel.id kwRows)) as ->.
  { unfold think_keyword. fold pattern. fold matches.
    rewrite SearchFacts.limit_nonneg by lia. fold kwRows.
    rewrite KeywordOnlyFacts.Map_of_distinct.
    - rewrite map_map. reflexivity.
    - rewrite map_map. cbn [fst]. exact Hids. }
  rewrite (KeywordOnlyFacts.think_scored_keyword_only _ Hids).
  rewrite ThinkFacts.slice0_nonneg by exact Hlimit.
  assert (map fst
            (firstn (Z.to_nat limit)
               (map (fun i : Z => (i, ((7 # 10) * 0 + (3 # 10))%Q))
                  (map Intel.id kwRows)))
          = map Intel.id (firstn (Z.to_nat limit) matches)) as ->.
  { rewrite firstn_map, map_map. cbn [fst]. rewrite map_id.
    rewrite firstn_map. f_equal. subst kwRows.
    rewrite firstn_firstn. f_equal. lia. }
  apply KeywordOnlyFacts.fetch_scored_keyword_only.
  - exact Hids.
  - intros r Hr. apply in_map. subst kwRows.
    assert (firstn (Z.to_nat limit) matches
            = firstn (Z.to_nat limit)
                (firstn (Z.to_nat (limit * 2)) matches)) as E
        by (rewrite firstn_firstn; f_equal; lia).
    rewrite E in Hr. apply ThinkFacts.In_firstn in Hr. exact Hr.
  - apply KeywordOnlyFacts.filter_prefix_ids, Hnd.
Qed.

(** X30 on the keyword-only store: both entries mention an [e]; [think]
    lists the older one first, [search] the newer one. *)
Lemma think_keyword_only_witness :
  is_configured Examples.keyword_store
  && _vecLoaded Examples.keyword_store = false
  /\ Invariant.store_ok (db Examples.keyword_store) = true
  /\ map (fun row => Intel.id (fst row))
       (match fst (think Examples.keyword_store "e" 5) with
        | Js.Return rows => rows
        | Js.Throw _ => []
        end)
     = [1%Z; 2%Z]
  /\ map Intel.id (search Examples.keyword_store "e" 5) = [2%Z; 1%Z].
Proof.
  split; [reflexivity|]. split; [reflexivity|].
  destruct (think_keyword_only Examples.keyword_store "e" 5 eq_refl
              ltac:(lia) eq_refl) as (score & _ & Hthink).
  rewrite Hthink. cbn [fst]. rewrite map_map. cbn [fst].
  split; reflexivity.
Defined.
